(** * Placement and routing core of lamp-v2: a shallow embedding

    The development follows two source files:
    - [Archive/v2.4/src/circuit_placer_textbook.py] (topology classifier,
      the three placement strategies, pin resolution), together with the
      older grid placer of [Archive/v2.3/claude/src/circuit_placer.py];
    - [src/manhattan_router.py] (A* search on the 4-connected lattice,
      MST over the pins of a net, path simplification and merging).

    Coordinates are integers ([Z]).  A* scores are floats in the source, but
    every score is a sum of 1.0, 100.0 and 0.5: they are kept here in half
    units, so that 1.0 is [2], 100.0 is [200] and 0.5 is [1]. *)

From stdpp Require Import gmap strings list fin_maps sorting.
From Stdlib Require Import ZArith Lia.

Local Open Scope string_scope.
Local Open Scope list_scope.
Local Open Scope Z_scope.

(** ** Netlist data model ([src_redesign/netlist_parser.py]) *)

Record Component := mkComponent {
  reference : string;
  comp_type : string;
  node1 : string;
  node2 : string;
  value : string
}.

Record Net := mkNet {
  net_name : string;
  net_pins : list (string * Z)
}.

(** [nets] is a Python dict: an association list in insertion order. *)
Record Circuit := mkCircuit {
  components : list Component;
  nets : list (string * Net)
}.

Module Placer.

(** ** Placed components ([circuit_placer_textbook.py]) *)

Record PlacedComponent := mkPlaced {
  p_reference : string;
  p_comp_type : string;
  p_x : Z;
  p_y : Z;
  p_rotation : Z;
  pin_positions : list (Z * Z)
}.

(** The class constants, read through [self]. *)
Record Spacing := mkSpacing {
  COMPONENT_SPACING_H : Z;
  COMPONENT_SPACING_V : Z;
  RAIL_HEIGHT : Z
}.

Definition textbook_spacing : Spacing :=
  {| COMPONENT_SPACING_H := 250; COMPONENT_SPACING_V := 200; RAIL_HEIGHT := 150 |}.

Inductive Topology := SERIES | PARALLEL | GENERIC.

Definition type_in (t : string) (ts : list string) : bool :=
  bool_decide (t ∈ ts).

Definition sources (c : Circuit) : list Component :=
  filter (λ k, type_in (comp_type k) ["VDC"; "VAC"] = true) (components c).

Definition passives (c : Circuit) : list Component :=
  filter (λ k, type_in (comp_type k) ["VDC"; "VAC"; "GND"] = false) (components c).

Definition grounds (c : Circuit) : list Component :=
  filter (λ k, comp_type k = "GND") (components c).

(** ** [_detect_topology] *)

(** One pass of the inner loop [for node in [comp.node1, comp.node2]]. *)
Definition count_node (m : gmap string nat) (node : string) : gmap string nat :=
  if bool_decide (node = "GND") then m
  else <[node := (default 0%nat (m !! node) + 1)%nat]> m.

Definition count_component (m : gmap string nat) (k : Component) : gmap string nat :=
  foldl count_node m [node1 k; node2 k].

Definition node_connections (cs : list Component) : gmap string nat :=
  foldl count_component ∅ cs.

Definition intermediate_nodes (m : gmap string nat) : gmap string nat :=
  filter (λ kv, kv.2 = 2%nat) m.

Definition node_set (k : Component) : gset string := {[ node1 k; node2 k ]}.

Definition all_share (ps : list Component) : bool :=
  match ps with
  | [] => true
  | first :: rest =>
      forallb (λ p, bool_decide (node_set p = node_set first)) rest
  end.

Definition detect_topology (c : Circuit) : Topology :=
  match sources c, passives c with
  | [], _ | _, [] => GENERIC
  | _ :: _, _ :: _ =>
      if bool_decide (Z.of_nat (size (intermediate_nodes (node_connections (components c))))
                      = Z.of_nat (length (passives c)) - 1)
      then SERIES
      else if bool_decide (2 ≤ Z.of_nat (length (passives c))) && all_share (passives c)
           then PARALLEL
           else GENERIC
  end.

(** ** [_build_series_chain]

    [remaining] is a Python [set] of components.  Its iteration order is not
    fixed by the language: [set_order] gives the order in which the set built
    from a list is visited.  Removing an element leaves the other elements in
    the same relative order.

    This is the loop as it runs on component objects that can be put in a
    set.  The [Component] class of the parser cannot: on it [set(passives)]
    raises, and the run of the placer up to that point is [PlacerRun]
    below. *)

Section Placement.

Variable self : Spacing.
Variable set_order : list Component → list Component.

(** The two tests of the inner [for] loop, and the new [current_node]. *)
Definition connected (current_node : string) (k : Component) : option string :=
  if bool_decide (node1 k = current_node) then Some (node2 k)
  else if bool_decide (node2 k = current_node) then Some (node1 k)
  else None.

(** The inner [for comp in remaining] with its [break]: position of the
    component found, the component, and the node to continue from. *)
Fixpoint find_connected (current_node : string) (remaining : list Component)
  : option (nat * Component * string) :=
  match remaining with
  | [] => None
  | k :: rest =>
      match connected current_node k with
      | Some nxt => Some (0%nat, k, nxt)
      | None =>
          match find_connected current_node rest with
          | Some (i, found, nxt) => Some (S i, found, nxt)
          | None => None
          end
      end
  end.

(** [while remaining:]; every turn removes one component or leaves the loop,
    so [fuel] above the size of [remaining] is never used up. *)
Fixpoint chain_loop (fuel : nat) (remaining : list Component)
    (current_node : string) (chain : list Component) : list Component :=
  match fuel with
  | O => chain
  | S fuel' =>
      match remaining with
      | [] => chain
      | _ :: _ =>
          match find_connected current_node remaining with
          | Some (i, found, nxt) =>
              chain_loop fuel' (delete i remaining) nxt (chain ++ [found])
          | None => chain ++ remaining
          end
      end
  end.

Definition build_series_chain (source : Component) (ps : list Component)
  : list Component :=
  let remaining := set_order ps in
  chain_loop (S (length remaining)) remaining (node2 source) [].

(** ** The three placement strategies

    Each of them appends to [self.placed_components], passed here as
    [placed]. *)

Definition place_series (c : Circuit) (placed : list PlacedComponent)
  : list PlacedComponent :=
  let x := 0 in
  let y := RAIL_HEIGHT self in
  let placed :=
    match sources c with
    | source :: _ =>
        placed ++ [mkPlaced (reference source) (comp_type source) x y 0 []]
    | [] => placed
    end in
  let '(placed, x) :=
    match sources c, passives c with
    | source :: _, _ :: _ =>
        let chain := build_series_chain source (passives c) in
        foldl (λ '(pl, x) comp,
                 (pl ++ [mkPlaced (reference comp) (comp_type comp) x y 0 []],
                  x + COMPONENT_SPACING_H self))
              (placed, x + COMPONENT_SPACING_H self) chain
    | _, _ => (placed, x)
    end in
  match grounds c with
  | ground :: _ =>
      placed ++ [mkPlaced (reference ground) (comp_type ground)
                          (x - COMPONENT_SPACING_H self)
                          (y + COMPONENT_SPACING_V self) 0 []]
  | [] => placed
  end.

Definition place_parallel (c : Circuit) (placed : list PlacedComponent)
  : list PlacedComponent :=
  let x_source := 0 in
  let x_passives := COMPONENT_SPACING_H self * 2 in
  let y_start := RAIL_HEIGHT self in
  let placed :=
    match sources c with
    | source :: _ =>
        placed ++ [mkPlaced (reference source) (comp_type source) x_source y_start 0 []]
    | [] => placed
    end in
  let '(placed, y) :=
    foldl (λ '(pl, y) comp,
             (pl ++ [mkPlaced (reference comp) (comp_type comp) x_passives y 0 []],
              y + COMPONENT_SPACING_V self))
          (placed, y_start) (passives c) in
  match grounds c with
  | ground :: _ =>
      placed ++ [mkPlaced (reference ground) (comp_type ground)
                          (x_passives + COMPONENT_SPACING_H self)
                          (y_start + ((Z.of_nat (length (passives c)) - 1)
                                        * COMPONENT_SPACING_V self) `div` 2) 0 []]
  | [] => placed
  end.

(** One turn of the loop of [_place_generic_grid]; the state is
    [(placed, x, y)]. *)
Definition grid_turn (st : list PlacedComponent * Z * Z) (comp : Component)
  : list PlacedComponent * Z * Z :=
  let '(pl, x, y) := st in
  let pl := pl ++ [mkPlaced (reference comp) (comp_type comp) x y 0 []] in
  let x := x + COMPONENT_SPACING_H self in
  if bool_decide (x > COMPONENT_SPACING_H self * 4)
  then (pl, 0, y + COMPONENT_SPACING_V self)
  else (pl, x, y).

Definition place_generic_grid (c : Circuit) (placed : list PlacedComponent)
  : list PlacedComponent :=
  (foldl grid_turn (placed, 0, 0) (components c)).1.1.

(** ** [_calculate_all_pin_positions]

    The library maps a type tag to the relative pin offsets [(dx, dy)] of its
    definition. *)

Definition rotate_offset (rotation : Z) (d : Z * Z) : Z * Z :=
  let '(dx, dy) := d in
  if bool_decide (rotation = 90) then (- dy, dx)
  else if bool_decide (rotation = 180) then (- dx, - dy)
  else if bool_decide (rotation = 270) then (dy, - dx)
  else (dx, dy).

Definition resolve_pin (placed : PlacedComponent) (pin : Z * Z) : Z * Z :=
  let '(dx, dy) := rotate_offset (p_rotation placed) pin in
  (p_x placed + dx, p_y placed + dy).

Definition calculate_pins (library : gmap string (list (Z * Z)))
    (placed : PlacedComponent) : PlacedComponent :=
  match library !! p_comp_type placed with
  | None => placed
  | Some pins =>
      mkPlaced (p_reference placed) (p_comp_type placed) (p_x placed)
               (p_y placed) (p_rotation placed) (resolve_pin placed <$> pins)
  end.

Definition calculate_all_pin_positions (library : gmap string (list (Z * Z)))
    (placed : list PlacedComponent) : list PlacedComponent :=
  calculate_pins library <$> placed.

(** ** [place_circuit], up to pin resolution (the placed components of the
    returned pair), on a fresh placer *)

Definition place_by_topology (c : Circuit) (placed : list PlacedComponent)
  : list PlacedComponent :=
  match detect_topology c with
  | SERIES => place_series c placed
  | PARALLEL => place_parallel c placed
  | GENERIC => place_generic_grid c placed
  end.

Definition place_circuit (library : gmap string (list (Z * Z))) (c : Circuit)
  : list PlacedComponent :=
  calculate_all_pin_positions library (place_by_topology c []).

End Placement.

End Placer.

(** ** The grid placer of [Archive/v2.3/claude/src/circuit_placer.py] *)

Module BlockedPlacer.

Record NetlistComponent := mkNetlistComponent {
  nc_reference : string;
  component_type : string;
  nc_nodes : list string
}.

Record PlacedComponent := mkPlaced {
  p_reference : string;
  p_component_type : string;
  p_x : Z;
  p_y : Z;
  p_rotation : Z;
  pin_positions : list (Z * Z)
}.

Definition COMPONENT_SPACING_X : Z := 200.
Definition COMPONENT_SPACING_Y : Z := 200.

(** [math.ceil(math.sqrt(n * 1.5))] in exact arithmetic: the least [c] with
    [3 n ≤ 2 c²]. *)
Definition ceil_sqrt_3_2 (n : Z) : Z := Z.sqrt_up ((3 * n + 1) `div` 2).

Definition grid_cols (num_components : Z) : Z :=
  if bool_decide (num_components ≤ 3) then num_components
  else if bool_decide (num_components ≤ 6) then 3
  else ceil_sqrt_3_2 num_components.

Definition determine_rotation (comp : NetlistComponent) (col total_cols : Z) : Z :=
  if bool_decide (component_type comp ∈ ["VDC"; "VAC"; "IDC"]) && bool_decide (col = 0)
  then 0
  else if bool_decide (component_type comp = "GND") then 270
  else if bool_decide (component_type comp = "OPAMP") then 0
  else 0.

Definition calculate_pin_positions (pins : list (Z * Z)) (x y rotation : Z)
  : list (Z * Z) :=
  (λ '(px, py),
     let '(px, py) :=
       if bool_decide (rotation = 90) then (- py, px)
       else if bool_decide (rotation = 180) then (- px, - py)
       else if bool_decide (rotation = 270) then (py, - px)
       else (px, py) in
     (px + x, py + y)) <$> pins.

Definition place_components_blocked (library : gmap string (list (Z * Z)))
    (comps : list NetlistComponent) : list PlacedComponent :=
  let num_components := Z.of_nat (length comps) in
  let cols := grid_cols num_components in
  imap (λ idx comp,
          let row := Z.of_nat idx `div` cols in
          let col := Z.of_nat idx `mod` cols in
          let x := col * COMPONENT_SPACING_X in
          let y := row * COMPONENT_SPACING_Y in
          let rotation := determine_rotation comp col cols in
          let pins := default [] (library !! component_type comp) in
          mkPlaced (nc_reference comp) (component_type comp) x y rotation
                   (calculate_pin_positions pins x y rotation))
       comps.

End BlockedPlacer.

(** ** Python's [heapq] on a list, over any element type with its [<] *)

Module Heapq.
Section Heapq.

Context {A : Type} (lt : A → A → bool).

(** The [while pos > startpos] loop of [_siftdown]; [newitem] is written
    where the loop stops. *)
Fixpoint siftdown_loop (fuel : nat) (heap : list A) (startpos pos : nat)
    (newitem : A) : list A :=
  match fuel with
  | O => <[pos := newitem]> heap
  | S fuel' =>
      if bool_decide (startpos < pos)%nat then
        let parentpos := Nat.div2 (pos - 1) in
        match heap !! parentpos with
        | Some parent =>
            if lt newitem parent
            then siftdown_loop fuel' (<[pos := parent]> heap) startpos parentpos newitem
            else <[pos := newitem]> heap
        | None => <[pos := newitem]> heap
        end
      else <[pos := newitem]> heap
  end.

Definition siftdown (heap : list A) (startpos pos : nat) : list A :=
  match heap !! pos with
  | Some newitem => siftdown_loop (S pos) heap startpos pos newitem
  | None => heap
  end.

(** The [while childpos < endpos] loop of [_siftup]: the smaller child moves
    up until a leaf is reached; returns the heap and the final [pos]. *)
Fixpoint siftup_loop (fuel : nat) (heap : list A) (endpos pos : nat)
  : list A * nat :=
  match fuel with
  | O => (heap, pos)
  | S fuel' =>
      let childpos := (2 * pos + 1)%nat in
      if bool_decide (childpos < endpos)%nat then
        let rightpos := (childpos + 1)%nat in
        let childpos :=
          match heap !! childpos, heap !! rightpos with
          | Some l, Some r =>
              if bool_decide (rightpos < endpos)%nat && negb (lt l r)
              then rightpos else childpos
          | _, _ => childpos
          end in
        match heap !! childpos with
        | Some child => siftup_loop fuel' (<[pos := child]> heap) endpos childpos
        | None => (heap, pos)
        end
      else (heap, pos)
  end.

Definition siftup (heap : list A) (pos : nat) : list A :=
  match heap !! pos with
  | Some newitem =>
      let '(heap, pos') := siftup_loop (length heap) heap (length heap) pos in
      siftdown (<[pos' := newitem]> heap) pos pos'
  | None => heap
  end.

Definition heappush (heap : list A) (item : A) : list A :=
  siftdown (heap ++ [item]) 0 (length heap).

(** [None] stands for the [IndexError] of popping an empty heap. *)
Definition heappop (heap : list A) : option (A * list A) :=
  match last heap with
  | None => None
  | Some lastelt =>
      match removelast heap with
      | [] => Some (lastelt, [])
      | returnitem :: rest =>
          Some (returnitem, siftup (<[0%nat := lastelt]> (returnitem :: rest)) 0)
      end
  end.

End Heapq.
End Heapq.

(** ** [src/manhattan_router.py] *)

Module Router.

Definition Pos : Type := Z * Z.

(** The dataclass [Node]; it is ordered by [f_score] alone. *)
#[warnings="-register-all"]
Inductive Node := mkNode {
  f_score : Z;
  position : Pos;
  g_score : Z;
  parent : option Node
}.

Definition node_lt (a b : Node) : bool := bool_decide (f_score a < f_score b).

Record Wire := mkWire {
  wire_net : string;
  path : list Pos;
  crosses : Z
}.

Record Pin := mkPin { pin_id : string; pin_position : Pos }.

Record PlacedDict := mkPlacedDict {
  pd_reference : string;
  pd_pins : list Pin
}.

Record NetDict := mkNetDict {
  nd_name : string;
  nd_pins : list (string * string)
}.

Record ManhattanRouter := mkRouter {
  grid_size : Z;
  obstacles : gset Pos;
  wire_segments : list (Pos * Pos)
}.

Definition heuristic (pos goal : Pos) : Z :=
  Z.abs (pos.1 - goal.1) + Z.abs (pos.2 - goal.2).

Definition manhattan_distance (p1 p2 : Pos) : Z :=
  Z.abs (p1.1 - p2.1) + Z.abs (p1.2 - p2.2).

Definition get_neighbors (pos : Pos) : list Pos :=
  let '(x, y) := pos in [(x + 1, y); (x - 1, y); (x, y + 1); (x, y - 1)].

Definition is_direction_change (prev current next_pos : Pos) : bool :=
  let dir1_x := current.1 - prev.1 in
  let dir1_y := current.2 - prev.2 in
  let dir2_x := next_pos.1 - current.1 in
  let dir2_y := next_pos.2 - current.2 in
  bool_decide ((dir1_x, dir1_y) ≠ (dir2_x, dir2_y)).

(** [int(pos / grid_size)] truncates toward zero.  The division is a float
    division: it raises [ZeroDivisionError] when the grid size is 0, and it
    is the integer quotient on the range [FloatRange.exact_quotient];
    the statements that depend on the value of the quotient carry both as
    hypotheses. *)
Definition to_grid (self : ManhattanRouter) (pos : Pos) : Pos :=
  (pos.1 `quot` grid_size self, pos.2 `quot` grid_size self).

Definition from_grid (self : ManhattanRouter) (pos : Pos) : Pos :=
  (pos.1 * grid_size self, pos.2 * grid_size self).

Definition is_collinear (p1 p2 p3 : Pos) : bool :=
  (bool_decide (p1.1 = p2.1) && bool_decide (p2.1 = p3.1))
  || (bool_decide (p1.2 = p2.2) && bool_decide (p2.2 = p3.2)).

(** The loop of [_simplify_path] over [path[1:]]: [rest] starts at
    [path[i]], and [prev] is [simplified[-1]]. *)
Fixpoint simplify_loop (simplified : list Pos) (prev : Pos) (rest : list Pos)
  : list Pos :=
  match rest with
  | [] => simplified
  | [lastp] => simplified ++ [lastp]
  | current :: (next_point :: _) as rest' =>
      if is_collinear prev current next_point
      then simplify_loop simplified prev rest'
      else simplify_loop (simplified ++ [current]) current rest'
  end.

Definition simplify_path (path : list Pos) : list Pos :=
  match path with
  | p0 :: (_ :: _ :: _) as rest => simplify_loop [p0] p0 rest
  | _ => path
  end.

(** The walk up the [parent] links, before [reversed]. *)
Fixpoint chain_positions (node : Node) : list Pos :=
  match node with
  | mkNode _ pos _ par =>
      pos :: match par with
             | Some p => chain_positions p
             | None => []
             end
  end.

(** ** [_astar] *)

Record AStarState := mkAStar {
  open_set : list Node;
  closed_set : gset Pos;
  g_scores : gmap Pos Z
}.

Inductive Outcome :=
| Running (st : AStarState)
| Returned (result : list Pos).

Section AStar.

Variable self : ManhattanRouter.
Variable start goal : Pos.

(** One neighbour of the [for neighbor_pos in ...] loop; the state of the
    loop is [(open_set, g_scores)]. *)
Definition relax (current : Node) (closed : gset Pos)
    (acc : list Node * gmap Pos Z) (neighbor_pos : Pos)
  : list Node * gmap Pos Z :=
  if bool_decide (neighbor_pos ∈ closed) then acc
  else
    let move_cost := 2 in
    let move_cost :=
      if bool_decide (neighbor_pos ∈ obstacles self) then move_cost + 200
      else move_cost in
    let move_cost :=
      match parent current with
      | Some par =>
          if is_direction_change (position par) (position current) neighbor_pos
          then move_cost + 1 else move_cost
      | None => move_cost
      end in
    let tentative_g := g_score current + move_cost in
    if match acc.2 !! neighbor_pos with
       | None => true
       | Some g => bool_decide (tentative_g < g)
       end
    then
      let f := tentative_g + 2 * heuristic neighbor_pos goal in
      (Heapq.heappush node_lt acc.1 (mkNode f neighbor_pos tentative_g (Some current)),
       <[neighbor_pos := tentative_g]> acc.2)
    else acc.

(** One turn of [while open_set:]. *)
Definition astar_step (st : AStarState) : Outcome :=
  match Heapq.heappop node_lt (open_set st) with
  | None => Returned [start; (goal.1, start.2); goal]
  | Some (current, open) =>
      if bool_decide (position current = goal)
      then Returned (reverse (chain_positions current))
      else if bool_decide (position current ∈ closed_set st)
      then Running (mkAStar open (closed_set st) (g_scores st))
      else
        let closed := {[ position current ]} ∪ closed_set st in
        let '(open, gs) :=
          foldl (relax current closed) (open, g_scores st)
                (get_neighbors (position current)) in
        Running (mkAStar open closed gs)
  end.

Definition astar_init : AStarState :=
  mkAStar (Heapq.heappush node_lt [] (mkNode (2 * heuristic start goal) start 0 None))
          ∅ {[ start := 0 ]}.

(** [fuel] bounds the number of turns of the loop; [None] when it is used
    up. *)
Fixpoint astar_loop (fuel : nat) (st : AStarState) : option (list Pos) :=
  match fuel with
  | O => None
  | S fuel' =>
      match astar_step st with
      | Returned result => Some result
      | Running st' => astar_loop fuel' st'
      end
  end.

Definition astar (fuel : nat) : option (list Pos) :=
  if bool_decide (start = goal) then Some [start]
  else astar_loop fuel astar_init.

(** The state of the search after [n] turns of the loop, when it has not
    returned before. *)
Fixpoint astar_run (n : nat) (st : AStarState) : Outcome :=
  match n with
  | O => Running st
  | S n' =>
      match astar_step st with
      | Returned result => Returned result
      | Running st' => astar_run n' st'
      end
  end.

End AStar.

(** ** Two-pin and multi-pin routing *)

Definition route_two_pins (self : ManhattanRouter) (fuel : nat) (start end_ : Pos)
  : option (list Pos) :=
  let start_grid := to_grid self start in
  let end_grid := to_grid self end_ in
  grid_path ← astar self start_grid end_grid fuel;
  match grid_path with
  | [] => Some [start; (end_.1, start.2); end_]
  | _ :: _ => Some (from_grid self <$> simplify_path grid_path)
  end.

(** Tuples [(dist, i, j)] are compared lexicographically. *)
Definition edge_lt (a b : Z * nat * nat) : bool :=
  let '(d1, i1, j1) := a in
  let '(d2, i2, j2) := b in
  bool_decide (d1 < d2)
  || (bool_decide (d1 = d2)
      && (bool_decide (i1 < i2)%nat || (bool_decide (i1 = i2) && bool_decide (j1 < j2)%nat))).

Definition pin_at (pins : list Pos) (i : nat) : Pos := default (0, 0) (pins !! i).

(** [while len(visited) < n and candidates:] of [_build_mst]; every turn pops
    one candidate. *)
Fixpoint mst_loop (fuel : nat) (pins : list Pos) (visited : gset nat)
    (edges : list (nat * nat)) (candidates : list (Z * nat * nat))
  : list (nat * nat) :=
  match fuel with
  | O => edges
  | S fuel' =>
      if bool_decide (size visited < length pins)%nat then
        match Heapq.heappop edge_lt candidates with
        | None => edges
        | Some ((dist, i, j), candidates) =>
            if bool_decide (j ∈ visited)
            then mst_loop fuel' pins visited edges candidates
            else
              let visited := {[ j ]} ∪ visited in
              let edges := edges ++ [(i, j)] in
              let candidates :=
                foldl (λ cand k,
                         if bool_decide (k ∉ visited)
                         then Heapq.heappush edge_lt cand
                                (manhattan_distance (pin_at pins j) (pin_at pins k), j, k)
                         else cand)
                      candidates (seq 0 (length pins)) in
              mst_loop fuel' pins visited edges candidates
        end
      else edges
  end.

Definition build_mst (pins : list Pos) : list (nat * nat) :=
  let n := length pins in
  if bool_decide (n ≤ 1)%nat then []
  else
    let candidates :=
      foldl (λ cand j,
               Heapq.heappush edge_lt cand
                 (manhattan_distance (pin_at pins 0) (pin_at pins j), 0%nat, j))
            [] (seq 1 (n - 1)) in
    mst_loop (S (n * n)) pins {[ 0%nat ]} [] candidates.

(** [round(v, 1)] of an integer is the integer. *)
Definition merge_paths (paths : list Pos) : list Pos :=
  (foldl (λ '(unique_points, seen) point,
            if bool_decide (point ∉ (seen : gset Pos))
            then (unique_points ++ [point], {[ point ]} ∪ seen)
            else (unique_points, seen))
         ([], ∅) paths).1.

Definition route_multi_pins (self : ManhattanRouter) (fuel : nat) (pins : list Pos)
  : option (list Pos) :=
  match pins with
  | [] => None
  | [p] => route_two_pins self fuel p p
  | [p; q] => route_two_pins self fuel p q
  | _ =>
      let mst_edges := build_mst pins in
      all_paths ←
        foldl (λ acc '(i, j),
                 all_paths ← acc;
                 pth ← route_two_pins self fuel (pin_at pins i) (pin_at pins j);
                 Some (all_paths ++ pth))
              (Some []) mst_edges;
      Some (merge_paths all_paths)
  end.

(** The pin positions of a net: components and pins that are not found are
    skipped. *)
Definition pin_positions_of (net : NetDict) (comps : list PlacedDict) : list Pos :=
  omap (λ '(comp_ref, pid),
          comp ← list_find (λ c, pd_reference c = comp_ref) comps;
          pin ← list_find (λ p, pin_id p = pid) (pd_pins comp.2);
          Some (pin_position pin.2))
       (nd_pins net).

Fixpoint segments (self : ManhattanRouter) (pth : list Pos) : list (Pos * Pos) :=
  match pth with
  | a :: (b :: _) as rest => (to_grid self a, to_grid self b) :: segments self rest
  | _ => []
  end.

(** [route_net] returns the wire and leaves the segments of its path in
    [self.wire_segments]. *)
Definition route_net (self : ManhattanRouter) (fuel : nat) (net : NetDict)
    (comps : list PlacedDict) : option (Wire * ManhattanRouter) :=
  let pins := pin_positions_of net comps in
  if bool_decide (length pins < 2)%nat
  then Some (mkWire (nd_name net) [] 0, self)
  else
    pth ← (match pins with
           | [p; q] => route_two_pins self fuel p q
           | _ => route_multi_pins self fuel pins
           end);
    Some (mkWire (nd_name net) pth 0,
          mkRouter (grid_size self) (obstacles self)
                   (wire_segments self ++ segments self pth)).

End Router.

(** * Vocabulary of the statements *)

Module PlacerSpec.
Import Placer.

(** The terminals of a netlist, and how many of them touch a node. *)
Definition terminals (cs : list Component) : list string :=
  cs ≫= λ k, [node1 k; node2 k].

Definition degree (cs : list Component) (n : string) : nat :=
  length (filter (λ t, t = n) (terminals cs)).

(** The non-ground nodes touched by exactly two terminals. *)
Definition degree2_nodes (cs : list Component) : gset string :=
  filter (λ n, n ≠ "GND" ∧ degree cs n = 2%nat) (list_to_set (terminals cs)).

(** Two components have the same unordered pair of terminal nodes. *)
Definition same_pair (p q : Component) : Prop :=
  (node1 p = node1 q ∧ node2 p = node2 q) ∨ (node1 p = node2 q ∧ node2 p = node1 q).

(** [chain] is walked from [cur]: each member touches the current node, no
    later member does, and the walk goes on from its other terminal. *)
Fixpoint series_walk (cur : string) (chain : list Component) : Prop :=
  match chain with
  | [] => True
  | p :: ps =>
      ∃ nxt, connected cur p = Some nxt
             ∧ Forall (λ q, connected cur q = None) ps
             ∧ series_walk nxt ps
  end.

(** Anchor of the [i]-th cell of a row-major grid with [cols] cells per
    row. *)
Definition row_major (cols h v : Z) (i : nat) : Z * Z :=
  ((Z.of_nat i `mod` cols) * h, (Z.of_nat i `div` cols) * v).

Definition anchor (p : PlacedComponent) : Z * Z := (p_x p, p_y p).

(** The netlist of the worked example: V1 between VIN and GND, R1 between VIN
    and VOUT, C1 between VOUT and GND. *)
Definition rc_filter : Circuit :=
  mkCircuit
    [ mkComponent "V1" "VDC" "VIN" "GND" "5V";
      mkComponent "R1" "R" "VIN" "VOUT" "10k";
      mkComponent "C1" "C" "VOUT" "GND" "100nF" ]
    [ ("VIN", mkNet "VIN" [("V1", 1); ("R1", 1)]);
      ("GND", mkNet "GND" [("V1", 2); ("C1", 2)]);
      ("VOUT", mkNet "VOUT" [("R1", 2); ("C1", 1)]) ].

(** A source with a single resistor across it. *)
Definition single_load : Circuit :=
  mkCircuit
    [ mkComponent "V1" "VDC" "VIN" "GND" "5V";
      mkComponent "R1" "R" "VIN" "GND" "1k" ]
    [ ("VIN", mkNet "VIN" [("V1", 1); ("R1", 1)]);
      ("GND", mkNet "GND" [("V1", 2); ("R1", 2)]) ].

(** A source whose return node feeds a two-resistor chain. *)
Definition return_chain : Circuit :=
  mkCircuit
    [ mkComponent "V1" "VDC" "VIN" "GND" "5V";
      mkComponent "R2" "R" "N1" "N2" "1k";
      mkComponent "R1" "R" "N1" "GND" "1k";
      mkComponent "G1" "GND" "GND" "GND" "" ]
    [].

(** Six resistors and no source. *)
Definition six_resistors : Circuit :=
  mkCircuit
    [ mkComponent "R1" "R" "A1" "B1" "1k";
      mkComponent "R2" "R" "A2" "B2" "1k";
      mkComponent "R3" "R" "A3" "B3" "1k";
      mkComponent "R4" "R" "A4" "B4" "1k";
      mkComponent "R5" "R" "A5" "B5" "1k";
      mkComponent "R6" "R" "A6" "B6" "1k" ]
    [].

(** The classification rule read without a lower bound on the number of
    passives: SERIES by the degree count, else PARALLEL when all passives
    share one pair of nodes, else GENERIC. *)
Definition stated_topology (c : Circuit) : Topology :=
  match sources c, passives c with
  | [], _ | _, [] => GENERIC
  | _ :: _, _ :: _ =>
      if bool_decide (Z.of_nat (size (degree2_nodes (components c)))
                      = Z.of_nat (length (passives c)) - 1)
      then SERIES
      else if bool_decide (Forall (λ p, Forall (λ q, node_set p = node_set q) (passives c))
                                  (passives c))
           then PARALLEL
           else GENERIC
  end.

(** Counts are added to an entry that may be absent. *)
Definition bump (o : option nat) (k : nat) : option nat :=
  match k with
  | O => o
  | S _ => Some (default 0%nat o + k)%nat
  end.

(** A component as the placement strategies create it. *)
Definition fresh (p : PlacedComponent) : Prop :=
  p_rotation p = 0 ∧ pin_positions p = [].

End PlacerSpec.

Module RouterSpec.
Import Router.

(** Consecutive waypoints differ in exactly one coordinate. *)
Fixpoint axis_steps (pth : list Pos) : Prop :=
  match pth with
  | a :: (b :: _) as rest =>
      ((a.1 = b.1 ∧ a.2 ≠ b.2) ∨ (a.1 ≠ b.1 ∧ a.2 = b.2)) ∧ axis_steps rest
  | _ => True
  end.

(** No three consecutive waypoints on one horizontal or vertical line. *)
Fixpoint no_collinear_triple (pth : list Pos) : Prop :=
  match pth with
  | a :: (b :: c :: _) as rest =>
      is_collinear a b c = false ∧ no_collinear_triple rest
  | _ => True
  end.

Definition manhattan_polyline (pth : list Pos) : Prop :=
  axis_steps pth ∧ no_collinear_triple pth.

(** Sum of the Manhattan distances between consecutive waypoints. *)
Fixpoint manhattan_length (pth : list Pos) : Z :=
  match pth with
  | a :: (b :: _) as rest => manhattan_distance a b + manhattan_length rest
  | _ => 0
  end.

(** The cells of the rectangle spanned by two cells. *)
Definition in_rectangle (a b p : Pos) : Prop :=
  Z.min a.1 b.1 ≤ p.1 ≤ Z.max a.1 b.1 ∧ Z.min a.2 b.2 ≤ p.2 ≤ Z.max a.2 b.2.

(** Number of cells of the smallest rectangle that holds all [cells]. *)
Definition bounding_cells (cells : list Pos) : Z :=
  match cells with
  | [] => 0
  | c :: rest =>
      let xmin := foldr (λ p m, Z.min p.1 m) c.1 rest in
      let xmax := foldr (λ p m, Z.max p.1 m) c.1 rest in
      let ymin := foldr (λ p m, Z.min p.2 m) c.2 rest in
      let ymax := foldr (λ p m, Z.max p.2 m) c.2 rest in
      (xmax - xmin + 1) * (ymax - ymin + 1)
  end.

(** Number of cells expanded after [n] turns of the loop; [None] when the
    search has returned by then. *)
Definition expanded_after (self : ManhattanRouter) (start goal : Pos) (n : nat)
  : option nat :=
  match astar_run self start goal n (astar_init start goal) with
  | Running st => Some (size (closed_set st))
  | Returned _ => None
  end.

(** The two-segment path of the fallback. *)
Definition l_path (start goal : Pos) : list Pos :=
  [start; (goal.1, start.2); goal].

(** A router on the default grid with no component placed. *)
Definition empty_router : ManhattanRouter := mkRouter 10 ∅ [].

(** A router whose only blocked cell is [(1, 0)]. *)
Definition one_block_router : ManhattanRouter := mkRouter 10 {[ (1, 0) ]} [].

(** Three components with one pin each, at (0,0), (10,0) and (0,10), and the
    net that joins them. *)
Definition corner_components : list PlacedDict :=
  [ mkPlacedDict "R1" [mkPin "1" (0, 0)];
    mkPlacedDict "R2" [mkPin "1" (10, 0)];
    mkPlacedDict "R3" [mkPin "1" (0, 10)] ].

Definition corner_net : NetDict :=
  mkNetDict "N1" [("R1", "1"); ("R2", "1"); ("R3", "1")].

End RouterSpec.

(** * The rest of the three files, the netlist builder and the routing loop *)

(** [l[i]] of a Python list: a negative index counts from the end; [None]
    stands for the [IndexError]. *)
Definition py_index {A} (l : list A) (i : Z) : option A :=
  if bool_decide (0 ≤ i) then l !! Z.to_nat i
  else if bool_decide (- Z.of_nat (length l) ≤ i)
       then l !! Z.to_nat (Z.of_nat (length l) + i)
       else None.

(** ** [_build_nets] of [src_redesign/netlist_parser.py] *)

Module NetlistParser.

(** The two statements for one terminal: the entry of [node] is created
    when it is missing, then the pin is appended to its list.  The dict
    keeps its keys in insertion order. *)
Fixpoint add_pin (nets : list (string * Net)) (node : string) (pin : string * Z)
  : list (string * Net) :=
  match nets with
  | [] => [(node, mkNet node [pin])]
  | (k, n) :: rest =>
      if bool_decide (k = node)
      then (k, mkNet (net_name n) (net_pins n ++ [pin])) :: rest
      else (k, n) :: add_pin rest node pin
  end.

Definition build_nets (c : Circuit) : Circuit :=
  mkCircuit (components c)
    (foldl (λ nets comp,
              add_pin (add_pin nets (node1 comp) (reference comp, 1))
                      (node2 comp) (reference comp, 2))
           (nets c) (components c)).

End NetlistParser.

(** ** Wires of [circuit_placer_textbook.py] *)

Module PlacerWires.
Import Placer.

Record Wire := mkWire {
  w_net_name : string;
  waypoints : list (Z * Z)
}.

Definition find_placed (placed : list PlacedComponent) (reference : string)
  : option PlacedComponent :=
  snd <$> list_find (λ p, p_reference p = reference) placed.

(** The bend of one L-shaped connection: horizontal first when [dx > dy]. *)
Definition corner (p1 p2 : Z * Z) : Z * Z :=
  let dx := Z.abs (p2.1 - p1.1) in
  let dy := Z.abs (p2.2 - p1.2) in
  if bool_decide (dx > dy) then (p2.1, p1.2) else (p1.1, p2.2).

(** The loop over [range(len(pin_data) - 1)]; [first] says that [i == 0]. *)
Fixpoint route_orthogonal_loop (first : bool) (pin_data : list (string * (Z * Z)))
  : list (Z * Z) :=
  match pin_data with
  | (_, p1) :: ((_, p2) :: _) as rest =>
      (if first then [p1] else []) ++ [corner p1 p2; p2]
      ++ route_orthogonal_loop false rest
  | _ => []
  end.

(** The loop of [_remove_duplicates] over [points[1:]]; [last_point] is
    [result[-1]].  The coordinates are integers here, and on integers
    [abs(d) > 0.1] is [abs(d) > 0]; points with float coordinates less
    than 0.1 apart, which the source merges, are outside this model. *)
Fixpoint remove_duplicates_loop (last_point : Z * Z) (points : list (Z * Z))
  : list (Z * Z) :=
  match points with
  | [] => []
  | p :: rest =>
      if bool_decide (Z.abs (p.1 - last_point.1) > 0)
         || bool_decide (Z.abs (p.2 - last_point.2) > 0)
      then p :: remove_duplicates_loop p rest
      else remove_duplicates_loop last_point rest
  end.

Definition remove_duplicates (points : list (Z * Z)) : list (Z * Z) :=
  match points with
  | [] => []
  | p0 :: rest => p0 :: remove_duplicates_loop p0 rest
  end.

Definition route_orthogonal (pin_data : list (string * (Z * Z))) : list (Z * Z) :=
  remove_duplicates (route_orthogonal_loop true pin_data).

(** One pin of a net in [_route_all_wires]. *)
Definition collect_pin (placed : list PlacedComponent)
    (acc : option (list (string * (Z * Z)))) (pin : string * Z)
  : option (list (string * (Z * Z))) :=
  pin_data ← acc;
  let '(ref, pin_num) := pin in
  match find_placed placed ref with
  | Some p =>
      if bool_decide (pin_num - 1 < Z.of_nat (length (pin_positions p)))
      then pin_pos ← py_index (pin_positions p) (pin_num - 1);
           Some (pin_data ++ [(ref, pin_pos)])
      else Some pin_data
  | None => Some pin_data
  end.

(** One net of [_route_all_wires]; [wires] is [self.wires]. *)
Definition route_wire (placed : list PlacedComponent)
    (acc : option (list Wire)) (entry : string * Net) : option (list Wire) :=
  wires ← acc;
  let '(name, net) := entry in
  if bool_decide (length (net_pins net) < 2)%nat then Some wires
  else
    pin_data ← foldl (collect_pin placed) (Some []) (net_pins net);
    if bool_decide (length pin_data < 2)%nat then Some wires
    else Some (wires ++ [mkWire name (route_orthogonal pin_data)]).

Definition route_all_wires (placed : list PlacedComponent)
    (nets : list (string * Net)) (wires : list Wire) : option (list Wire) :=
  foldl (route_wire placed) (Some wires) nets.

End PlacerWires.

(** ** The run of the textbook placer on the components of the parser

    [Component] of [netlist_parser.py] is a [@dataclass] with the default
    [eq=True] and neither [frozen] nor [unsafe_hash]: its [__hash__] is
    [None].  [set(passives)] hashes every element, so it raises [TypeError]
    as soon as the list is not empty. *)

Module PlacerRun.
Import Placer.

(** How a call ends: it returns, or an exception leaves the method with
    [self.placed_components] as it is then. *)
Inductive Outcome (A : Type) :=
  | Returned (result : A)
  | Raised (placed : list PlacedComponent).
Arguments Returned {A} result.
Arguments Raised {A} placed.

(** [set(items)] for [Component] objects; [None] stands for the
    [TypeError]. *)
Definition set_of (items : list Component) : option (list Component) :=
  match items with
  | [] => Some []
  | _ :: _ => None
  end.

Definition build_series_chain (source : Component) (passives : list Component)
  : option (list Component) :=
  remaining ← set_of passives;
  Some (chain_loop (S (length remaining)) remaining (node2 source) []).

(** [_place_series]; what it returns is [self.placed_components]. *)
Definition place_series (self : Spacing) (c : Circuit) (placed : list PlacedComponent)
  : Outcome (list PlacedComponent) :=
  let x := 0 in
  let y := RAIL_HEIGHT self in
  let placed :=
    match sources c with
    | source :: _ =>
        placed ++ [mkPlaced (reference source) (comp_type source) x y 0 []]
    | [] => placed
    end in
  let chained :=
    match sources c, passives c with
    | source :: _, _ :: _ =>
        chain ← build_series_chain source (passives c);
        Some (foldl (λ '(pl, x) comp,
                       (pl ++ [mkPlaced (reference comp) (comp_type comp) x y 0 []],
                        x + COMPONENT_SPACING_H self))
                    (placed, x + COMPONENT_SPACING_H self) chain)
    | _, _ => Some (placed, x)
    end in
  match chained with
  | None => Raised placed
  | Some (placed, x) =>
      Returned
        match grounds c with
        | ground :: _ =>
            placed ++ [mkPlaced (reference ground) (comp_type ground)
                                (x - COMPONENT_SPACING_H self)
                                (y + COMPONENT_SPACING_V self) 0 []]
        | [] => placed
        end
  end.

Definition place_by_topology (self : Spacing) (c : Circuit)
    (placed : list PlacedComponent) : Outcome (list PlacedComponent) :=
  match detect_topology c with
  | SERIES => place_series self c placed
  | PARALLEL => Returned (place_parallel self c placed)
  | GENERIC => Returned (place_generic_grid self c placed)
  end.

(** [place_circuit] on a fresh placer: the placed components and the
    wires, or the exception of the placement or of the wiring. *)
Definition place_circuit (self : Spacing) (library : gmap string (list (Z * Z)))
    (c : Circuit) : Outcome (list PlacedComponent * list PlacerWires.Wire) :=
  match place_by_topology self c [] with
  | Returned placed =>
      let placed := calculate_all_pin_positions library placed in
      match PlacerWires.route_all_wires placed (nets c) [] with
      | Some wires => Returned (placed, wires)
      | None => Raised placed
      end
  | Raised placed => Raised placed
  end.

End PlacerRun.

(** ** The rest of [Archive/v2.3/claude/src/circuit_placer.py] *)

Module BlockedRouting.
Import BlockedPlacer.

Record NetlistNet := mkNetlistNet {
  nn_name : string;
  nn_components : list (string * Z)
}.

Record Circuit := mkCircuit {
  c_components : list NetlistComponent;
  c_nets : list NetlistNet
}.

Record Wire := mkWire {
  w_net_name : string;
  points : list (Z * Z)
}.

(** The three lists of [_topological_sort], filled in one pass. *)
Definition sort_turn
    (st : list NetlistComponent * list NetlistComponent * list NetlistComponent)
    (comp : NetlistComponent)
  : list NetlistComponent * list NetlistComponent * list NetlistComponent :=
  let '(voltage_sources, comps, grounds) := st in
  if bool_decide (component_type comp ∈ ["VDC"; "VAC"; "IDC"])
  then (voltage_sources ++ [comp], comps, grounds)
  else if bool_decide (component_type comp = "GND")
       then (voltage_sources, comps, grounds ++ [comp])
       else (voltage_sources, comps ++ [comp], grounds).

Definition topological_sort (c : Circuit) : list NetlistComponent :=
  let '(voltage_sources, comps, grounds) :=
    foldl sort_turn ([], [], []) (c_components c) in
  voltage_sources ++ comps ++ grounds.

Definition find_placed_component (placed : list PlacedComponent)
    (reference : string) : option PlacedComponent :=
  snd <$> list_find (λ p, p_reference p = reference) placed.

(** The loop of [_route_orthogonal] over [range(len(pins) - 1)]. *)
Fixpoint route_orthogonal_loop (first : bool) (pins : list (Z * Z)) : list (Z * Z) :=
  match pins with
  | p1 :: (p2 :: _) as rest =>
      let dx := Z.abs (p2.1 - p1.1) in
      let dy := Z.abs (p2.2 - p1.2) in
      (if first then [p1] else [])
      ++ (if bool_decide (dx > dy) then [(p2.1, p1.2); p2] else [(p1.1, p2.2); p2])
      ++ route_orthogonal_loop false rest
  | _ => []
  end.

Definition route_orthogonal (net_name : string) (pins : list (Z * Z)) : Wire :=
  if bool_decide (length pins < 2)%nat then mkWire net_name []
  else mkWire net_name (route_orthogonal_loop true pins).

Definition collect_pin (placed : list PlacedComponent)
    (acc : option (list (Z * Z))) (pin : string * Z) : option (list (Z * Z)) :=
  pin_positions ← acc;
  let '(comp_ref, pin_idx) := pin in
  match find_placed_component placed comp_ref with
  | Some p =>
      if bool_decide (pin_idx < Z.of_nat (length (BlockedPlacer.pin_positions p)))
      then pos ← py_index (BlockedPlacer.pin_positions p) pin_idx;
           Some (pin_positions ++ [pos])
      else Some pin_positions
  | None => Some pin_positions
  end.

Definition route_wire (placed : list PlacedComponent)
    (acc : option (list Wire)) (net : NetlistNet) : option (list Wire) :=
  wires ← acc;
  if bool_decide (length (nn_components net) < 2)%nat then Some wires
  else
    pin_positions ← foldl (collect_pin placed) (Some []) (nn_components net);
    if bool_decide (2 ≤ length pin_positions)%nat
    then Some (wires ++ [route_orthogonal (nn_name net) pin_positions])
    else Some wires.

Definition route_wires (placed : list PlacedComponent) (nets : list NetlistNet)
    (wires : list Wire) : option (list Wire) :=
  foldl (route_wire placed) (Some wires) nets.

(** [place_circuit] on a fresh placer. *)
Definition place_circuit (library : gmap string (list (Z * Z))) (c : Circuit)
  : option (list PlacedComponent * list Wire) :=
  let ordered_components := topological_sort c in
  let placed := place_components_blocked library ordered_components in
  wires ← route_wires placed (c_nets c) [];
  Some (placed, wires).

End BlockedRouting.

(** ** Obstacles and the routing loop of [src/manhattan_router.py] *)

Module Obstacles.
Import Router.

(** The keys of a placed component that [set_obstacles_from_components]
    reads: [position] and [size]. *)
Record Footprint := mkFootprint {
  position_x : Z;
  position_y : Z;
  size_width : Z;
  size_height : Z
}.

(** [int((c ± e/2) / grid_size)]: the quotient of [2c ± e] by
    [2 * grid_size], truncated toward zero.  The division is a float
    division: it raises [ZeroDivisionError] when the grid size is 0, and it
    is this quotient on the range [FloatRange.footprint_exact]. *)
Definition low_cell (self : ManhattanRouter) (c e : Z) : Z :=
  (2 * c - e) `quot` (2 * grid_size self).

Definition high_cell (self : ManhattanRouter) (c e : Z) : Z :=
  (2 * c + e) `quot` (2 * grid_size self).

(** [range(a, b + 1)] *)
Definition cell_range (a b : Z) : list Z := seqZ a (b + 1 - a).

Definition add_component (self : ManhattanRouter) (obstacles : gset Pos)
    (comp : Footprint) : gset Pos :=
  let x1 := low_cell self (position_x comp) (size_width comp) in
  let y1 := low_cell self (position_y comp) (size_height comp) in
  let x2 := high_cell self (position_x comp) (size_width comp) in
  let y2 := high_cell self (position_y comp) (size_height comp) in
  foldl (λ obstacles x,
           foldl (λ obstacles y, {[ (x, y) ]} ∪ obstacles) obstacles (cell_range y1 y2))
        obstacles (cell_range x1 x2).

Definition set_obstacles_from_components (self : ManhattanRouter)
    (components : list Footprint) : ManhattanRouter :=
  mkRouter (grid_size self)
           (foldl (add_component self) (obstacles self) components)
           (wire_segments self).

(** The loop [for net in nets: wire = router.route_net(net, components)] of
    [main]: the wires in the order of the nets, and the router after the
    last one. *)
Definition route_nets (self : ManhattanRouter) (fuel : nat) (nets : list NetDict)
    (comps : list PlacedDict) : option (list Wire * ManhattanRouter) :=
  foldl (λ acc net,
           '(wires, router) ← acc;
           '(wire, router) ← route_net router fuel net comps;
           Some (wires ++ [wire], router))
        (Some ([], self)) nets.

End Obstacles.

(** * Vocabulary of the heap invariant *)

Module HeapqSpec.

(** [(pos - 1) >> 1] *)
Definition parent (i : nat) : nat := Nat.div2 (i - 1).

Section Keyed.

Context {A : Type} (key : A → Z).

Definition key_lt (a b : A) : bool := bool_decide (key a < key b).

(** The entry at [i] is not below its parent. *)
Definition heap_at (h : list A) (i : nat) : Prop :=
  i ≠ 0%nat → ∀ x y, h !! i = Some x → h !! parent i = Some y → key y ≤ key x.

Definition is_heap (h : list A) : Prop := ∀ i, heap_at h i.

(** The children of [pos] are not below the parent of [pos]. *)
Definition spans (h : list A) (pos : nat) : Prop :=
  pos ≠ 0%nat →
  ∀ c x y, c ≠ 0%nat → parent c = pos →
           h !! c = Some x → h !! parent pos = Some y → key y ≤ key x.

End Keyed.

End HeapqSpec.

(** * Vocabulary of the search invariant *)

Module AStarSpec.
Import Router RouterSpec.

Section Search.

Variable self : ManhattanRouter.
Variables start goal : Pos.

(** Sides of the rectangle spanned by the two pin cells, and its cells
    counted from [start] toward [goal]. *)
Definition width : Z := Z.abs (goal.1 - start.1).
Definition height : Z := Z.abs (goal.2 - start.2).

Definition cell (u v : Z) : Pos :=
  (if bool_decide (start.1 ≤ goal.1) then start.1 + u else start.1 - u,
   if bool_decide (start.2 ≤ goal.2) then start.2 + v else start.2 - v).

Definition rectangle_cells : gset Pos :=
  list_to_set (u ← seqZ 0 (width + 1); v ← seqZ 0 (height + 1); [cell u v]).

Definition start_node : Node := mkNode (2 * heuristic start goal) start 0 None.

(** The cost of the move from the node [m] into [q], as [move_cost] is
    built up in [_astar], in half units. *)
Definition step_cost (m : Node) (q : Pos) : Z :=
  2 + (if bool_decide (q ∈ obstacles self) then 200 else 0)
    + match parent m with
      | Some par =>
          if is_direction_change (position par) (position m) q then 1 else 0
      | None => 0
      end.

(** The node pushed for the neighbour [q] of the expanded node [m]. *)
Definition child (m : Node) (q : Pos) : Node :=
  mkNode (g_score m + step_cost m q + 2 * heuristic q goal) q
         (g_score m + step_cost m q) (Some m).

(** A node whose estimate is that of a shortest path with at most one
    turn. *)
Definition good (n : Node) : Prop := f_score n ≤ 2 * heuristic start goal + 1.

(** The chain of parents is at least as long as the score says, and ends at
    [start]. *)
Definition wellformed (n : Node) : Prop :=
  2 * manhattan_length (chain_positions n) ≤ g_score n
  ∧ last (chain_positions n) = Some start.

(** The parent of [n] is at the cell [p]. *)
Definition parent_at (n : Node) (p : Pos) : Prop :=
  ∃ m, parent n = Some m ∧ position m = p.

(** The five ways a good node is reached: the start itself; straight along
    the row of [start]; straight along its column; along a row after one
    turn, every cell of that row before it having been expanded along the
    row; along a column after one turn, likewise.  [expanded] maps each
    expanded cell to the node that was expanded there. *)
Definition shape (expanded : gmap Pos Node) (n : Node) : Prop :=
  ∃ u v,
    0 ≤ u ≤ width ∧ 0 ≤ v ≤ height
    ∧ position n = cell u v
    ∧ f_score n = g_score n + 2 * ((width - u) + (height - v))
    ∧ ((parent n = None ∧ u = 0 ∧ v = 0 ∧ g_score n = 0)
       ∨ (v = 0 ∧ 1 ≤ u ∧ g_score n = 2 * u ∧ parent_at n (cell (u - 1) 0))
       ∨ (u = 0 ∧ 1 ≤ v ∧ g_score n = 2 * v ∧ parent_at n (cell 0 (v - 1)))
       ∨ (1 ≤ u ∧ 1 ≤ v ∧ g_score n = 2 * (u + v) + 1
          ∧ parent_at n (cell (u - 1) v)
          ∧ ∀ u', 1 ≤ u' < u →
              ∃ m, expanded !! cell u' v = Some m ∧ parent_at m (cell (u' - 1) v))
       ∨ (1 ≤ u ∧ 1 ≤ v ∧ g_score n = 2 * (u + v) + 1
          ∧ parent_at n (cell u (v - 1))
          ∧ ∀ v', 1 ≤ v' < v →
              ∃ m, expanded !! cell u v' = Some m ∧ parent_at m (cell u (v' - 1)))).

(** The invariant of the loop.  While the neighbours of the cell [cur] are
    being visited, those still [pending] are exempt from the last clause. *)
Record inv (pending : list Pos) (cur : Pos) (expanded : gmap Pos Node)
    (st : AStarState) : Prop := mkInv {
  inv_heap : HeapqSpec.is_heap f_score (open_set st);
  inv_dom : dom expanded = closed_set st;
  inv_goal : goal ∉ closed_set st;
  inv_start : start ∈ closed_set st ∨ start_node ∈ open_set st;
  inv_wf : ∀ n, n ∈ open_set st → wellformed n;
  inv_open : ∀ n, n ∈ open_set st → good n → shape expanded n;
  inv_expanded : ∀ p m, expanded !! p = Some m → position m = p ∧ shape expanded m;
  inv_scores : ∀ q g, g_scores st !! q = Some g →
      q ∈ closed_set st
      ∨ ∃ n, n ∈ open_set st ∧ position n = q ∧ g_score n = g
             ∧ f_score n = g + 2 * heuristic q goal;
  inv_offer : ∀ p m q, expanded !! p = Some m → q ∈ get_neighbors p →
      good (child m q) →
      (p = cur ∧ q ∈ pending)
      ∨ q ∈ closed_set st
      ∨ ∃ n, n ∈ open_set st ∧ position n = q ∧ good n
}.

(** Turns of the loop that are left at most: every pop removes one entry,
    every expansion adds at most four and uses up one cell of the
    rectangle. *)
Definition turns_left (st : AStarState) : nat :=
  (length (open_set st) + 4 * (size rectangle_cells - size (closed_set st)))%nat.

End Search.

End AStarSpec.

(** * Vocabulary of the paths of the search, whatever the obstacles *)

Module TraceSpec.
Import Router RouterSpec.

(** Consecutive cells are one move apart. *)
Fixpoint unit_steps (pth : list Pos) : Prop :=
  match pth with
  | a :: (b :: _) as rest => manhattan_distance a b = 1 ∧ unit_steps rest
  | _ => True
  end.

Section Search.

Variables start goal : Pos.

(** The chain of parents of a node of the open set leads back to [start] by
    single moves, and the cells above the node are distinct expanded cells. *)
Definition chain_ok (closed : gset Pos) (n : Node) : Prop :=
  last (chain_positions n) = Some start
  ∧ unit_steps (chain_positions n)
  ∧ match parent n with
    | Some par =>
        NoDup (chain_positions par) ∧ ∀ p, p ∈ chain_positions par → p ∈ closed
    | None => True
    end.

(** The invariant of the loop; [pending] and [cur] as in the invariant of the
    obstacle-free case. *)
Record trace_inv (pending : list Pos) (cur : Pos) (st : AStarState) : Prop :=
  mkTraceInv {
  t_heap : HeapqSpec.is_heap f_score (open_set st);
  t_goal : goal ∉ closed_set st;
  t_start : start ∈ closed_set st ∨ AStarSpec.start_node start goal ∈ open_set st;
  t_chain : ∀ n, n ∈ open_set st → chain_ok (closed_set st) n;
  t_scores : ∀ q g, g_scores st !! q = Some g →
      q ∈ closed_set st ∨ ∃ n, n ∈ open_set st ∧ position n = q;
  t_frontier : ∀ p q, p ∈ closed_set st → q ∈ get_neighbors p →
      (p = cur ∧ q ∈ pending)
      ∨ q ∈ closed_set st
      ∨ ∃ n, n ∈ open_set st ∧ position n = q
}.

(** What a returned path is: a walk of single moves from [start] to [goal]
    that visits no cell twice. *)
Definition simple_walk (pth : list Pos) : Prop :=
  NoDup pth ∧ unit_steps pth ∧ head pth = Some start ∧ last pth = Some goal.

End Search.

End TraceSpec.

(** * Vocabulary of the spanning tree *)

Module MstSpec.
Import Router.

(** The lexicographic order of the tuples [(dist, i, j)] as a number, for
    indices below [n]. *)
Definition edge_key (n : nat) (e : Z * nat * nat) : Z :=
  let '(d, i, j) := e in
  d * (Z.of_nat n * Z.of_nat n) + Z.of_nat i * Z.of_nat n + Z.of_nat j.

(** A candidate joins two pins of the net and carries their distance. *)
Definition candidate_ok (pins : list Pos) (e : Z * nat * nat) : Prop :=
  let '(d, i, j) := e in
  (i < length pins)%nat ∧ (j < length pins)%nat
  ∧ d = manhattan_distance (pin_at pins i) (pin_at pins j).

(** A tree grown from the pins [seen]: every edge leaves a pin that is in
    the tree already and enters one that is not. *)
Fixpoint grows_from (seen : gset nat) (edges : list (nat * nat)) : Prop :=
  match edges with
  | [] => True
  | (i, j) :: rest => i ∈ seen ∧ (j ∉ seen) ∧ grows_from ({[ j ]} ∪ seen) rest
  end.

(** Every edge is a lightest one among the pairs that leave the tree as it
    is when the edge is added. *)
Fixpoint lightest_first (pins : list Pos) (seen : gset nat)
    (edges : list (nat * nat)) : Prop :=
  match edges with
  | [] => True
  | (i, j) :: rest =>
      (∀ a b, a ∈ seen → b ∉ seen → (b < length pins)%nat →
              manhattan_distance (pin_at pins i) (pin_at pins j)
              ≤ manhattan_distance (pin_at pins a) (pin_at pins b))
      ∧ lightest_first pins ({[ j ]} ∪ seen) rest
  end.

(** The invariant of the loop of [_build_mst]. *)
Record mst_inv (pins : list Pos) (visited : gset nat) (edges : list (nat * nat))
    (candidates : list (Z * nat * nat)) : Prop := mkMstInv {
  mst_heap : HeapqSpec.is_heap (edge_key (length pins)) candidates;
  mst_ok : Forall (candidate_ok pins) candidates;
  mst_from : ∀ d i j, (d, i, j) ∈ candidates → i ∈ visited;
  mst_visited : visited = {[ 0%nat ]} ∪ list_to_set (edges.*2);
  mst_range : ∀ x, x ∈ visited → (x < length pins)%nat;
  mst_tree : grows_from {[ 0%nat ]} edges;
  mst_light : lightest_first pins {[ 0%nat ]} edges;
  mst_cross : ∀ a b, a ∈ visited → b ∉ visited → (b < length pins)%nat →
      (manhattan_distance (pin_at pins a) (pin_at pins b), a, b) ∈ candidates
}.

(** What the loop returns: a tree over all the pins, grown from the first
    one by lightest edges. *)
Definition spanning (pins : list Pos) (edges : list (nat * nat)) : Prop :=
  grows_from {[ 0%nat ]} edges
  ∧ lightest_first pins {[ 0%nat ]} edges
  ∧ length edges = (length pins - 1)%nat
  ∧ (∀ i j, (i, j) ∈ edges → (i < length pins)%nat ∧ (j < length pins)%nat).

(** The candidates before the loop: the edges from the first pin. *)
Definition first_candidates (pins : list Pos) : list (Z * nat * nat) :=
  foldl (λ cand j,
           Heapq.heappush edge_lt cand
             (manhattan_distance (pin_at pins 0) (pin_at pins j), 0%nat, j))
        [] (seq 1 (length pins - 1)).

(** Turns of the loop that are left at most. *)
Definition mst_turns_left (pins : list Pos) (visited : gset nat)
    (candidates : list (Z * nat * nat)) : nat :=
  (length candidates + length pins * (length pins - size visited))%nat.

End MstSpec.

(** * Vocabulary of the termination of the search *)

Module TermSpec.
Import Router RouterSpec.

Section Search.

Variables start goal : Pos.

(** The [k]-th cell of the walk along the row of [start] and then along the
    column of [goal]. *)
Definition corner_cell (k : Z) : Pos :=
  AStarSpec.cell start goal
    (Z.min k (AStarSpec.width start goal))
    (Z.max 0 (k - AStarSpec.width start goal)).

(** A move costs at most 203 half units (1 + 100 + 0.5) and brings the
    estimate of the rest up by at most 2: an entry for the [k]-th cell of
    the walk is pushed with an estimate of at most this. *)
Definition estimate_bound (k : Z) : Z := 2 * heuristic start goal + 205 * k.

(** The square around [goal] that holds every cell the search expands. *)
Definition radius : Z := 104 * heuristic start goal.

Definition search_region : gset Pos :=
  list_to_set (x ← seqZ (goal.1 - radius) (2 * radius + 1);
               y ← seqZ (goal.2 - radius) (2 * radius + 1);
               [(x, y)]).

(** The invariant of the loop.  While the neighbours of the cell [cur] are
    being visited, those still [pending] are exempt from the last clause. *)
Record term_inv (pending : list Pos) (cur : Pos) (st : AStarState) : Prop :=
  mkTermInv {
  term_heap : HeapqSpec.is_heap f_score (open_set st);
  term_goal : goal ∉ closed_set st;
  term_sound : ∀ n, n ∈ open_set st →
      f_score n = g_score n + 2 * heuristic (position n) goal ∧ 0 ≤ g_score n;
  term_scores : ∀ q g, g_scores st !! q = Some g →
      q ∈ closed_set st
      ∨ ∃ n, n ∈ open_set st ∧ position n = q ∧ g_score n = g;
  term_region : closed_set st ⊆ search_region;
  term_front : ∀ k, 0 ≤ k ≤ heuristic start goal →
      corner_cell k ∉ closed_set st →
      k = 0 ∨ corner_cell (k - 1) ∈ closed_set st →
      (1 ≤ k ∧ corner_cell (k - 1) = cur ∧ corner_cell k ∈ pending)
      ∨ ∃ n, n ∈ open_set st ∧ position n = corner_cell k
             ∧ f_score n ≤ estimate_bound k
}.

(** Turns of the loop that are left at most. *)
Definition search_turns_left (st : AStarState) : nat :=
  (length (open_set st) + 4 * (size search_region - size (closed_set st)))%nat.

(** Fuel that is enough for the search from [start] to [goal]. *)
Definition enough_fuel : nat := (4 * size search_region + 2)%nat.

End Search.

End TermSpec.

(** * Vocabulary of the further statements *)

Module LayoutSpec.
Import Placer.

(** What identifies a component in the netlist and in the layout. *)
Definition component_tag (k : Component) : string * string :=
  (reference k, comp_type k).

Definition placed_tag (p : PlacedComponent) : string * string :=
  (p_reference p, p_comp_type p).

(** The ground symbol of the series and parallel strategies: the first
    ground of the netlist, when there is one. *)
Definition ground_part (c : Circuit) (x y : Z) : list PlacedComponent :=
  match grounds c with
  | ground :: _ => [mkPlaced (reference ground) (comp_type ground) x y 0 []]
  | [] => []
  end.

(** A source with two resistors across it. *)
Definition two_loads : Circuit :=
  mkCircuit
    [ mkComponent "V1" "VDC" "VIN" "GND" "5V";
      mkComponent "R1" "R" "VIN" "GND" "1k";
      mkComponent "R2" "R" "VIN" "GND" "2k";
      mkComponent "G1" "GND" "GND" "GND" "" ]
    [].

(** The pins that [_build_nets] files under the node [n], in the order of
    the components. *)
Definition pins_at (cs : list Component) (n : string) : list (string * Z) :=
  cs ≫= λ k,
    (if bool_decide (node1 k = n) then [(reference k, 1)] else [])
    ++ (if bool_decide (node2 k = n) then [(reference k, 2)] else []).

(** [nets[n]] of the dict of nets; [None] when the key is missing. *)
Definition lookup_net (nets : list (string * Net)) (n : string) : option Net :=
  (λ found, found.2.2) <$> list_find (λ e, e.1 = n) nets.

(** No point is followed by itself. *)
Fixpoint no_stutter (points : list (Z * Z)) : Prop :=
  match points with
  | a :: (b :: _) as rest => a ≠ b ∧ no_stutter rest
  | _ => True
  end.

(** Consecutive points lie on one horizontal or vertical line. *)
Fixpoint aligned_steps (points : list (Z * Z)) : Prop :=
  match points with
  | a :: (b :: _) as rest => (a.1 = b.1 ∨ a.2 = b.2) ∧ aligned_steps rest
  | _ => True
  end.

(** The rank of a component in the order of [_topological_sort]. *)
Definition sort_rank (comp : BlockedPlacer.NetlistComponent) : nat :=
  if bool_decide (BlockedPlacer.component_type comp ∈ ["VDC"; "VAC"; "IDC"]) then 0
  else if bool_decide (BlockedPlacer.component_type comp = "GND") then 2
  else 1.

End LayoutSpec.

(** * The range on which the float divisions of the source are exact

    [int(a / b)] divides in floating point and truncates toward zero.  The
    division raises [ZeroDivisionError] when [b] is 0.  When
    [|a| + |b| ≤ 2^53] both operands are floats without rounding and the
    rounded quotient lies on the same side of every integer as the exact
    one: the result is then the integer quotient truncated toward zero. *)

Module FloatRange.
Import Router Obstacles.

Definition exact_quotient (a b : Z) : Prop :=
  b ≠ 0 ∧ Z.abs a + Z.abs b ≤ 2 ^ 53.

(** [_to_grid(pos)] divides both coordinates by the grid size. *)
Definition snaps_exactly (self : ManhattanRouter) (pos : Pos) : Prop :=
  exact_quotient pos.1 (grid_size self) ∧ exact_quotient pos.2 (grid_size self).

(** The four divisions [int((c ± e/2) / grid_size)] of a component. *)
Definition footprint_exact (self : ManhattanRouter) (comp : Footprint) : Prop :=
  exact_quotient (2 * position_x comp - size_width comp) (2 * grid_size self)
  ∧ exact_quotient (2 * position_x comp + size_width comp) (2 * grid_size self)
  ∧ exact_quotient (2 * position_y comp - size_height comp) (2 * grid_size self)
  ∧ exact_quotient (2 * position_y comp + size_height comp) (2 * grid_size self).

End FloatRange.

(** * The placer *)

Module PlacerFacts.
Import Placer PlacerSpec.

(** ** The degree histogram *)

Lemma bump_bump o j k : bump (bump o j) k = bump o (j + k).
Proof.
  destruct j, k; simpl; try done.
  - by rewrite Nat.add_0_r.
  - f_equal. lia.
Qed.

Lemma count_node_lookup m t n :
  count_node m t !! n
  = if decide (n = "GND") then m !! n
    else bump (m !! n) (length (filter (λ t', t' = n) [t])).
Proof.
  unfold count_node. case_bool_decide as Ht.
  - subst t. case_decide as Hn; [done|].
    rewrite filter_cons_False; [|congruence]. done.
  - destruct (decide (t = n)) as [->|Hne].
    + rewrite decide_False by done. rewrite lookup_insert_eq.
      rewrite filter_cons_True by done. simpl. done.
    + rewrite lookup_insert_ne by done.
      rewrite filter_cons_False by done. simpl. by case_decide.
Qed.

Lemma count_nodes_lookup ts m n :
  foldl count_node m ts !! n
  = if decide (n = "GND") then m !! n
    else bump (m !! n) (length (filter (λ t', t' = n) ts)).
Proof.
  revert m. induction ts as [|t ts IH]; intros m; simpl.
  - by case_decide.
  - rewrite IH, count_node_lookup. case_decide; [done|].
    rewrite bump_bump. f_equal.
    destruct (decide (t = n)) as [->|Hne].
    + rewrite !filter_cons_True by done. simpl. done.
    + rewrite !filter_cons_False by done. simpl. done.
Qed.

Lemma foldl_count_component cs m :
  foldl count_component m cs = foldl count_node m (terminals cs).
Proof.
  revert m. induction cs as [|k cs IH]; intros m; [done|].
  simpl. rewrite IH. unfold terminals. simpl. done.
Qed.

Lemma node_connections_lookup cs n :
  node_connections cs !! n
  = if decide (n = "GND") then None else bump None (degree cs n).
Proof.
  unfold node_connections. rewrite foldl_count_component, count_nodes_lookup.
  by rewrite lookup_empty.
Qed.

Lemma degree_pos_elem cs n : (0 < degree cs n)%nat ↔ n ∈ terminals cs.
Proof.
  unfold degree. split.
  - intros H. destruct (filter _ _) as [|x l] eqn:E; [simpl in H; lia|].
    assert (x ∈ filter (λ t, t = n) (terminals cs)) as Hx by (rewrite E; left).
    apply list_elem_of_filter in Hx as [-> ?]. done.
  - intros H. assert (n ∈ filter (λ t, t = n) (terminals cs)) as Hx
      by (apply list_elem_of_filter; done).
    destruct (filter _ _); [by apply elem_of_nil in Hx|simpl; lia].
Qed.

(** The keys with count 2 are the nodes of degree 2. *)
Lemma intermediate_nodes_dom cs :
  dom (intermediate_nodes (node_connections cs)) = degree2_nodes cs.
Proof.
  apply set_eq. intros n. unfold intermediate_nodes, degree2_nodes.
  rewrite elem_of_dom, elem_of_filter, elem_of_list_to_set.
  split.
  - intros [v Hv]. apply map_lookup_filter_Some in Hv as [Hv Hv2]. simpl in Hv2.
    subst v. rewrite node_connections_lookup in Hv.
    case_decide; [done|]. destruct (degree cs n) as [|d] eqn:Hd; [done|].
    simpl in Hv. injection Hv as Hv.
    split; [split; [done|lia]|]. apply degree_pos_elem. lia.
  - intros [[Hg Hd] _]. exists 2%nat. apply map_lookup_filter_Some. split; [|done].
    rewrite node_connections_lookup, decide_False, Hd by done. done.
Qed.

Lemma intermediate_nodes_size cs :
  size (intermediate_nodes (node_connections cs)) = size (degree2_nodes cs).
Proof. by rewrite <- intermediate_nodes_dom, size_dom. Qed.

(** ** The shared pair of the passives *)

Lemma node_set_same_pair p q : node_set p = node_set q ↔ same_pair p q.
Proof.
  unfold node_set, same_pair. split.
  - intros H.
    assert (∀ n, (n = node1 p ∨ n = node2 p) ↔ (n = node1 q ∨ n = node2 q)) as Hn.
    { intros n.
      assert (n ∈ ({[node1 p; node2 p]} : gset string)
              ↔ n ∈ ({[node1 q; node2 q]} : gset string)) as Hs by (by rewrite H).
      by rewrite !elem_of_union, !elem_of_singleton in Hs. }
    destruct (proj1 (Hn (node1 p)) (or_introl eq_refl)) as [E1|E1],
             (proj1 (Hn (node2 p)) (or_intror eq_refl)) as [E2|E2],
             (proj2 (Hn (node1 q)) (or_introl eq_refl)) as [E3|E3],
             (proj2 (Hn (node2 q)) (or_intror eq_refl)) as [E4|E4];
      (left; split; congruence) || (right; split; congruence).
  - intros [[-> ->]|[-> ->]]; [done|]. apply set_eq. intros n.
    rewrite !elem_of_union, !elem_of_singleton. tauto.
Qed.

Lemma all_share_spec ps :
  all_share ps = true ↔ ∀ p q, p ∈ ps → q ∈ ps → same_pair p q.
Proof.
  destruct ps as [|first rest]; simpl.
  - split; [|done]. intros _ p q Hp. by apply elem_of_nil in Hp.
  - rewrite <- Is_true_true, forallb_True, Forall_forall. split.
    + intros H.
      assert (∀ p, p ∈ first :: rest → node_set p = node_set first) as Hall.
      { intros p [->|Hp]%elem_of_cons; [done|].
        specialize (H p Hp). by apply bool_decide_unpack in H. }
      intros p q Hp Hq. apply node_set_same_pair.
      by rewrite (Hall p Hp), (Hall q Hq).
    + intros H p Hp. apply bool_decide_pack, node_set_same_pair, H; [by right|by left].
Qed.

(** ** The classifier *)

Lemma detect_topology_unfold c :
  detect_topology c
  = if bool_decide (sources c = [] ∨ passives c = []) then GENERIC
    else if bool_decide (Z.of_nat (size (degree2_nodes (components c)))
                         = Z.of_nat (length (passives c)) - 1)
         then SERIES
         else if bool_decide (2 ≤ Z.of_nat (length (passives c))) && all_share (passives c)
              then PARALLEL
              else GENERIC.
Proof.
  unfold detect_topology. rewrite intermediate_nodes_size.
  destruct (sources c) as [|s ss], (passives c) as [|p ps];
    try (rewrite bool_decide_eq_true_2 by auto; done).
  rewrite (bool_decide_eq_false_2 (_ ∨ _)) by (intros [?|?]; done). done.
Qed.

(** C4 (amended): with at least one source and one passive the tag is SERIES
    exactly when the number of non-ground nodes touched by exactly two
    terminals is the number of passives minus one; otherwise it is PARALLEL
    exactly when there are at least two passives and all of them have the same
    unordered pair of terminal nodes; otherwise GENERIC.  Without a source or
    without a passive the tag is GENERIC. *)
Theorem detect_topology_rule (c : Circuit) :
  (sources c = [] ∨ passives c = [] → detect_topology c = GENERIC) ∧
  (sources c ≠ [] → passives c ≠ [] →
   let chain_count :=
     Z.of_nat (size (degree2_nodes (components c)))
     = Z.of_nat (length (passives c)) - 1 in
   let shared_pair :=
     (2 ≤ length (passives c))%nat
     ∧ ∀ p q, p ∈ passives c → q ∈ passives c → same_pair p q in
   (detect_topology c = SERIES ↔ chain_count)
   ∧ (detect_topology c = PARALLEL ↔ ¬ chain_count ∧ shared_pair)
   ∧ (detect_topology c = GENERIC ↔ ¬ chain_count ∧ ¬ shared_pair)).
Proof.
  rewrite detect_topology_unfold. split.
  - intros H. by rewrite bool_decide_eq_true_2.
  - intros Hs Hp. rewrite (bool_decide_eq_false_2 (_ ∨ _)) by (intros [?|?]; done).
    simpl. case_bool_decide as Hc.
    { split_and!; split; try done; intros [? _]; done. }
    destruct (bool_decide (2 ≤ Z.of_nat (length (passives c)))) eqn:H2;
      [apply bool_decide_eq_true in H2|apply bool_decide_eq_false in H2]; simpl.
    + destruct (all_share (passives c)) eqn:Ha.
      * pose proof (proj1 (all_share_spec _) Ha) as Hall.
        split_and!; split; try done.
        -- intros _. split; [done|]. split; [lia|done].
        -- intros [_ Hn]. exfalso. apply Hn. split; [lia|done].
      * assert (¬ ∀ p q, p ∈ passives c → q ∈ passives c → same_pair p q) as Hn.
        { intros Hall. pose proof (proj2 (all_share_spec _) Hall). congruence. }
        split_and!; split; try done.
        -- intros [_ [_ ?]]. done.
        -- intros _. split; [done|]. intros [_ ?]. done.
    + split_and!; split; try done.
      * intros [_ [? _]]. lia.
      * intros _. split; [done|]. intros [? _]. lia.
Qed.

(** The rule on a concrete netlist: one source, two chained resistors. *)
Lemma detect_topology_rule_witness :
  sources return_chain ≠ [] ∧ passives return_chain ≠ []
  ∧ (detect_topology return_chain = SERIES
     ↔ Z.of_nat (size (degree2_nodes (components return_chain)))
       = Z.of_nat (length (passives return_chain)) - 1).
Proof.
  assert (sources return_chain ≠ []) as Hs by (vm_compute; discriminate).
  assert (passives return_chain ≠ []) as Hp by (vm_compute; discriminate).
  split; [done|]. split; [done|].
  exact (proj1 (proj2 (detect_topology_rule return_chain) Hs Hp)).
Defined.

(** C4, as first stated, fails on a source with one resistor across it: the
    single passive trivially shares its pair of nodes with every passive and
    the degree count does not make the netlist a chain, yet the tag is
    GENERIC. *)
Lemma single_load_is_generic :
  sources single_load ≠ [] ∧ passives single_load ≠ []
  ∧ Z.of_nat (size (degree2_nodes (components single_load)))
    ≠ Z.of_nat (length (passives single_load)) - 1
  ∧ (∀ p q, p ∈ passives single_load → q ∈ passives single_load → same_pair p q)
  ∧ stated_topology single_load = PARALLEL
  ∧ detect_topology single_load = GENERIC.
Proof.
  split_and!; try (vm_compute; done).
  intros p q Hp Hq.
  assert (passives single_load = [mkComponent "R1" "R" "VIN" "GND" "1k"]) as E
    by (vm_compute; done).
  rewrite E in Hp, Hq. apply list_elem_of_singleton in Hp, Hq. subst. by left.
Qed.

(** ** Order independence *)

Lemma terminals_perm cs cs' : cs ≡ₚ cs' → terminals cs ≡ₚ terminals cs'.
Proof. intros H. unfold terminals. by rewrite H. Qed.

Lemma degree2_nodes_perm cs cs' : cs ≡ₚ cs' → degree2_nodes cs = degree2_nodes cs'.
Proof.
  intros H. apply terminals_perm in H as Ht.
  apply set_eq. intros n. unfold degree2_nodes, degree.
  rewrite !elem_of_filter, !elem_of_list_to_set. by rewrite Ht.
Qed.

Lemma all_share_perm ps ps' : ps ≡ₚ ps' → all_share ps = all_share ps'.
Proof.
  intros H.
  destruct (all_share ps) eqn:E1, (all_share ps') eqn:E2; try done.
  - pose proof (proj1 (all_share_spec _) E1) as A.
    assert (all_share ps' = true) as E; [|congruence].
    apply all_share_spec. intros p q Hp Hq. apply A; by rewrite H.
  - pose proof (proj1 (all_share_spec _) E2) as A.
    assert (all_share ps = true) as E; [|congruence].
    apply all_share_spec. intros p q Hp Hq. apply A; by rewrite <- H.
Qed.

Lemma detect_topology_components c c' :
  components c ≡ₚ components c' → detect_topology c = detect_topology c'.
Proof.
  intros H.
  assert (sources c ≡ₚ sources c') as Hs by (unfold sources; by rewrite H).
  assert (passives c ≡ₚ passives c') as Hp by (unfold passives; by rewrite H).
  rewrite !detect_topology_unfold.
  rewrite (degree2_nodes_perm _ _ H), (all_share_perm _ _ Hp).
  rewrite (Permutation_length Hp).
  assert (bool_decide (sources c = [] ∨ passives c = [])
          = bool_decide (sources c' = [] ∨ passives c' = [])) as ->; [|done].
  apply bool_decide_ext.
  split; (intros [E|E]; [left|right]).
  - rewrite E in Hs. by apply Permutation_nil_l in Hs.
  - rewrite E in Hp. by apply Permutation_nil_l in Hp.
  - rewrite E in Hs. by apply Permutation_nil_r in Hs.
  - rewrite E in Hp. by apply Permutation_nil_r in Hp.
Qed.

(** C8: permuting the declaration order of the components and of the nets
    does not change the tag. *)
Theorem detect_topology_order_independent (c c' : Circuit) :
  components c ≡ₚ components c' →
  nets c ≡ₚ nets c' →
  detect_topology c = detect_topology c'.
Proof. intros H _. by apply detect_topology_components. Qed.

Lemma detect_topology_order_independent_witness :
  detect_topology rc_filter
  = detect_topology (mkCircuit (reverse (components rc_filter)) (reverse (nets rc_filter))).
Proof.
  apply detect_topology_order_independent; simpl.
  - apply Permutation_sym, reverse_Permutation.
  - apply Permutation_sym, reverse_Permutation.
Defined.

(** ** Series placement *)

Section Series.

Variable self : Spacing.
Variable set_order : list Component → list Component.
Hypothesis set_order_perm : ∀ l, set_order l ≡ₚ l.

Lemma find_connected_unique cur remaining p ps nxt :
  remaining ≡ₚ p :: ps →
  connected cur p = Some nxt →
  Forall (λ q, connected cur q = None) ps →
  ∃ i, find_connected cur remaining = Some (i, p, nxt) ∧ delete i remaining ≡ₚ ps.
Proof using Type.
  revert ps. induction remaining as [|k rest IH]; intros ps Hperm Hp Hps.
  { by apply Permutation_nil_cons in Hperm. }
  simpl. destruct (connected cur k) as [n'|] eqn:Hk.
  - assert (k = p) as ->.
    { assert (k ∈ p :: ps) as [->|Hin]%elem_of_cons by (rewrite <- Hperm; left); [done|].
      rewrite Forall_forall in Hps. specialize (Hps _ Hin). congruence. }
    exists 0%nat. split; [congruence|]. simpl. by apply Permutation_cons_inv in Hperm.
  - assert (k ∈ ps) as Hin.
    { assert (k ∈ p :: ps) as [->|Hin]%elem_of_cons by (rewrite <- Hperm; left);
        [congruence|done]. }
    apply elem_of_Permutation in Hin as [ps' Hps'].
    assert (rest ≡ₚ p :: ps') as Hrest.
    { apply (Permutation_cons_inv (a := k)). rewrite Hperm, Hps'. apply Permutation_swap. }
    destruct (IH ps' Hrest Hp) as [i [Hi Hd]].
    { rewrite Hps' in Hps. by apply Forall_cons in Hps as [_ ?]. }
    exists (S i). rewrite Hi. split; [done|]. simpl. by rewrite Hd, Hps'.
Qed.

Lemma chain_loop_walk chain : ∀ fuel remaining cur acc,
  remaining ≡ₚ chain →
  series_walk cur chain →
  (length remaining < fuel)%nat →
  chain_loop fuel remaining cur acc = acc ++ chain.
Proof using Type.
  induction chain as [|p ps IH]; intros fuel remaining cur acc Hperm Hwalk Hfuel.
  - apply Permutation_nil_r in Hperm. subst remaining.
    destruct fuel; [simpl in Hfuel; lia|]. simpl. by rewrite app_nil_r.
  - destruct Hwalk as [nxt [Hp [Hps Hwalk]]].
    destruct (find_connected_unique cur remaining p ps nxt Hperm Hp Hps) as [i [Hi Hd]].
    destruct fuel; [lia|].
    destruct remaining as [|k rest]; [by apply Permutation_nil_cons in Hperm|].
    cbn [chain_loop]. rewrite Hi.
    rewrite (IH fuel (delete i (k :: rest)) nxt (acc ++ [p]) Hd Hwalk).
    + by rewrite <- app_assoc.
    + apply Permutation_length in Hd, Hperm. simpl in *. lia.
Qed.

Lemma build_series_chain_walk source ps chain :
  ps ≡ₚ chain →
  series_walk (node2 source) chain →
  build_series_chain set_order source ps = chain.
Proof using set_order_perm.
  intros Hperm Hwalk. unfold build_series_chain.
  rewrite (chain_loop_walk chain); [done| |done|lia].
  by rewrite set_order_perm.
Qed.

Lemma foldl_place_h (y : Z) chain : ∀ pl x,
  foldl (λ '(pl, x) comp,
           (pl ++ [mkPlaced (reference comp) (comp_type comp) x y 0 []],
            x + COMPONENT_SPACING_H self))
        (pl, x) chain
  = (pl ++ imap (λ k comp, mkPlaced (reference comp) (comp_type comp)
                             (x + Z.of_nat k * COMPONENT_SPACING_H self) y 0 [])
               chain,
     x + Z.of_nat (length chain) * COMPONENT_SPACING_H self).
Proof using Type.
  induction chain as [|k chain IH]; intros pl x; simpl.
  - rewrite app_nil_r. f_equal. lia.
  - rewrite IH. rewrite <- app_assoc. simpl. f_equal.
    + do 2 f_equal.
      * f_equal. lia.
      * apply imap_ext. intros i comp _. simpl. f_equal. lia.
    + lia.
Qed.

Lemma place_series_chain c source more chain placed :
  sources c = source :: more →
  passives c ≡ₚ chain →
  chain ≠ [] →
  series_walk (node2 source) chain →
  place_series self set_order c placed
  = placed
    ++ mkPlaced (reference source) (comp_type source) 0 (RAIL_HEIGHT self) 0 []
    :: imap (λ k comp, mkPlaced (reference comp) (comp_type comp)
                         ((Z.of_nat k + 1) * COMPONENT_SPACING_H self)
                         (RAIL_HEIGHT self) 0 [])
            chain
    ++ match grounds c with
       | ground :: _ =>
           [mkPlaced (reference ground) (comp_type ground)
                     (Z.of_nat (length chain) * COMPONENT_SPACING_H self)
                     (RAIL_HEIGHT self + COMPONENT_SPACING_V self) 0 []]
       | [] => []
       end.
Proof using set_order_perm.
  intros Hs Hperm Hne Hwalk. unfold place_series. rewrite Hs.
  destruct (passives c) as [|p ps] eqn:Hp.
  { apply Permutation_nil_l in Hperm. done. }
  rewrite (build_series_chain_walk source (p :: ps) chain Hperm Hwalk).
  rewrite foldl_place_h.
  rewrite <- !app_assoc. simpl.
  assert (imap (λ k comp, mkPlaced (reference comp) (comp_type comp)
                  (0 + COMPONENT_SPACING_H self + Z.of_nat k * COMPONENT_SPACING_H self)
                  (RAIL_HEIGHT self) 0 []) chain
          = imap (λ k comp, mkPlaced (reference comp) (comp_type comp)
                  ((Z.of_nat k + 1) * COMPONENT_SPACING_H self)
                  (RAIL_HEIGHT self) 0 []) chain) as ->.
  { apply imap_ext. intros i comp _. simpl. f_equal. lia. }
  replace (0 + COMPONENT_SPACING_H self
           + Z.of_nat (length chain) * COMPONENT_SPACING_H self
           - COMPONENT_SPACING_H self)
    with (Z.of_nat (length chain) * COMPONENT_SPACING_H self) by lia.
  destruct (grounds c) as [|g gs].
  - by rewrite app_nil_r.
  - by rewrite <- app_assoc.
Qed.

End Series.

(** The layout of the series strategy once the chain is built, that is for
    component objects that can be put in a set: in a netlist tagged SERIES
    whose passives form a chain from the output node of the first source,
    the source is anchored at x = 0, the k-th member of the chain at
    x = k * spacingH, and the ground, when there is one, below the last
    member of the chain at its x. *)
Lemma series_anchors (self : Spacing) (set_order : list Component → list Component)
    (c : Circuit) (source : Component) (more chain : list Component) :
  (∀ l, set_order l ≡ₚ l) →
  detect_topology c = SERIES →
  sources c = source :: more →
  passives c ≡ₚ chain →
  series_walk (node2 source) chain →
  place_by_topology self set_order c []
  = mkPlaced (reference source) (comp_type source) 0 (RAIL_HEIGHT self) 0 []
    :: imap (λ k comp, mkPlaced (reference comp) (comp_type comp)
                         ((Z.of_nat k + 1) * COMPONENT_SPACING_H self)
                         (RAIL_HEIGHT self) 0 [])
            chain
    ++ match grounds c with
       | ground :: _ =>
           [mkPlaced (reference ground) (comp_type ground)
                     (Z.of_nat (length chain) * COMPONENT_SPACING_H self)
                     (RAIL_HEIGHT self + COMPONENT_SPACING_V self) 0 []]
       | [] => []
       end
  ∧ p_x <$> place_series textbook_spacing set_order rc_filter [] = [0; 250; 500]
  ∧ p_x <$> place_circuit textbook_spacing set_order ∅ rc_filter = [0; 250; 500].
Proof.
  intros Hord Htag Hs Hperm Hwalk. split; [|split].
  - unfold place_by_topology. rewrite Htag.
    assert (chain ≠ []) as Hne.
    { intros ->. apply Permutation_nil_r in Hperm.
      rewrite detect_topology_unfold in Htag.
      rewrite bool_decide_eq_true_2 in Htag by auto. done. }
    by rewrite (place_series_chain self set_order Hord c source more chain [] Hs Hperm Hne Hwalk).
  - rewrite (place_series_chain textbook_spacing set_order Hord rc_filter
               (mkComponent "V1" "VDC" "VIN" "GND" "5V") []
               [mkComponent "C1" "C" "VOUT" "GND" "100nF";
                mkComponent "R1" "R" "VIN" "VOUT" "10k"] []).
    + done.
    + done.
    + apply Permutation_swap.
    + done.
    + simpl. exists "VOUT". split; [done|]. split; [by repeat constructor|].
      exists "VIN". split; [done|]. split; done.
  - done.
Qed.

Lemma series_anchors_witness :
  p_x <$> place_by_topology textbook_spacing (λ l, l) return_chain [] = [0; 250; 500; 500].
Proof.
  pose proof (series_anchors textbook_spacing (λ l, l) return_chain
                (mkComponent "V1" "VDC" "VIN" "GND" "5V") []
                [mkComponent "R1" "R" "N1" "GND" "1k"; mkComponent "R2" "R" "N1" "N2" "1k"])
    as H.
  destruct H as [H _].
  - done.
  - vm_compute. done.
  - vm_compute. done.
  - apply Permutation_swap.
  - simpl. exists "N1". split; [done|]. split; [by repeat constructor|].
    exists "N2". split; [done|]. split; done.
  - rewrite H. done.
Defined.

(** ** Generic grid *)

Lemma grid_turn_closed_form (self : Spacing) cs placed :
  0 < COMPONENT_SPACING_H self →
  foldl (grid_turn self) (placed, 0, 0) cs
  = (placed ++ imap (λ i comp,
                       mkPlaced (reference comp) (comp_type comp)
                                ((Z.of_nat i `mod` 5) * COMPONENT_SPACING_H self)
                                ((Z.of_nat i `div` 5) * COMPONENT_SPACING_V self) 0 [])
                    cs,
     (Z.of_nat (length cs) `mod` 5) * COMPONENT_SPACING_H self,
     (Z.of_nat (length cs) `div` 5) * COMPONENT_SPACING_V self).
Proof.
  intros HH. induction cs as [|k cs IH] using rev_ind.
  - simpl. by rewrite app_nil_r.
  - rewrite foldl_app, IH. simpl. rewrite imap_app, length_app. simpl.
    rewrite Nat.add_0_r, app_assoc.
    set (n := Z.of_nat (length cs)).
    replace (Z.of_nat (length cs + 1)) with (n + 1) by lia.
    assert (0 ≤ n) as Hn by lia. clearbody n.
    case_bool_decide as Hx.
    + assert (n `mod` 5 = 4) as H4 by (Z.div_mod_to_equations; nia).
      assert ((n + 1) `mod` 5 = 0 ∧ (n + 1) `div` 5 = n `div` 5 + 1) as [-> ->]
        by (Z.div_mod_to_equations; lia).
      do 2 f_equal. lia.
    + assert (n `mod` 5 ≠ 4) as H4 by (Z.div_mod_to_equations; nia).
      assert ((n + 1) `mod` 5 = n `mod` 5 + 1 ∧ (n + 1) `div` 5 = n `div` 5) as [-> ->]
        by (Z.div_mod_to_equations; lia).
      do 2 f_equal. lia.
Qed.

Lemma ceil_sqrt_3_2_spec n :
  0 < n →
  3 * n ≤ 2 * (BlockedPlacer.ceil_sqrt_3_2 n) ^ 2
  ∧ 2 * (BlockedPlacer.ceil_sqrt_3_2 n - 1) ^ 2 < 3 * n.
Proof.
  intros Hn. unfold BlockedPlacer.ceil_sqrt_3_2.
  set (a := (3 * n + 1) `div` 2).
  assert (0 < a ∧ 3 * n ≤ 2 * a ∧ 2 * a ≤ 3 * n + 1) as [Ha [Hl Hu]]
    by (subst a; Z.div_mod_to_equations; lia).
  pose proof (Z.sqrt_up_spec a Ha) as [H1 H2].
  replace (Z.pred (Z.sqrt_up a)) with (Z.sqrt_up a - 1) in H1 by lia.
  rewrite <- !Z.pow_2_r in *. lia.
Qed.

(** C6 (amended): a netlist tagged GENERIC is laid out row-major with five
    components per row, whatever their number: the i-th component is
    anchored at column i mod 5 and row i div 5.  The rule "least c with
    c * c >= 1.5 n" for the components per row is that of the older grid
    placer, for more than six components. *)
Theorem generic_grid_five_per_row (self : Spacing)
    (set_order : list Component → list Component) (c : Circuit)
    (library : gmap string (list (Z * Z)))
    (comps : list BlockedPlacer.NetlistComponent) :
  0 < COMPONENT_SPACING_H self →
  detect_topology c = GENERIC →
  place_by_topology self set_order c []
  = imap (λ i comp,
            mkPlaced (reference comp) (comp_type comp)
                     ((Z.of_nat i `mod` 5) * COMPONENT_SPACING_H self)
                     ((Z.of_nat i `div` 5) * COMPONENT_SPACING_V self) 0 [])
         (components c)
  ∧ ((6 < length comps)%nat →
     ∃ cols, 3 * Z.of_nat (length comps) ≤ 2 * cols ^ 2
             ∧ 2 * (cols - 1) ^ 2 < 3 * Z.of_nat (length comps)
             ∧ ∀ i comp, comps !! i = Some comp →
                 (λ p, (BlockedPlacer.p_x p, BlockedPlacer.p_y p))
                   <$> BlockedPlacer.place_components_blocked library comps !! i
                 = Some (row_major cols BlockedPlacer.COMPONENT_SPACING_X
                                   BlockedPlacer.COMPONENT_SPACING_Y i)).
Proof.
  intros HH Htag. split.
  - unfold place_by_topology, place_generic_grid. rewrite Htag.
    by rewrite grid_turn_closed_form.
  - intros Hn. exists (BlockedPlacer.ceil_sqrt_3_2 (Z.of_nat (length comps))).
    destruct (ceil_sqrt_3_2_spec (Z.of_nat (length comps))) as [H1 H2]; [lia|].
    split; [done|]. split; [done|].
    intros i comp Hi. unfold BlockedPlacer.place_components_blocked.
    rewrite list_lookup_imap, Hi. simpl.
    unfold BlockedPlacer.grid_cols.
    rewrite !bool_decide_eq_false_2 by lia. done.
Qed.

Lemma generic_grid_five_per_row_witness :
  anchor <$> place_by_topology textbook_spacing (λ l, l) six_resistors []
  = [(0, 0); (250, 0); (500, 0); (750, 0); (1000, 0); (0, 200)].
Proof.
  destruct (generic_grid_five_per_row textbook_spacing (λ l, l) six_resistors ∅ [])
    as [H _].
  - done.
  - vm_compute. done.
  - rewrite H. done.
Defined.

(** C6, as first stated, fails on six resistors: ceil(sqrt(1.5 * 6)) = 3, so
    the fourth component would open the second row, but it is anchored at
    the fourth column of the first row. *)
Lemma six_resistors_not_three_per_row :
  detect_topology six_resistors = GENERIC
  ∧ BlockedPlacer.ceil_sqrt_3_2 6 = 3
  ∧ row_major 3 250 200 3 = (0, 200)
  ∧ anchor <$> place_by_topology textbook_spacing (λ l, l) six_resistors [] !! 3%nat
    = Some (750, 0).
Proof. by vm_compute. Qed.

(** ** Pin resolution *)

(** C7: the resolved pin is the anchor plus the rotated offset, with
    rotate90 (dx, dy) = (-dy, dx), rotate180 (dx, dy) = (-dx, -dy),
    rotate270 (dx, dy) = (dy, -dx) and rotate0 the identity, in exact integer
    arithmetic; four quarter turns give the offset back.  The same holds for
    the pin computation of the older grid placer. *)
Theorem pin_resolution (library : gmap string (list (Z * Z)))
    (placed : list PlacedComponent) (i j : nat) (p : PlacedComponent)
    (pins : list (Z * Z)) (dx dy : Z) :
  placed !! i = Some p →
  library !! p_comp_type p = Some pins →
  pins !! j = Some (dx, dy) →
  p_rotation p ∈ [0; 90; 180; 270] →
  ∃ p', calculate_all_pin_positions library placed !! i = Some p'
        ∧ anchor p' = anchor p ∧ p_rotation p' = p_rotation p
        ∧ pin_positions p' !! j
          = Some (if decide (p_rotation p = 90) then (p_x p - dy, p_y p + dx)
                  else if decide (p_rotation p = 180) then (p_x p - dx, p_y p - dy)
                  else if decide (p_rotation p = 270) then (p_x p + dy, p_y p - dx)
                  else (p_x p + dx, p_y p + dy))
        ∧ BlockedPlacer.calculate_pin_positions pins (p_x p) (p_y p) (p_rotation p) !! j
          = pin_positions p' !! j
        ∧ rotate_offset 90 (rotate_offset 90 (rotate_offset 90 (rotate_offset 90 (dx, dy))))
          = (dx, dy).
Proof.
  intros Hi Hlib Hj Hrot.
  exists (calculate_pins library p).
  unfold calculate_all_pin_positions. rewrite list_lookup_fmap, Hi. simpl.
  unfold calculate_pins. rewrite Hlib. simpl.
  split; [done|]. split; [done|]. split; [done|].
  rewrite list_lookup_fmap, Hj. simpl.
  unfold BlockedPlacer.calculate_pin_positions. rewrite list_lookup_fmap, Hj. simpl.
  unfold resolve_pin, rotate_offset.
  split; [|split].
  - repeat case_bool_decide; repeat case_decide; try lia; f_equal; f_equal; lia.
  - repeat case_bool_decide; simpl; f_equal; f_equal; lia.
  - simpl. f_equal; lia.
Qed.

Lemma pin_resolution_witness :
  ∃ p', calculate_all_pin_positions {[ "R" := [(-40, 0); (40, 0)] ]}
          [mkPlaced "R1" "R" 250 150 90 []] !! 0%nat = Some p'
        ∧ pin_positions p' !! 1%nat = Some (250, 190).
Proof.
  destruct (pin_resolution {[ "R" := [(-40, 0); (40, 0)] ]}
              [mkPlaced "R1" "R" 250 150 90 []] 0 1
              (mkPlaced "R1" "R" 250 150 90 []) [(-40, 0); (40, 0)] 40 0)
    as [p' [H1 [_ [_ [H2 _]]]]].
  - done.
  - done.
  - done.
  - apply list_elem_of_In. simpl. tauto.
  - exists p'. split; [done|]. rewrite H2. done.
Defined.

(** ** Rotation of placed components *)

Ltac fresh_app :=
  repeat (apply Forall_app; split); try done; by repeat constructor.

Lemma foldl_h_fresh (h y : Z) chain : ∀ pl x,
  Forall fresh pl →
  Forall fresh
    (foldl (λ '(pl, x) comp,
              (pl ++ [mkPlaced (reference comp) (comp_type comp) x y 0 []], x + h))
           (pl, x) chain).1.
Proof.
  induction chain as [|k chain IH]; intros pl x Hpl; [done|].
  simpl. apply IH. fresh_app.
Qed.

Lemma foldl_v_fresh (v x : Z) chain : ∀ pl y,
  Forall fresh pl →
  Forall fresh
    (foldl (λ '(pl, y) comp,
              (pl ++ [mkPlaced (reference comp) (comp_type comp) x y 0 []], y + v))
           (pl, y) chain).1.
Proof.
  induction chain as [|k chain IH]; intros pl y Hpl; [done|].
  simpl. apply IH. fresh_app.
Qed.

Lemma place_series_fresh self set_order c placed :
  Forall fresh placed → Forall fresh (place_series self set_order c placed).
Proof.
  intros H. unfold place_series.
  destruct (sources c) as [|s ss], (passives c) as [|p ps]; simpl;
    try (destruct (grounds c); fresh_app).
  match goal with
  | |- context [foldl ?f (?pl, ?x) ?chain] =>
      pose proof (foldl_h_fresh (COMPONENT_SPACING_H self) (RAIL_HEIGHT self) chain pl x)
        as Hfold;
      destruct (foldl f (pl, x) chain) as [pl' x']
  end.
  simpl in Hfold.
  assert (Forall fresh pl') as Hpl' by (apply Hfold; fresh_app).
  destruct (grounds c); fresh_app.
Qed.

Lemma place_parallel_fresh self c placed :
  Forall fresh placed → Forall fresh (place_parallel self c placed).
Proof.
  intros H. unfold place_parallel.
  match goal with
  | |- context [foldl ?f (?pl, ?y) ?chain] =>
      pose proof (foldl_v_fresh (COMPONENT_SPACING_V self) (COMPONENT_SPACING_H self * 2)
                    chain pl y) as Hfold;
      destruct (foldl f (pl, y) chain) as [pl' y']
  end.
  simpl in Hfold.
  assert (Forall fresh pl') as Hpl' by (apply Hfold; destruct (sources c); fresh_app).
  destruct (grounds c); fresh_app.
Qed.

Lemma place_generic_grid_fresh self c placed :
  Forall fresh placed → Forall fresh (place_generic_grid self c placed).
Proof.
  intros H. unfold place_generic_grid.
  assert (∀ cs st, Forall fresh st.1.1 →
            Forall fresh (foldl (grid_turn self) st cs).1.1) as Hfold.
  { induction cs as [|k cs IH]; intros [[pl x] y] Hpl; [done|].
    simpl. apply IH. case_bool_decide; simpl; fresh_app. }
  by apply Hfold.
Qed.

(** C10: every component placed by the series, the parallel and the grid
    strategy has rotation 0, for every circuit; after [place_circuit] each
    pin is the anchor plus the unrotated offset of the type definition. *)
Theorem placed_rotation_zero (self : Spacing)
    (set_order : list Component → list Component)
    (library : gmap string (list (Z * Z))) (c : Circuit) :
  Forall (λ p, p_rotation p = 0) (place_series self set_order c [])
  ∧ Forall (λ p, p_rotation p = 0) (place_parallel self c [])
  ∧ Forall (λ p, p_rotation p = 0) (place_generic_grid self c [])
  ∧ Forall (λ p, p_rotation p = 0
                 ∧ pin_positions p
                   = (λ d, (p_x p + d.1, p_y p + d.2))
                       <$> default [] (library !! p_comp_type p))
           (place_circuit self set_order library c).
Proof.
  pose proof (place_series_fresh self set_order c [] (Forall_nil_2 _)) as Hs.
  pose proof (place_parallel_fresh self c [] (Forall_nil_2 _)) as Hp.
  pose proof (place_generic_grid_fresh self c [] (Forall_nil_2 _)) as Hg.
  split; [by eapply Forall_impl; [exact Hs|intros ? []]|].
  split; [by eapply Forall_impl; [exact Hp|intros ? []]|].
  split; [by eapply Forall_impl; [exact Hg|intros ? []]|].
  unfold place_circuit, calculate_all_pin_positions.
  assert (Forall fresh (place_by_topology self set_order c [])) as H.
  { unfold place_by_topology. by destruct (detect_topology c). }
  apply Forall_fmap. eapply Forall_impl; [exact H|].
  intros p [Hr Hpin]. simpl. unfold calculate_pins.
  destruct (library !! p_comp_type p) as [pins|] eqn:E; simpl; rewrite ?E; simpl.
  - split; [done|]. apply list_fmap_ext. intros k [dx dy] _.
    unfold resolve_pin, rotate_offset. simpl. rewrite Hr.
    rewrite !bool_decide_eq_false_2 by lia. done.
  - split; [done|]. by rewrite Hpin.
Qed.

End PlacerFacts.

(** * The router *)

Module RouterFacts.
Import Router RouterSpec.

(** ** Path simplification *)

Lemma simplify_loop_acc rest : ∀ acc prev,
  simplify_loop acc prev rest = acc ++ simplify_loop [] prev rest.
Proof.
  induction rest as [|c rest IH]; intros acc prev; simpl.
  - by rewrite app_nil_r.
  - destruct rest as [|n tl]; [done|].
    destruct (is_collinear prev c n).
    + apply IH.
    + rewrite IH, (IH [c]). by rewrite <- app_assoc.
Qed.

(** The kept points after [prev]. *)
Local Abbreviation kept prev rest := (simplify_loop [] prev rest).

Lemma kept_cons2 prev c n tl :
  kept prev (c :: n :: tl)
  = if is_collinear prev c n then kept prev (n :: tl) else c :: kept c (n :: tl).
Proof.
  change (simplify_loop [] prev (c :: n :: tl))
    with (if is_collinear prev c n then simplify_loop [] prev (n :: tl)
          else simplify_loop ([] ++ [c]) c (n :: tl)).
  destruct (is_collinear prev c n); [done|].
  by rewrite simplify_loop_acc.
Qed.

Lemma simplify_path_cons p0 rest : simplify_path (p0 :: rest) = p0 :: kept p0 rest.
Proof.
  destruct rest as [|c [|n tl]]; try done.
  unfold simplify_path. by rewrite simplify_loop_acc.
Qed.

Lemma is_collinear_true p1 p2 p3 :
  is_collinear p1 p2 p3 = true
  ↔ (p1.1 = p2.1 ∧ p2.1 = p3.1) ∨ (p1.2 = p2.2 ∧ p2.2 = p3.2).
Proof.
  unfold is_collinear.
  rewrite orb_true_iff, !andb_true_iff, !bool_decide_eq_true. done.
Qed.

(** The first kept point lies on the line through [c] and the first point
    of the run. *)
Lemma kept_head tl : ∀ c n x rest',
  c ∉ n :: tl →
  kept c (n :: tl) = x :: rest' →
  x = n ∨ (c.1 = n.1 ∧ c.1 = x.1) ∨ (c.2 = n.2 ∧ c.2 = x.2).
Proof.
  induction tl as [|n2 tl IH]; intros c n x rest' Hc Hk.
  - simpl in Hk. left. congruence.
  - rewrite kept_cons2 in Hk. destruct (is_collinear c n n2) eqn:Hcol.
    + apply is_collinear_true in Hcol.
      assert (c ≠ n2) as Hn2 by (intros ->; apply Hc; right; left).
      destruct (IH c n2 x rest') as [->|H]; [|done| |].
      * intros Hin. apply Hc. by right.
      * right. destruct Hcol as [[? ?]|[? ?]]; [left|right]; split; congruence.
      * right. destruct c as [c1 c2], n2 as [m1 m2]. simpl in *.
        destruct Hcol as [[? ?]|[? ?]], H as [[? ?]|[? ?]];
          [left; split; congruence| | |right; split; congruence];
          exfalso; apply Hn2; f_equal; congruence.
    + left. congruence.
Qed.

Lemma kept_nonempty c n tl : kept c (n :: tl) ≠ [].
Proof.
  revert c n. induction tl as [|n2 tl IH]; intros c n; [done|].
  rewrite kept_cons2. destruct (is_collinear c n n2); [apply IH|done].
Qed.

Lemma kept_subseteq rest : ∀ prev x, x ∈ kept prev rest → x ∈ rest.
Proof.
  induction rest as [|c rest IH]; intros prev x Hx; [done|].
  destruct rest as [|n tl]; [done|].
  rewrite kept_cons2 in Hx. destruct (is_collinear prev c n).
  - right. by eapply IH.
  - apply elem_of_cons in Hx as [->|Hx]; [left|right; by eapply IH].
Qed.

Lemma kept_idempotent rest : ∀ prev,
  prev ∉ rest → NoDup rest → kept prev (kept prev rest) = kept prev rest.
Proof.
  induction rest as [|c rest IH]; intros prev Hprev Hnd; [done|].
  destruct rest as [|n tl]; [done|].
  apply NoDup_cons in Hnd as [Hc Hnd].
  rewrite kept_cons2. destruct (is_collinear prev c n) eqn:Hcol.
  - apply IH; [|done]. intros Hin. apply Hprev. by right.
  - destruct (kept c (n :: tl)) as [|x rest'] eqn:Hk; [by apply kept_nonempty in Hk|].
    rewrite kept_cons2.
    assert (is_collinear prev c x = false) as ->.
    { destruct (kept_head tl c n x rest' Hc Hk) as [->|H]; [done|].
      assert (x ∈ n :: tl) as Hx.
      { apply (kept_subseteq _ c). rewrite Hk. left. }
      assert (c ≠ x) as Hne by (intros ->; done).
      destruct (is_collinear prev c x) eqn:Hcx; [|done].
      apply is_collinear_true in Hcx.
      assert (is_collinear prev c n = true); [|congruence].
      apply is_collinear_true.
      destruct c as [c1 c2], x as [x1 x2]. simpl in *.
      destruct Hcx as [[? ?]|[? ?]], H as [[? ?]|[? ?]];
        [left; split; congruence| | |right; split; congruence];
        exfalso; apply Hne; f_equal; congruence. }
    f_equal. rewrite <- Hk. apply IH; done.
Qed.

(** C9 (amended): simplification is idempotent on every path that visits no
    point twice, as the paths found by the search do. *)
Theorem simplify_path_idempotent (pth : list Pos) :
  NoDup pth → simplify_path (simplify_path pth) = simplify_path pth.
Proof.
  destruct pth as [|p0 rest]; [done|]. intros [Hp0 Hnd]%NoDup_cons.
  rewrite !simplify_path_cons. f_equal. by apply kept_idempotent.
Qed.

Lemma simplify_path_idempotent_witness :
  simplify_path (simplify_path [(0, 0); (1, 0); (2, 0); (2, 1); (2, 2); (3, 2)])
  = simplify_path [(0, 0); (1, 0); (2, 0); (2, 1); (2, 2); (3, 2)].
Proof.
  apply simplify_path_idempotent.
  apply (bool_decide_unpack _). by vm_compute.
Defined.

(** C9, as first stated, fails on a path that steps back onto a point: the
    first pass leaves a repeated point, which the second pass removes. *)
Lemma simplify_path_not_idempotent :
  simplify_path [(0, 0); (0, 1); (1, 1); (0, 1)] = [(0, 0); (0, 1); (0, 1)]
  ∧ simplify_path (simplify_path [(0, 0); (0, 1); (1, 1); (0, 1)]) = [(0, 0); (0, 1)]
  ∧ simplify_path (simplify_path [(0, 0); (0, 1); (1, 1); (0, 1)])
    ≠ simplify_path [(0, 0); (0, 1); (1, 1); (0, 1)].
Proof. split_and!; by vm_compute. Qed.

(** ** Multi-pin nets *)

(** C1: the net joining pins at (0,0), (10,0) and (0,10) on an empty grid is
    routed along the two MST edges from the first pin; the merged waypoint
    list runs from (10,0) straight to (0,10), a step that changes both
    coordinates. *)
Theorem corner_net_diagonal :
  build_mst [(0, 0); (10, 0); (0, 10)] = [(0, 1); (0, 2)]%nat
  ∧ route_two_pins empty_router 10 (0, 0) (10, 0) = Some [(0, 0); (10, 0)]
  ∧ route_two_pins empty_router 10 (0, 0) (0, 10) = Some [(0, 0); (0, 10)]
  ∧ merge_paths [(0, 0); (10, 0); (0, 0); (0, 10)] = [(0, 0); (10, 0); (0, 10)]
  ∧ (path ∘ fst <$> route_net empty_router 10 corner_net corner_components)
    = Some [(0, 0); (10, 0); (0, 10)]
  ∧ ¬ manhattan_polyline [(0, 0); (10, 0); (0, 10)].
Proof.
  split_and!; try by vm_compute.
  intros [[_ [[[H _]|[_ H]] _]] _]; simpl in H; lia.
Qed.

(** ** The exits of the search *)

Lemma heappop_None {A} (lt : A → A → bool) heap :
  Heapq.heappop lt heap = None → heap = [].
Proof.
  unfold Heapq.heappop. destruct (last heap) eqn:E.
  - destruct (removelast heap); done.
  - intros _. by apply last_None.
Qed.

(** C3 (amended): the loop of the search leaves only when the open set is
    empty, with the two-segment path start, (goalX, startY), goal on the
    grid, or when the popped node is at the goal, with the chain of its
    parents; no count of expansions ends it, and nothing is recorded beside
    the path. *)
Theorem astar_exits (self : ManhattanRouter) (start goal : Pos) (st : AStarState)
    (result : list Pos) :
  astar_step self start goal st = Returned result →
  ((open_set st = [] ∧ result = l_path start goal)
   ∨ (∃ current open,
        Heapq.heappop node_lt (open_set st) = Some (current, open)
        ∧ position current = goal
        ∧ result = reverse (chain_positions current)))
  ∧ ∀ closed gs fuel,
      astar_loop self start goal (S fuel) (mkAStar [] closed gs)
      = Some (l_path start goal).
Proof.
  intros H. split; [|done].
  unfold astar_step in H.
  destruct (Heapq.heappop node_lt (open_set st)) as [[current open]|] eqn:Hpop.
  - right. exists current, open. split; [done|].
    case_bool_decide as Hg.
    + split; [done|]. congruence.
    + case_bool_decide; [done|].
      destruct (foldl _ _ _); done.
  - left. split; [by eapply heappop_None|]. unfold l_path. congruence.
Qed.

Lemma astar_exits_witness :
  astar_loop empty_router (0, 0) (2, 3) 1 (mkAStar [] ∅ ∅)
  = Some [(0, 0); (2, 0); (2, 3)].
Proof.
  exact (proj2 (astar_exits empty_router (0, 0) (2, 3) (mkAStar [] ∅ ∅)
                  (l_path (0, 0) (2, 3)) eq_refl) ∅ ∅ 0%nat).
Defined.

(** C3, as first stated, fails on a pin whose cell is blocked: start (0,0),
    goal (1,0), the goal being the only blocked cell.  The smallest rectangle
    over the pins and the blocked cell has 2 cells; after 300 turns of the
    loop the search has expanded more than ten times as many cells and has
    not returned. *)
Lemma blocked_pin_search_not_capped :
  bounding_cells [(0, 0); (1, 0); (1, 0)] = 2
  ∧ expanded_after one_block_router (0, 0) (1, 0) 300 = Some 230%nat
  ∧ 10 * bounding_cells [(0, 0); (1, 0); (1, 0)] < 230.
Proof. split_and!; by vm_compute. Qed.
End RouterFacts.

(** * The binary heap *)

Module HeapqFacts.
Import HeapqSpec.

Lemma parent_lt i : i ≠ 0%nat → (parent i < i)%nat.
Proof.
  intros Hi. unfold parent. rewrite Nat.div2_div.
  apply Nat.Div0.div_lt_upper_bound. lia.
Qed.

Lemma parent_children p c :
  c ≠ 0%nat → parent c = p ↔ c = (2 * p + 1)%nat ∨ c = (2 * p + 2)%nat.
Proof.
  intros Hc. unfold parent. rewrite Nat.div2_div.
  pose proof (Nat.div_mod_eq (c - 1) 2) as E.
  pose proof (Nat.mod_upper_bound (c - 1) 2) as B.
  split; [intros <-|intros [->| ->]].
  - lia.
  - replace (2 * p + 1 - 1)%nat with (p * 2)%nat by lia. by rewrite Nat.div_mul.
  - replace (2 * p + 2 - 1)%nat with (1 + p * 2)%nat by lia.
    by rewrite Nat.div_add.
Qed.

Section Keyed.

Context {A : Type} (key : A → Z).

Local Abbreviation lt := (key_lt key).

Lemma key_lt_true a b : lt a b = true ↔ key a < key b.
Proof. unfold key_lt. apply bool_decide_eq_true. Qed.

Lemma key_lt_false a b : lt a b = false ↔ key b ≤ key a.
Proof. unfold key_lt. rewrite bool_decide_eq_false. lia. Qed.

(** ** [_siftdown] *)

Lemma siftdown_loop_spec fuel : ∀ heap pos newitem,
  (pos < fuel)%nat → (pos < length heap)%nat →
  (∀ i, i ≠ pos → heap_at key (<[pos := newitem]> heap) i) →
  spans key (<[pos := newitem]> heap) pos →
  is_heap key (Heapq.siftdown_loop lt fuel heap 0 pos newitem)
  ∧ Heapq.siftdown_loop lt fuel heap 0 pos newitem ≡ₚ <[pos := newitem]> heap.
Proof.
  induction fuel as [|fuel IH]; intros heap pos newitem Hfuel Hlen Hothers Hspan; [lia|].
  cbn [Heapq.siftdown_loop].
  set (L := <[pos := newitem]> heap) in *.
  assert (L !! pos = Some newitem) as HLpos by (by apply list_lookup_insert_eq).
  case_bool_decide as Hpos; cycle 1.
  { assert (pos = 0%nat) as -> by lia. split; [|done].
    intros i. destruct (decide (i = 0%nat)) as [->|Hi]; [by intros ?|by apply Hothers]. }
  assert (pos ≠ 0%nat) as Hpos0 by lia.
  pose proof (parent_lt pos Hpos0) as Hpp.
  change (Nat.div2 (pos - 1)) with (parent pos).
  destruct (heap !! parent pos) as [par|] eqn:Hpar; cycle 1.
  { apply lookup_ge_None in Hpar. lia. }
  assert (L !! parent pos = Some par) as HLpar.
  { subst L. rewrite list_lookup_insert_ne by lia. done. }
  destruct (lt newitem par) eqn:Hlt.
  - apply key_lt_true in Hlt.
    set (L' := <[parent pos := newitem]> (<[pos := par]> heap)).
    assert (L' ≡ₚ L) as Hperm.
    { subst L'. replace (<[pos := par]> heap) with (<[pos := par]> L)
        by (subst L; apply list_insert_insert_eq).
      by apply Permutation_insert_swap. }
    assert (∀ i, L' !! i = if decide (i = parent pos) then Some newitem
                           else if decide (i = pos) then Some par else L !! i) as HL'.
    { intros i. subst L' L. repeat case_decide; subst.
      - rewrite list_lookup_insert_eq; [done|]. rewrite length_insert. lia.
      - rewrite list_lookup_insert_ne by done. by rewrite list_lookup_insert_eq.
      - by rewrite !list_lookup_insert_ne. }
    destruct (IH (<[pos := par]> heap) (parent pos) newitem) as [Hheap Hp].
    + lia.
    + rewrite length_insert. lia.
    + fold L'. intros i Hi Hi0 x y Hx Hy.
      rewrite HL' in Hx, Hy. rewrite decide_False in Hx by done.
      destruct (decide (i = pos)) as [->|Hipos].
      * rewrite decide_True in Hy by done. simplify_eq. lia.
      * destruct (decide (parent i = parent pos)) as [Hsib|Hnsib].
        -- simplify_eq. pose proof (Hothers i Hipos Hi0 x par Hx) as H.
           rewrite Hsib in H. specialize (H HLpar). lia.
        -- destruct (decide (parent i = pos)) as [Hch|Hnch].
           ++ simplify_eq. eapply Hspan; try done.
           ++ eapply (Hothers i); try done.
    + fold L'. intros Hpp0 c x y Hc Hcp Hx Hy.
      rewrite HL' in Hx, Hy.
      assert (parent (parent pos) < parent pos)%nat by (by apply parent_lt).
      rewrite decide_False in Hy by lia. rewrite decide_False in Hy by lia.
      assert (c ≠ parent pos) as Hcpp.
      { intros ->. pose proof (parent_lt (parent pos) Hpp0). lia. }
      rewrite decide_False in Hx by done.
      pose proof (Hothers (parent pos) ltac:(lia) Hpp0 par y HLpar Hy) as Hle.
      destruct (decide (c = pos)) as [->|Hcpos].
      * simplify_eq. done.
      * pose proof (Hothers c Hcpos Hc x par Hx) as Hc'.
        rewrite Hcp in Hc'. specialize (Hc' HLpar). lia.
    + split; [done|]. by rewrite <- Hperm.
  - apply key_lt_false in Hlt. split; [|done].
    intros i. destruct (decide (i = pos)) as [->|Hi]; [|by apply Hothers].
    intros _ x y Hx Hy. simplify_eq. done.
Qed.

Lemma siftdown_spec heap pos :
  (pos < length heap)%nat →
  (∀ i, i ≠ pos → heap_at key heap i) →
  spans key heap pos →
  is_heap key (Heapq.siftdown lt heap 0 pos) ∧ Heapq.siftdown lt heap 0 pos ≡ₚ heap.
Proof.
  intros Hlen Hothers Hspan. unfold Heapq.siftdown.
  destruct (heap !! pos) as [newitem|] eqn:Hpos; cycle 1.
  { apply lookup_ge_None in Hpos. lia. }
  pose proof (list_insert_id heap pos newitem Hpos) as Hid.
  destruct (siftdown_loop_spec (S pos) heap pos newitem) as [H1 H2].
  - lia.
  - done.
  - by rewrite Hid.
  - by rewrite Hid.
  - rewrite Hid in H2. done.
Qed.

(** ** [heappush] *)

Lemma heappush_spec heap item :
  is_heap key heap →
  is_heap key (Heapq.heappush lt heap item) ∧ Heapq.heappush lt heap item ≡ₚ item :: heap.
Proof.
  intros Hheap. unfold Heapq.heappush.
  destruct (siftdown_spec (heap ++ [item]) (length heap)) as [H1 H2].
  - rewrite length_app. simpl. lia.
  - intros i Hi Hi0 x y Hx Hy.
    destruct (decide (i < length heap)%nat) as [Hlt|Hge].
    + pose proof (parent_lt i Hi0).
      rewrite lookup_app_l in Hx, Hy by lia. by eapply (Hheap i).
    + rewrite lookup_ge_None_2 in Hx; [done|]. rewrite length_app. simpl. lia.
  - intros Hp c x y Hc Hcp Hx _.
    pose proof (parent_lt c Hc).
    rewrite lookup_ge_None_2 in Hx; [done|]. rewrite length_app. simpl. lia.
  - split; [done|]. rewrite H2. by rewrite Permutation_app_comm.
Qed.

(** ** [_siftup] *)

Lemma siftup_loop_spec fuel : ∀ heap pos newitem,
  (pos < length heap)%nat → (length heap ≤ fuel + pos)%nat →
  (∀ i, i ≠ pos → parent i ≠ pos → heap_at key (<[pos := newitem]> heap) i) →
  spans key (<[pos := newitem]> heap) pos →
  ∃ heap' pos',
    Heapq.siftup_loop lt fuel heap (length heap) pos = (heap', pos')
    ∧ (pos' < length heap')%nat
    ∧ <[pos' := newitem]> heap' ≡ₚ <[pos := newitem]> heap
    ∧ (∀ i, i ≠ pos' → heap_at key (<[pos' := newitem]> heap') i)
    ∧ spans key (<[pos' := newitem]> heap') pos'.
Proof.
  induction fuel as [|fuel IH]; intros heap pos newitem Hlen Hfuel Hothers Hspan; [lia|].
  cbn [Heapq.siftup_loop].
  set (L := <[pos := newitem]> heap) in *.
  assert (L !! pos = Some newitem) as HLpos by (by apply list_lookup_insert_eq).
  assert (∀ i, i ≠ pos → L !! i = heap !! i) as HL
    by (intros i Hi; subst L; by rewrite list_lookup_insert_ne).
  case_bool_decide as Hchild; cycle 1.
  { exists heap, pos. split; [done|]. split; [done|]. split; [done|]. split.
    - intros i Hi. destruct (decide (parent i = pos)) as [Hp|Hp]; [|by apply Hothers].
      intros Hi0 x y Hx _. apply parent_children in Hp; [|done].
      rewrite HL in Hx by done. apply lookup_lt_Some in Hx. lia.
    - intros _ c x y Hc Hp Hx _. apply parent_children in Hp; [|done].
      rewrite HL in Hx by lia. apply lookup_lt_Some in Hx. lia. }
  destruct (heap !! (2 * pos + 1)%nat) as [l|] eqn:Hl; cycle 1.
  { apply lookup_ge_None in Hl. lia. }
  (* the child that moves up *)
  assert (∃ c child,
            (match heap !! (2 * pos + 1 + 1)%nat with
             | Some r => if bool_decide (2 * pos + 1 + 1 < length heap)%nat && negb (lt l r)
                         then (2 * pos + 1 + 1)%nat else (2 * pos + 1)%nat
             | None => (2 * pos + 1)%nat
             end) = c
            ∧ heap !! c = Some child ∧ parent c = pos ∧ c ≠ 0%nat ∧ c ≠ pos
            ∧ ∀ c' x, c' ≠ 0%nat → parent c' = pos → heap !! c' = Some x → key child ≤ key x)
    as (c & child & Hc & Hchildc & Hcp & Hc0 & Hcpos & Hmin).
  { destruct (heap !! (2 * pos + 1 + 1)%nat) as [r|] eqn:Hr.
    - pose proof (lookup_lt_Some _ _ _ Hr) as Hrlen.
      rewrite bool_decide_eq_true_2 by done. simpl.
      destruct (lt l r) eqn:Hlr; simpl.
      + apply key_lt_true in Hlr. exists (2 * pos + 1)%nat, l. split; [done|]. split; [done|].
        split; [apply parent_children; lia|]. split; [lia|]. split; [lia|].
        intros c' x Hc' Hp Hx. apply parent_children in Hp; [|done].
        destruct Hp as [->| ->].
        * simplify_eq. lia.
        * replace (2 * pos + 2)%nat with (2 * pos + 1 + 1)%nat in Hx by lia. simplify_eq. lia.
      + apply key_lt_false in Hlr. exists (2 * pos + 1 + 1)%nat, r. split; [done|]. split; [done|].
        split; [apply parent_children; lia|]. split; [lia|]. split; [lia|].
        intros c' x Hc' Hp Hx. apply parent_children in Hp; [|done].
        destruct Hp as [->| ->].
        * simplify_eq. lia.
        * replace (2 * pos + 2)%nat with (2 * pos + 1 + 1)%nat in Hx by lia. simplify_eq. lia.
    - exists (2 * pos + 1)%nat, l. split; [done|]. split; [done|].
      split; [apply parent_children; lia|]. split; [lia|]. split; [lia|].
      intros c' x Hc' Hp Hx. apply parent_children in Hp; [|done].
      destruct Hp as [->| ->].
      + simplify_eq. lia.
      + replace (2 * pos + 2)%nat with (2 * pos + 1 + 1)%nat in Hx by lia. simplify_eq. }
  rewrite Hc, Hchildc.
  pose proof (lookup_lt_Some _ _ _ Hchildc) as Hclen.
  assert (pos < c)%nat as Hposc.
  { apply parent_children in Hcp; [lia|done]. }
  set (L' := <[c := newitem]> (<[pos := child]> heap)).
  assert (L' ≡ₚ L) as Hperm.
  { subst L'. replace (<[pos := child]> heap) with (<[pos := child]> L)
      by (subst L; apply list_insert_insert_eq).
    apply Permutation_insert_swap; [done|]. by rewrite HL. }
  assert (∀ i, L' !! i = if decide (i = c) then Some newitem
                         else if decide (i = pos) then Some child else L !! i) as HL'.
  { intros i. subst L'. destruct (decide (i = c)) as [->|Hic].
    - rewrite list_lookup_insert_eq; [done|]. rewrite length_insert. lia.
    - rewrite list_lookup_insert_ne by done. destruct (decide (i = pos)) as [->|Hip].
      + by rewrite list_lookup_insert_eq.
      + rewrite list_lookup_insert_ne by done. by rewrite HL. }
  destruct (IH (<[pos := child]> heap) c newitem) as (heap' & pos' & E & H1 & H2 & H3 & H4).
  - rewrite length_insert. done.
  - rewrite length_insert. lia.
  - fold L'. intros i Hic Hpc Hi0 x y Hx Hy.
    rewrite HL' in Hx, Hy. rewrite decide_False in Hx by done.
    rewrite (decide_False (P := parent i = c)) in Hy by done.
    destruct (decide (i = pos)) as [Hip|Hipos].
    + subst i. rewrite decide_False in Hy by (pose proof (parent_lt pos Hi0); lia).
      injection Hx as <-. eapply (Hspan Hi0 c); try done. by rewrite HL.
    + destruct (decide (parent i = pos)) as [Hsib|Hnsib].
      * simpl in Hy. injection Hy as <-.
        rewrite HL in Hx by done. by eapply Hmin.
      * simpl in Hy. by eapply (Hothers i).
  - fold L'. intros _ c' x y Hc' Hp Hx Hy.
    rewrite HL' in Hx, Hy. rewrite Hcp in Hy.
    rewrite decide_False in Hy by lia. rewrite decide_True in Hy by done.
    pose proof (parent_lt c' Hc').
    rewrite decide_False in Hx by lia. rewrite decide_False in Hx by lia.
    injection Hy as <-.
    eapply (Hothers c'); try done; try lia. rewrite Hp. by rewrite HL.
  - exists heap', pos'. rewrite length_insert in E.
    split; [done|]. split; [done|]. split; [by rewrite H2|]. done.
Qed.

Lemma siftup_spec heap :
  heap ≠ [] →
  (∀ i, parent i ≠ 0%nat → heap_at key heap i) →
  is_heap key (Heapq.siftup lt heap 0) ∧ Heapq.siftup lt heap 0 ≡ₚ heap.
Proof.
  intros Hne Hothers. unfold Heapq.siftup.
  destruct heap as [|newitem rest] eqn:Eh; [done|]. rewrite <- Eh in *.
  assert (heap !! 0%nat = Some newitem) as H0 by (by rewrite Eh).
  rewrite H0.
  pose proof (list_insert_id heap 0 newitem H0) as Hid.
  destruct (siftup_loop_spec (length heap) heap 0 newitem)
    as (heap' & pos' & E & H1 & H2 & H3 & H4).
  - rewrite Eh. simpl. lia.
  - lia.
  - rewrite Hid. intros i Hi Hp. by apply Hothers.
  - intros ?. done.
  - rewrite E. rewrite Hid in H2.
    destruct (siftdown_spec (<[pos' := newitem]> heap') pos') as [H5 H6]; try done.
    + by rewrite length_insert.
    + split; [done|]. by rewrite H6.
Qed.

(** ** [heappop] *)

Lemma heap_root_min heap m :
  is_heap key heap → heap !! 0%nat = Some m → ∀ y, y ∈ heap → key m ≤ key y.
Proof.
  intros Hheap Hm y [i Hi]%list_elem_of_lookup. revert y Hi.
  induction (lt_wf i) as [i _ IH]. intros y Hi.
  destruct (decide (i = 0%nat)) as [->|Hi0]; [simplify_eq; lia|].
  pose proof (parent_lt i Hi0) as Hp.
  destruct (heap !! parent i) as [z|] eqn:Hz; cycle 1.
  { apply lookup_ge_None in Hz. apply lookup_lt_Some in Hi. lia. }
  pose proof (IH (parent i) Hp z Hz). pose proof (Hheap i Hi0 y z Hi Hz). lia.
Qed.

Lemma heappop_spec heap :
  is_heap key heap → heap ≠ [] →
  ∃ m heap', Heapq.heappop lt heap = Some (m, heap')
             ∧ heap ≡ₚ m :: heap'
             ∧ is_heap key heap'
             ∧ ∀ y, y ∈ heap → key m ≤ key y.
Proof.
  intros Hheap Hne. unfold Heapq.heappop.
  destruct (last heap) as [lastelt|] eqn:Hlast; [|by apply last_None in Hlast].
  apply last_Some in Hlast as [l ->]. rewrite removelast_last.
  destruct l as [|returnitem rest].
  - exists lastelt, []. split; [done|]. split; [done|]. split.
    + intros i ? x y Hx. by rewrite lookup_nil in Hx.
    + intros y ->%list_elem_of_singleton. lia.
  - exists returnitem. eexists. split; [done|]. simpl.
    destruct (siftup_spec (lastelt :: rest)) as [H1 H2]; [done| |].
    + intros i Hp Hi0 x y Hx Hy.
      pose proof (parent_lt i Hi0).
      destruct i as [|i]; [done|]. destruct (parent (S i)) as [|j] eqn:Ep; [done|].
      simpl in Hx, Hy.
      apply (Hheap (S i) Hi0 x y).
      * simpl. by apply lookup_app_l_Some.
      * rewrite Ep. simpl. by apply lookup_app_l_Some.
    + split; [|split; [done|]].
      * rewrite H2. simpl. f_equiv. by rewrite Permutation_app_comm.
      * by apply heap_root_min.
Qed.

Lemma heappop_nil : Heapq.heappop lt [] = None.
Proof. done. Qed.

End Keyed.
End HeapqFacts.

(** * The search on an obstacle-free rectangle *)

Module AStarFacts.
Import Router RouterSpec AStarSpec.

Section Search.

Variable self : ManhattanRouter.
Variables start goal : Pos.

Local Abbreviation width := (width start goal).
Local Abbreviation height := (height start goal).
Local Abbreviation cell := (cell start goal).
Local Abbreviation shape := (shape start goal).
Local Abbreviation good := (good start goal).
Local Abbreviation child := (child self goal).
Local Abbreviation step_cost := (step_cost self).

Ltac geo :=
  unfold AStarSpec.cell, AStarSpec.width, AStarSpec.height, heuristic,
    manhattan_distance, in_rectangle in *;
  simpl in *; repeat case_bool_decide; simpl in *; try lia.

(** ** Geometry of the rectangle *)

Lemma heuristic_start : heuristic start goal = width + height.
Proof. geo. Qed.

Lemma heuristic_cell u v :
  0 ≤ u ≤ width → 0 ≤ v ≤ height →
  heuristic (cell u v) goal = (width - u) + (height - v).
Proof. intros Hu Hv. geo. Qed.

Lemma cell_start : cell 0 0 = start.
Proof.
  unfold AStarSpec.cell. destruct start as [x y]. simpl.
  repeat case_bool_decide; f_equal; lia.
Qed.

Lemma cell_goal : cell width height = goal.
Proof.
  unfold AStarSpec.cell, AStarSpec.width, AStarSpec.height.
  destruct goal as [x y]. simpl. repeat case_bool_decide; f_equal; lia.
Qed.

Lemma cell_inj u v u' v' : cell u v = cell u' v' → u = u' ∧ v = v'.
Proof.
  unfold AStarSpec.cell. intros H. injection H as H1 H2.
  repeat case_bool_decide; lia.
Qed.

Lemma cell_in_rectangle u v :
  0 ≤ u ≤ width → 0 ≤ v ≤ height → in_rectangle start goal (cell u v).
Proof. intros Hu Hv. geo. Qed.

Hypothesis rectangle_free : ∀ p, in_rectangle start goal p → p ∉ obstacles self.

Lemma cell_free u v :
  0 ≤ u ≤ width → 0 ≤ v ≤ height → cell u v ∉ obstacles self.
Proof. intros Hu Hv. by apply rectangle_free, cell_in_rectangle. Qed.

Lemma neighbors_cell u v q :
  0 ≤ u ≤ width → 0 ≤ v ≤ height →
  q ∈ get_neighbors (cell u v) →
  (q = cell (u + 1) v ∧ u + 1 ≤ width)
  ∨ (q = cell u (v + 1) ∧ v + 1 ≤ height)
  ∨ heuristic q goal = heuristic (cell u v) goal + 1.
Proof.
  intros Hu Hv Hq. unfold get_neighbors, AStarSpec.cell in Hq.
  rewrite !elem_of_cons, elem_of_nil in Hq.
  destruct (decide (u = width)) as [Eu|Eu], (decide (v = height)) as [Ev|Ev];
    destruct Hq as [->|[->|[->|[->|[]]]]];
    unfold AStarSpec.cell, AStarSpec.width, AStarSpec.height, heuristic in *; simpl in *;
    repeat case_bool_decide;
    first [ right; right; lia
          | left; split; [f_equal; lia|lia]
          | right; left; split; [f_equal; lia|lia] ].
Qed.

Lemma forward_x_neighbor u v : cell (u + 1) v ∈ get_neighbors (cell u v).
Proof.
  unfold get_neighbors, AStarSpec.cell. rewrite !elem_of_cons.
  repeat case_bool_decide;
    first [ left; f_equal; lia | right; left; f_equal; lia ].
Qed.

Lemma forward_y_neighbor u v : cell u (v + 1) ∈ get_neighbors (cell u v).
Proof.
  unfold get_neighbors, AStarSpec.cell. rewrite !elem_of_cons.
  repeat case_bool_decide;
    first [ right; right; left; f_equal; lia | right; right; right; left; f_equal; lia ].
Qed.

Lemma neighbor_distance p q : q ∈ get_neighbors p → manhattan_distance q p = 1.
Proof.
  destruct p as [x y]. unfold get_neighbors.
  rewrite !elem_of_cons, elem_of_nil.
  intros [->|[->|[->|[->|[]]]]]; unfold manhattan_distance; simpl; lia.
Qed.

(** The heuristic is consistent: a move changes it by one. *)
Lemma heuristic_consistent p q :
  q ∈ get_neighbors p → heuristic p goal - 1 ≤ heuristic q goal ≤ heuristic p goal + 1.
Proof.
  destruct p as [x y]. unfold get_neighbors.
  rewrite !elem_of_cons, elem_of_nil.
  intros [->|[->|[->|[->|[]]]]]; unfold heuristic; simpl; lia.
Qed.

(** ** The cost of a move *)

Lemma step_cost_min m q : 2 ≤ step_cost m q.
Proof.
  unfold AStarSpec.step_cost. case_bool_decide; destruct (parent m); try lia.
  all: destruct (is_direction_change _ _ _); lia.
Qed.

Lemma step_cost_start m q :
  parent m = None → q ∉ obstacles self → step_cost m q = 2.
Proof.
  intros Hp Hq. unfold AStarSpec.step_cost. rewrite Hp.
  by rewrite bool_decide_eq_false_2.
Qed.

Lemma step_cost_row_straight m u v :
  position m = cell u v → parent_at m (cell (u - 1) v) →
  cell (u + 1) v ∉ obstacles self →
  step_cost m (cell (u + 1) v) = 2.
Proof.
  intros Hm [par [Hp Hpar]] Hq. unfold AStarSpec.step_cost.
  rewrite Hp, Hpar, Hm, bool_decide_eq_false_2 by done.
  unfold is_direction_change, AStarSpec.cell. simpl.
  rewrite bool_decide_eq_false_2; [done|].
  intros H. apply H. repeat case_bool_decide; f_equal; lia.
Qed.

Lemma step_cost_row_turn m u v :
  position m = cell u v → parent_at m (cell (u - 1) v) →
  cell u (v + 1) ∉ obstacles self →
  step_cost m (cell u (v + 1)) = 3.
Proof.
  intros Hm [par [Hp Hpar]] Hq. unfold AStarSpec.step_cost.
  rewrite Hp, Hpar, Hm, bool_decide_eq_false_2 by done.
  unfold is_direction_change, AStarSpec.cell. simpl.
  rewrite bool_decide_eq_true_2; [done|].
  intros H. injection H as H1 H2.
  repeat case_bool_decide; lia.
Qed.

Lemma step_cost_column_straight m u v :
  position m = cell u v → parent_at m (cell u (v - 1)) →
  cell u (v + 1) ∉ obstacles self →
  step_cost m (cell u (v + 1)) = 2.
Proof.
  intros Hm [par [Hp Hpar]] Hq. unfold AStarSpec.step_cost.
  rewrite Hp, Hpar, Hm, bool_decide_eq_false_2 by done.
  unfold is_direction_change, AStarSpec.cell. simpl.
  rewrite bool_decide_eq_false_2; [done|].
  intros H. apply H. repeat case_bool_decide; f_equal; lia.
Qed.

Lemma step_cost_column_turn m u v :
  position m = cell u v → parent_at m (cell u (v - 1)) →
  cell (u + 1) v ∉ obstacles self →
  step_cost m (cell (u + 1) v) = 3.
Proof.
  intros Hm [par [Hp Hpar]] Hq. unfold AStarSpec.step_cost.
  rewrite Hp, Hpar, Hm, bool_decide_eq_false_2 by done.
  unfold is_direction_change, AStarSpec.cell. simpl.
  rewrite bool_decide_eq_true_2; [done|].
  intros H. injection H as H1 H2.
  repeat case_bool_decide; lia.
Qed.

(** ** Shapes of good nodes *)

Lemma shape_f E n :
  shape E n →
  2 * heuristic start goal ≤ f_score n ≤ 2 * heuristic start goal + 1.
Proof.
  intros (u & v & Hu & Hv & Hpos & Hf & Hcase). rewrite heuristic_start.
  destruct Hcase as [(_ & -> & -> & Hg)|[(-> & ? & Hg & _)|[(-> & ? & Hg & _)
                    |[(? & ? & Hg & _)|(? & ? & Hg & _)]]]]; lia.
Qed.

Lemma shape_good E n : shape E n → good n.
Proof. intros H. unfold AStarSpec.good. pose proof (shape_f E n H). lia. Qed.

Lemma shape_rectangle E n : shape E n → in_rectangle start goal (position n).
Proof.
  intros (u & v & Hu & Hv & Hpos & _). rewrite Hpos. by apply cell_in_rectangle.
Qed.

Lemma shape_mono E E' n :
  (∀ k m, E !! k = Some m → E' !! k = Some m) → shape E n → shape E' n.
Proof.
  intros Hsub (u & v & Hu & Hv & Hpos & Hf & Hcase).
  exists u, v. split; [done|]. split; [done|]. split; [done|]. split; [done|].
  destruct Hcase as [H|[H|[H|[(? & ? & ? & ? & Hrow)|(? & ? & ? & ? & Hcol)]]]].
  - by left.
  - right. by left.
  - right. right. by left.
  - right. right. right. left. split_and!; try done.
    intros u' Hu'. destruct (Hrow u' Hu') as (m & Hm & Hp). eauto.
  - right. right. right. right. split_and!; try done.
    intros v' Hv'. destruct (Hcol v' Hv') as (m & Hm & Hp). eauto.
Qed.

Lemma start_shape E : shape E (start_node start goal).
Proof.
  exists 0, 0. unfold start_node. simpl.
  pose proof heuristic_start.
  split_and!; try (unfold AStarSpec.width, AStarSpec.height; lia).
  - by rewrite cell_start.
  - lia.
  - left. done.
Qed.

Lemma child_shape E E' m q :
  shape E m →
  (∀ k m', E !! k = Some m' → E' !! k = Some m') →
  E' !! position m = Some m →
  q ∈ get_neighbors (position m) →
  good (child m q) →
  shape E' (child m q).
Proof.
  intros (u & v & Hu & Hv & Hpos & Hf & Hcase) Hsub Hm Hq Hgood.
  rewrite Hpos in Hq. unfold AStarSpec.good in Hgood. simpl in Hgood.
  rewrite heuristic_start in Hgood.
  pose proof (step_cost_min m q) as Hmin.
  destruct (neighbors_cell u v q Hu Hv Hq) as [[-> Hu1]|[[-> Hv1]|Hout]].
  - (* toward the goal along the row *)
    pose proof (heuristic_cell (u + 1) v ltac:(lia) Hv) as Hh.
    pose proof (cell_free (u + 1) v ltac:(lia) Hv) as Hfree.
    rewrite Hh in Hgood.
    assert (parent_at (child m (cell (u + 1) v)) (cell (u + 1 - 1) v)) as Hpar.
    { exists m. split; [done|]. rewrite Hpos. f_equal. lia. }
    exists (u + 1), v. simpl. rewrite Hh.
    split; [lia|]. split; [lia|]. split; [done|]. split; [lia|].
    destruct Hcase as [(Hp & -> & -> & Hg)|[(-> & ? & Hg & Hp)|[(-> & ? & Hg & Hp)
                      |[(? & ? & Hg & Hp & Hrow)|(? & ? & Hg & Hp & Hcol)]]]].
    + rewrite (step_cost_start m _ Hp Hfree) in *.
      right. left. split_and!; try done; lia.
    + rewrite (step_cost_row_straight m u 0 Hpos Hp Hfree) in *.
      right. left. split_and!; try done; lia.
    + rewrite (step_cost_column_turn m 0 v Hpos Hp Hfree) in *.
      right. right. right. left. split_and!; try done; lia.
    + rewrite (step_cost_row_straight m u v Hpos Hp Hfree) in *.
      right. right. right. left. split_and!; try done; try lia.
      intros u' Hu'. destruct (decide (u' = u)) as [->|Hne].
      * exists m. split; [by rewrite <- Hpos|done].
      * destruct (Hrow u' ltac:(lia)) as (m' & Hm' & Hp'). eauto.
    + rewrite (step_cost_column_turn m u v Hpos Hp Hfree) in *. lia.
  - (* toward the goal along the column *)
    pose proof (heuristic_cell u (v + 1) Hu ltac:(lia)) as Hh.
    pose proof (cell_free u (v + 1) Hu ltac:(lia)) as Hfree.
    rewrite Hh in Hgood.
    assert (parent_at (child m (cell u (v + 1))) (cell u (v + 1 - 1))) as Hpar.
    { exists m. split; [done|]. rewrite Hpos. f_equal. lia. }
    exists u, (v + 1). simpl. rewrite Hh.
    split; [lia|]. split; [lia|]. split; [done|]. split; [lia|].
    destruct Hcase as [(Hp & -> & -> & Hg)|[(-> & ? & Hg & Hp)|[(-> & ? & Hg & Hp)
                      |[(? & ? & Hg & Hp & Hrow)|(? & ? & Hg & Hp & Hcol)]]]].
    + rewrite (step_cost_start m _ Hp Hfree) in *.
      right. right. left. split_and!; try done; lia.
    + rewrite (step_cost_row_turn m u 0 Hpos Hp Hfree) in *.
      right. right. right. right. split_and!; try done; lia.
    + rewrite (step_cost_column_straight m 0 v Hpos Hp Hfree) in *.
      right. right. left. split_and!; try done; lia.
    + rewrite (step_cost_row_turn m u v Hpos Hp Hfree) in *. lia.
    + rewrite (step_cost_column_straight m u v Hpos Hp Hfree) in *.
      right. right. right. right. split_and!; try done; try lia.
      intros v' Hv'. destruct (decide (v' = v)) as [->|Hne].
      * exists m. split; [by rewrite <- Hpos|done].
      * destruct (Hcol v' ltac:(lia)) as (m' & Hm' & Hp'). eauto.
  - (* away from the goal *)
    pose proof (heuristic_cell u v Hu Hv) as Hh. rewrite Hh in Hout.
    exfalso.
    destruct Hcase as [(_ & -> & -> & Hg)|[(-> & ? & Hg & _)|[(-> & ? & Hg & _)
                      |[(? & ? & Hg & _)|(? & ? & Hg & _)]]]]; lia.
Qed.

(** ** Which children of an expanded node are good *)

Lemma shape_coordinates E n u v :
  shape E n → position n = cell u v →
  0 ≤ u ≤ width ∧ 0 ≤ v ≤ height
  ∧ f_score n = g_score n + 2 * ((width - u) + (height - v))
  ∧ ((parent n = None ∧ u = 0 ∧ v = 0 ∧ g_score n = 0)
     ∨ (v = 0 ∧ 1 ≤ u ∧ g_score n = 2 * u ∧ parent_at n (cell (u - 1) 0))
     ∨ (u = 0 ∧ 1 ≤ v ∧ g_score n = 2 * v ∧ parent_at n (cell 0 (v - 1)))
     ∨ (1 ≤ u ∧ 1 ≤ v ∧ g_score n = 2 * (u + v) + 1
        ∧ parent_at n (cell (u - 1) v)
        ∧ ∀ u', 1 ≤ u' < u →
            ∃ m, E !! cell u' v = Some m ∧ parent_at m (cell (u' - 1) v))
     ∨ (1 ≤ u ∧ 1 ≤ v ∧ g_score n = 2 * (u + v) + 1
        ∧ parent_at n (cell u (v - 1))
        ∧ ∀ v', 1 ≤ v' < v →
            ∃ m, E !! cell u v' = Some m ∧ parent_at m (cell u (v' - 1)))).
Proof.
  intros (u' & v' & Hu & Hv & Hpos & Hf & Hcase) Hn.
  rewrite Hn in Hpos. apply cell_inj in Hpos as [-> ->]. done.
Qed.

Lemma parent_at_unique n p q : parent_at n p → parent_at n q → p = q.
Proof. intros (m & Hm & <-) (m' & Hm' & <-). congruence. Qed.

Lemma offer_row E m u v :
  shape E m → position m = cell u v → u + 1 ≤ width →
  v = 0 ∨ u = 0 ∨ parent_at m (cell (u - 1) v) →
  good (child m (cell (u + 1) v)).
Proof.
  intros Hs Hpos Hu1 Hrow.
  destruct (shape_coordinates E m u v Hs Hpos) as (Hu & Hv & Hf & Hcase).
  pose proof (heuristic_cell (u + 1) v ltac:(lia) Hv) as Hh.
  pose proof (cell_free (u + 1) v ltac:(lia) Hv) as Hfree.
  unfold AStarSpec.good. simpl. rewrite Hh, heuristic_start.
  destruct Hcase as [(Hp & -> & -> & Hg)|[(-> & ? & Hg & Hp)|[(-> & ? & Hg & Hp)
                    |[(? & ? & Hg & Hp & _)|(? & ? & Hg & Hp & _)]]]].
  - rewrite (step_cost_start m _ Hp Hfree). lia.
  - rewrite (step_cost_row_straight m u 0 Hpos Hp Hfree). lia.
  - rewrite (step_cost_column_turn m 0 v Hpos Hp Hfree). lia.
  - rewrite (step_cost_row_straight m u v Hpos Hp Hfree). lia.
  - destruct Hrow as [?|[?|Hrow]]; [lia|lia|].
    pose proof (parent_at_unique _ _ _ Hp Hrow) as Heq.
    apply cell_inj in Heq. lia.
Qed.

Lemma offer_column E m u v :
  shape E m → position m = cell u v → v + 1 ≤ height →
  u = 0 ∨ v = 0 ∨ parent_at m (cell u (v - 1)) →
  good (child m (cell u (v + 1))).
Proof.
  intros Hs Hpos Hv1 Hcol.
  destruct (shape_coordinates E m u v Hs Hpos) as (Hu & Hv & Hf & Hcase).
  pose proof (heuristic_cell u (v + 1) Hu ltac:(lia)) as Hh.
  pose proof (cell_free u (v + 1) Hu ltac:(lia)) as Hfree.
  unfold AStarSpec.good. simpl. rewrite Hh, heuristic_start.
  destruct Hcase as [(Hp & -> & -> & Hg)|[(-> & ? & Hg & Hp)|[(-> & ? & Hg & Hp)
                    |[(? & ? & Hg & Hp & _)|(? & ? & Hg & Hp & _)]]]].
  - rewrite (step_cost_start m _ Hp Hfree). lia.
  - rewrite (step_cost_row_turn m u 0 Hpos Hp Hfree). lia.
  - rewrite (step_cost_column_straight m 0 v Hpos Hp Hfree). lia.
  - destruct Hcol as [?|[?|Hcol]]; [lia|lia|].
    pose proof (parent_at_unique _ _ _ Hp Hcol) as Heq.
    apply cell_inj in Heq. lia.
  - rewrite (step_cost_column_straight m u v Hpos Hp Hfree). lia.
Qed.

(** ** A good node is always open *)

Section Frontier.

Variable E : gmap Pos Node.
Variable st : AStarState.
Variable cur : Pos.
Hypothesis Hinv : inv self start goal [] cur E st.
Hypothesis no_good : ∀ n, n ∈ open_set st → ¬ good n.

Lemma offered_expanded p m q :
  E !! p = Some m → q ∈ get_neighbors p → good (child m q) →
  ∃ m', E !! q = Some m'.
Proof.
  intros Hm Hq Hgood.
  destruct (inv_offer _ _ _ _ _ _ _ Hinv p m q Hm Hq Hgood) as [[_ H]|[H|(n & Hn & _ & Hg)]].
  - by apply elem_of_nil in H.
  - rewrite <- (inv_dom _ _ _ _ _ _ _ Hinv) in H. by apply elem_of_dom in H.
  - by apply no_good in Hg.
Qed.

Lemma expanded_shape p m : E !! p = Some m → position m = p ∧ shape E m.
Proof. apply (inv_expanded _ _ _ _ _ _ _ Hinv). Qed.

Lemma start_expanded : ∃ m, E !! cell 0 0 = Some m.
Proof.
  rewrite cell_start.
  destruct (inv_start _ _ _ _ _ _ _ Hinv) as [H|H].
  - rewrite <- (inv_dom _ _ _ _ _ _ _ Hinv) in H. by apply elem_of_dom in H.
  - exfalso. apply (no_good _ H). apply (shape_good ∅), start_shape.
Qed.

Lemma first_row_expanded u : 0 ≤ u → u ≤ width → ∃ m, E !! cell u 0 = Some m.
Proof.
  intros Hu. pattern u. apply natlike_ind; [| |done].
  - intros _. apply start_expanded.
  - clear u Hu. intros u Hu IH Hle. rewrite <- Z.add_1_r in *.
    specialize (IH ltac:(lia)). destruct IH as [m Hm].
    destruct (expanded_shape _ _ Hm) as [Hpos Hs].
    apply (offered_expanded (cell u 0) m); [done|apply forward_x_neighbor|].
    apply (offer_row E); [done|done|lia|by left].
Qed.

Lemma first_column_expanded v : 0 ≤ v → v ≤ height → ∃ m, E !! cell 0 v = Some m.
Proof.
  intros Hv. pattern v. apply natlike_ind; [| |done].
  - intros _. apply start_expanded.
  - clear v Hv. intros v Hv IH Hle. rewrite <- Z.add_1_r in *.
    specialize (IH ltac:(lia)). destruct IH as [m Hm].
    destruct (expanded_shape _ _ Hm) as [Hpos Hs].
    apply (offered_expanded (cell 0 v) m); [done|apply forward_y_neighbor|].
    apply (offer_column E); [done|done|lia|by left].
Qed.

(** Going up the last column: either every cell was expanded along the
    column, or some row was expanded along the row all the way. *)
Lemma last_column v :
  0 ≤ v → v ≤ height →
  (∃ m, E !! cell width v = Some m ∧ (v = 0 ∨ parent_at m (cell width (v - 1))))
  ∨ (∃ v', 1 ≤ v' ≤ v
           ∧ ∀ u', 1 ≤ u' ≤ width →
               ∃ m, E !! cell u' v' = Some m ∧ parent_at m (cell (u' - 1) v')).
Proof.
  intros Hv. pattern v. apply natlike_ind; [| |done].
  - intros _. left. destruct (first_row_expanded width) as [m Hm];
      [unfold AStarSpec.width; lia|lia|]. exists m. split; [done|by left].
  - clear v Hv. intros v Hv IH Hle. rewrite <- Z.add_1_r in *.
    specialize (IH ltac:(lia)). destruct IH as [(m & Hm & Hcame)|(v' & Hv' & Hrow)].
    + destruct (expanded_shape _ _ Hm) as [Hpos Hs].
      destruct (offered_expanded (cell width v) m (cell width (v + 1))) as [m' Hm'];
        [done|apply forward_y_neighbor| |].
      { apply (offer_column E); [done|done|lia|]. destruct Hcame; [right; by left|right; by right]. }
      destruct (expanded_shape _ _ Hm') as [Hpos' Hs'].
      destruct (shape_coordinates E m' width (v + 1) Hs' Hpos') as (Hu & _ & _ & Hcase).
      destruct Hcase as [(_ & _ & ? & _)|[(? & _)|[(Hw & _ & _ & Hp)
                        |[(? & ? & _ & Hp & Hrow)|(_ & _ & _ & Hp & _)]]]]; try lia.
      * left. exists m'. split; [done|]. right. by rewrite Hw.
      * right. exists (v + 1). split; [lia|]. intros u' Hu'.
        destruct (decide (u' = width)) as [->|Hne].
        -- exists m'. done.
        -- apply Hrow. lia.
      * left. exists m'. split; [done|]. by right.
    + right. exists v'. split; [lia|done].
Qed.

(** Going along the last row, likewise. *)
Lemma last_row u :
  0 ≤ u → u ≤ width →
  (∃ m, E !! cell u height = Some m ∧ (u = 0 ∨ parent_at m (cell (u - 1) height)))
  ∨ (∃ u', 1 ≤ u' ≤ u
           ∧ ∀ v', 1 ≤ v' ≤ height →
               ∃ m, E !! cell u' v' = Some m ∧ parent_at m (cell u' (v' - 1))).
Proof.
  intros Hu. pattern u. apply natlike_ind; [| |done].
  - intros _. left. destruct (first_column_expanded height) as [m Hm];
      [unfold AStarSpec.height; lia|lia|]. exists m. split; [done|by left].
  - clear u Hu. intros u Hu IH Hle. rewrite <- Z.add_1_r in *.
    specialize (IH ltac:(lia)). destruct IH as [(m & Hm & Hcame)|(u' & Hu' & Hcol)].
    + destruct (expanded_shape _ _ Hm) as [Hpos Hs].
      destruct (offered_expanded (cell u height) m (cell (u + 1) height)) as [m' Hm'];
        [done|apply forward_x_neighbor| |].
      { apply (offer_row E); [done|done|lia|].
        destruct Hcame; [right; by left|right; by right]. }
      destruct (expanded_shape _ _ Hm') as [Hpos' Hs'].
      destruct (shape_coordinates E m' (u + 1) height Hs' Hpos') as (_ & Hv & _ & Hcase).
      destruct Hcase as [(_ & ? & _)|[(Hh & _ & _ & Hp)|[(? & _)
                        |[(_ & _ & _ & Hp & _)|(? & ? & _ & Hp & Hcol)]]]]; try lia.
      * left. exists m'. split; [done|]. right. by rewrite Hh.
      * left. exists m'. split; [done|]. by right.
      * right. exists (u + 1). split; [lia|]. intros v' Hv'.
        destruct (decide (v' = height)) as [->|Hne].
        -- exists m'. done.
        -- apply Hcol. lia.
    + right. exists u'. split; [lia|done].
Qed.

(** The two walks cross: some node of the open set is good. *)
Lemma frontier_contradiction : False.
Proof.
  assert (0 ≤ width ∧ 0 ≤ height) as [Hw Hh]
    by (unfold AStarSpec.width, AStarSpec.height; lia).
  assert (∀ m, E !! cell width height = Some m → False) as Hgoal.
  { intros m Hm. rewrite cell_goal in Hm.
    apply (inv_goal _ _ _ _ _ _ _ Hinv).
    rewrite <- (inv_dom _ _ _ _ _ _ _ Hinv). by apply elem_of_dom. }
  destruct (last_column height Hh ltac:(lia)) as [(m & Hm & _)|(v' & Hv' & Hrow)];
    [by eapply Hgoal|].
  destruct (last_row width Hw ltac:(lia)) as [(m & Hm & _)|(u' & Hu' & Hcol)];
    [by eapply Hgoal|].
  destruct (Hrow u' Hu') as (m1 & Hm1 & Hp1).
  destruct (Hcol v' Hv') as (m2 & Hm2 & Hp2).
  rewrite Hm1 in Hm2. injection Hm2 as <-.
  pose proof (parent_at_unique _ _ _ Hp1 Hp2) as Heq.
  apply cell_inj in Heq. lia.
Qed.

End Frontier.


Lemma good_open E st cur :
  inv self start goal [] cur E st → ∃ n, n ∈ open_set st ∧ good n.
Proof.
  intros Hinv.
  destruct (decide (Exists (λ n, f_score n ≤ 2 * heuristic start goal + 1) (open_set st)))
    as [Hex|Hno].
  - apply Exists_exists in Hex as (n & Hn & Hg). by exists n.
  - exfalso. apply (frontier_contradiction E st cur Hinv).
    intros n Hn Hg. apply Hno. apply Exists_exists. by exists n.
Qed.

(** ** Paths and their length *)

Lemma manhattan_distance_sym p q : manhattan_distance p q = manhattan_distance q p.
Proof. unfold manhattan_distance. lia. Qed.

Lemma manhattan_distance_triangle p q r :
  manhattan_distance p r ≤ manhattan_distance p q + manhattan_distance q r.
Proof. unfold manhattan_distance. lia. Qed.

Lemma manhattan_length_nonneg l : 0 ≤ manhattan_length l.
Proof.
  induction l as [|a [|b l] IH]; simpl in *; try lia.
  unfold manhattan_distance at 1. lia.
Qed.

Lemma manhattan_length_snoc l a b :
  manhattan_length ((l ++ [a]) ++ [b]) = manhattan_length (l ++ [a]) + manhattan_distance a b.
Proof.
  induction l as [|x l IH]; [simpl; lia|].
  destruct l as [|y l]; [simpl; lia|].
  change (manhattan_length (((x :: y :: l) ++ [a]) ++ [b]))
    with (manhattan_distance x y + manhattan_length (((y :: l) ++ [a]) ++ [b])).
  change (manhattan_length ((x :: y :: l) ++ [a]))
    with (manhattan_distance x y + manhattan_length ((y :: l) ++ [a])).
  lia.
Qed.

Lemma manhattan_length_reverse l : manhattan_length (reverse l) = manhattan_length l.
Proof.
  induction l as [|a [|b l] IH]; try done.
  rewrite reverse_cons. rewrite reverse_cons in IH |- *.
  rewrite manhattan_length_snoc, IH.
  change (manhattan_length (a :: b :: l))
    with (manhattan_distance a b + manhattan_length (b :: l)).
  rewrite (manhattan_distance_sym a b). lia.
Qed.

Lemma manhattan_length_lower a l b :
  last (a :: l) = Some b → manhattan_distance a b ≤ manhattan_length (a :: l).
Proof.
  revert a. induction l as [|c l IH]; intros a Hlast.
  - simpl in Hlast. injection Hlast as <-. unfold manhattan_distance. simpl. lia.
  - rewrite last_cons_cons in Hlast. specialize (IH c Hlast).
    change (manhattan_length (a :: c :: l))
      with (manhattan_distance a c + manhattan_length (c :: l)).
    pose proof (manhattan_distance_triangle a c b). lia.
Qed.

Lemma chain_positions_cons n :
  ∃ l, chain_positions n = position n :: l.
Proof. destruct n as [f p g [par|]]; simpl; eauto. Qed.

Lemma child_wellformed m q :
  wellformed start m → q ∈ get_neighbors (position m) → wellformed start (child m q).
Proof.
  intros [Hlen Hlast] Hq. unfold wellformed.
  destruct (chain_positions_cons m) as [l Hl].
  change (chain_positions (child m q)) with (q :: chain_positions m).
  rewrite Hl in *. split.
  - change (manhattan_length (q :: position m :: l))
      with (manhattan_distance q (position m) + manhattan_length (position m :: l)).
    rewrite (neighbor_distance _ _ Hq).
    change (g_score (child m q)) with (g_score m + step_cost m q).
    pose proof (step_cost_min m q). lia.
  - by rewrite last_cons_cons.
Qed.

(** ** One neighbour *)

Lemma relax_unfold m closed o gs q :
  relax self goal m closed (o, gs) q
  = if bool_decide (q ∈ closed) then (o, gs)
    else if match gs !! q with
            | None => true
            | Some g => bool_decide (g_score m + step_cost m q < g)
            end
         then (Heapq.heappush node_lt o (child m q),
               <[q := g_score m + step_cost m q]> gs)
         else (o, gs).
Proof.
  unfold relax, AStarSpec.child, AStarSpec.step_cost. simpl.
  case_bool_decide; [done|].
  case_bool_decide; destruct (parent m) as [par|];
    try destruct (is_direction_change _ _ _); reflexivity.
Qed.

Lemma push_spec o x :
  HeapqSpec.is_heap f_score o →
  HeapqSpec.is_heap f_score (Heapq.heappush node_lt o x)
  ∧ Heapq.heappush node_lt o x ≡ₚ x :: o.
Proof. exact (HeapqFacts.heappush_spec f_score o x). Qed.

Lemma pop_spec o :
  HeapqSpec.is_heap f_score o → o ≠ [] →
  ∃ m o', Heapq.heappop node_lt o = Some (m, o')
          ∧ o ≡ₚ m :: o'
          ∧ HeapqSpec.is_heap f_score o'
          ∧ ∀ y, y ∈ o → f_score m ≤ f_score y.
Proof. exact (HeapqFacts.heappop_spec f_score o). Qed.

Lemma inv_relax pending E o closed gs m q :
  inv self start goal (q :: pending) (position m) E (mkAStar o closed gs) →
  E !! position m = Some m →
  wellformed start m →
  q ∈ get_neighbors (position m) →
  ∃ o' gs',
    relax self goal m closed (o, gs) q = (o', gs')
    ∧ inv self start goal pending (position m) E (mkAStar o' closed gs')
    ∧ (length o' ≤ length o + 1)%nat.
Proof.
  intros [Hheap Hdom Hgoal Hstart Hwf Hopen Hexp Hsc Hoff] Hm Hwfm Hq.
  simpl in *. rewrite relax_unfold.
  case_bool_decide as Hclosed.
  { (* already expanded *)
    exists o, gs. split; [done|]. split; [|lia].
    constructor; simpl; try done.
    intros p m' q' Hm' Hq' Hgood.
    destruct (Hoff p m' q' Hm' Hq' Hgood) as [[-> Hin]|H]; [|by right].
    apply elem_of_cons in Hin as [->|Hin]; [right; by left|left; done]. }
  destruct (match gs !! q with
            | Some g => bool_decide (g_score m + step_cost m q < g)
            | None => true
            end) eqn:Htest.
  - (* pushed *)
    destruct (push_spec o (child m q) Hheap) as [Hheap' Hperm].
    exists (Heapq.heappush node_lt o (child m q)), (<[q := g_score m + step_cost m q]> gs).
    split; [done|]. split; [|rewrite (Permutation_length Hperm); simpl; lia].
    assert (∀ n, n ∈ o → n ∈ Heapq.heappush node_lt o (child m q)) as Hin
      by (intros n Hn; rewrite Hperm; by right).
    assert (child m q ∈ Heapq.heappush node_lt o (child m q)) as Hnew
      by (rewrite Hperm; left).
    constructor; simpl; try done.
    + destruct Hstart as [?|?]; [by left|right; by apply Hin].
    + intros n Hn. rewrite Hperm in Hn. apply elem_of_cons in Hn as [->|Hn]; [|by apply Hwf].
      by apply child_wellformed.
    + intros n Hn Hg. rewrite Hperm in Hn. apply elem_of_cons in Hn as [->|Hn]; [|by apply Hopen].
      destruct (Hexp _ _ Hm) as [_ Hs]. by apply (child_shape E E m q).
    + intros q' g Hg. destruct (decide (q' = q)) as [->|Hne].
      * rewrite lookup_insert_eq in Hg. injection Hg as <-. right.
        exists (child m q). done.
      * rewrite lookup_insert_ne in Hg by done.
        destruct (Hsc q' g Hg) as [?|(n & Hn & ?)]; [by left|right].
        exists n. split; [by apply Hin|done].
    + intros p m' q' Hm' Hq' Hgood.
      destruct (Hoff p m' q' Hm' Hq' Hgood) as [[-> Hin']|[?|(n & Hn & ?)]].
      * apply elem_of_cons in Hin' as [->|Hin']; [|left; done].
        right. right. exists (child m q). split; [done|]. split; [done|].
        rewrite Hm in Hm'. by injection Hm' as <-.
      * right. by left.
      * right. right. exists n. split; [by apply Hin|done].
  - (* a score at least as good is recorded *)
    destruct (gs !! q) as [g0|] eqn:Hg0; [|done].
    apply bool_decide_eq_false in Htest.
    exists o, gs. split; [done|]. split; [|lia].
    constructor; simpl; try done.
    intros p m' q' Hm' Hq' Hgood.
    destruct (Hoff p m' q' Hm' Hq' Hgood) as [[-> Hin]|H]; [|by right].
    apply elem_of_cons in Hin as [->|Hin]; [|left; done].
    right. rewrite Hm in Hm'. injection Hm' as <-.
    destruct (Hsc q g0 Hg0) as [?|(n & Hn & Hpos & Hg & Hf)]; [by left|right].
    exists n. split; [done|]. split; [done|].
    unfold AStarSpec.good in *. simpl in Hgood. lia.
Qed.

Lemma inv_relax_all E closed m qs : ∀ o gs,
  inv self start goal qs (position m) E (mkAStar o closed gs) →
  E !! position m = Some m →
  wellformed start m →
  (∀ q, q ∈ qs → q ∈ get_neighbors (position m)) →
  ∃ o' gs',
    foldl (relax self goal m closed) (o, gs) qs = (o', gs')
    ∧ inv self start goal [] (position m) E (mkAStar o' closed gs')
    ∧ (length o' ≤ length o + length qs)%nat.
Proof.
  induction qs as [|q qs IH]; intros o gs Hinv Hm Hwf Hqs.
  - exists o, gs. split; [done|]. split; [done|]. simpl. lia.
  - destruct (inv_relax qs E o closed gs m q Hinv Hm Hwf) as (o1 & gs1 & E1 & Hinv1 & Hlen1).
    { apply Hqs. left. }
    destruct (IH o1 gs1 Hinv1 Hm Hwf) as (o2 & gs2 & E2 & Hinv2 & Hlen2).
    { intros q' Hq'. apply Hqs. by right. }
    exists o2, gs2. simpl. rewrite E1. split; [done|]. split; [done|]. simpl. lia.
Qed.

(** ** One pop *)

Lemma inv_pop_stale E cur o closed gs m o' :
  inv self start goal [] cur E (mkAStar o closed gs) →
  o ≡ₚ m :: o' → HeapqSpec.is_heap f_score o' →
  position m ∈ closed →
  inv self start goal [] cur E (mkAStar o' closed gs).
Proof.
  intros [Hheap Hdom Hgoal Hstart Hwf Hopen Hexp Hsc Hoff] Hperm Hheap' Hclosed.
  simpl in *.
  assert (∀ n, n ∈ o → n = m ∨ n ∈ o') as Hin
    by (intros n Hn; rewrite Hperm in Hn; by apply elem_of_cons in Hn).
  assert (∀ n, n ∈ o' → n ∈ o) as Hsub by (intros n Hn; rewrite Hperm; by right).
  constructor; simpl; try done.
  - destruct Hstart as [?|Hs]; [by left|]. destruct (Hin _ Hs) as [<-|?]; [left|by right].
    done.
  - intros n Hn. by apply Hwf, Hsub.
  - intros n Hn Hg. apply Hopen; [by apply Hsub|done].
  - intros q g Hg. destruct (Hsc q g Hg) as [?|(n & Hn & Hpos & ?)]; [by left|].
    destruct (Hin _ Hn) as [->|?]; [left; by rewrite <- Hpos|right; by exists n].
  - intros p m' q Hm' Hq Hgood.
    destruct (Hoff p m' q Hm' Hq Hgood) as [?|[?|(n & Hn & Hpos & ?)]];
      [by left|right; by left|].
    destruct (Hin _ Hn) as [->|?]; [right; left; by rewrite <- Hpos|].
    right. right. by exists n.
Qed.

Lemma inv_pop_expand E cur o closed gs m o' :
  inv self start goal [] cur E (mkAStar o closed gs) →
  o ≡ₚ m :: o' → HeapqSpec.is_heap f_score o' →
  position m ∉ closed → position m ≠ goal → good m →
  inv self start goal (get_neighbors (position m)) (position m)
      (<[position m := m]> E) (mkAStar o' ({[position m]} ∪ closed) gs)
  ∧ wellformed start m.
Proof.
  intros [Hheap Hdom Hgoal Hstart Hwf Hopen Hexp Hsc Hoff] Hperm Hheap' Hclosed Hng Hgood.
  simpl in *.
  assert (m ∈ o) as Hmo by (rewrite Hperm; left).
  assert (∀ n, n ∈ o → n = m ∨ n ∈ o') as Hin
    by (intros n Hn; rewrite Hperm in Hn; by apply elem_of_cons in Hn).
  assert (∀ n, n ∈ o' → n ∈ o) as Hsub by (intros n Hn; rewrite Hperm; by right).
  assert (E !! position m = None) as Hfresh.
  { apply not_elem_of_dom. by rewrite Hdom. }
  assert (∀ k m', E !! k = Some m' → <[position m := m]> E !! k = Some m') as Hmono.
  { intros k m' Hk. rewrite lookup_insert_ne; [done|]. intros <-. congruence. }
  split; [|by apply Hwf].
  constructor; simpl; try done.
  - by rewrite dom_insert_L, Hdom.
  - intros [Hg%elem_of_singleton|?]%elem_of_union; [congruence|done].
  - destruct Hstart as [?|Hs]; [left; by apply elem_of_union_r|].
    destruct (Hin _ Hs) as [<-|?]; [left|by right].
    apply elem_of_union_l, elem_of_singleton. done.
  - intros n Hn. by apply Hwf, Hsub.
  - intros n Hn Hg. apply (shape_mono E); [done|]. apply Hopen; [by apply Hsub|done].
  - intros p m' Hm'. destruct (decide (p = position m)) as [->|Hne].
    + rewrite lookup_insert_eq in Hm'. injection Hm' as <-. split; [done|].
      apply (shape_mono E); [done|]. by apply Hopen.
    + rewrite lookup_insert_ne in Hm' by done.
      destruct (Hexp p m' Hm') as [? ?]. split; [done|]. by apply (shape_mono E).
  - intros q g Hg. destruct (Hsc q g Hg) as [?|(n & Hn & Hpos & ?)];
      [left; by apply elem_of_union_r|].
    destruct (Hin _ Hn) as [->|?]; [left|right; by exists n].
    apply elem_of_union_l, elem_of_singleton. done.
  - intros p m' q Hm' Hq Hgood'. destruct (decide (p = position m)) as [->|Hne].
    + left. done.
    + rewrite lookup_insert_ne in Hm' by done.
      destruct (Hoff p m' q Hm' Hq Hgood') as [[_ H]|[?|(n & Hn & Hpos & ?)]].
      * by apply elem_of_nil in H.
      * right. left. by apply elem_of_union_r.
      * destruct (Hin _ Hn) as [->|?]; [right; left|right; right; by exists n].
        apply elem_of_union_l, elem_of_singleton. done.
Qed.

(** ** One turn of the loop *)

Lemma cell_in_cells u v :
  0 ≤ u ≤ width → 0 ≤ v ≤ height → cell u v ∈ rectangle_cells start goal.
Proof.
  intros Hu Hv. unfold rectangle_cells.
  apply elem_of_list_to_set, list_elem_of_bind. exists u. split.
  - apply list_elem_of_bind. exists v. split; [apply list_elem_of_singleton; done|].
    apply elem_of_seqZ. lia.
  - apply elem_of_seqZ. lia.
Qed.

Lemma inv_closed_rectangle pending cur E st :
  inv self start goal pending cur E st → closed_set st ⊆ rectangle_cells start goal.
Proof.
  intros Hinv p Hp.
  rewrite <- (inv_dom _ _ _ _ _ _ _ Hinv) in Hp. apply elem_of_dom in Hp as [m Hm].
  destruct (inv_expanded _ _ _ _ _ _ _ Hinv p m Hm) as [<- (u & v & Hu & Hv & -> & _)].
  by apply cell_in_cells.
Qed.

Lemma heuristic_distance p q : heuristic p q = manhattan_distance p q.
Proof. done. Qed.

Lemma astar_step_inv E st cur :
  inv self start goal [] cur E st →
  (∃ r, astar_step self start goal st = Returned r
        ∧ manhattan_length r = manhattan_distance start goal
        ∧ head r = Some start ∧ last r = Some goal)
  ∨ (∃ E' cur' st',
       astar_step self start goal st = Running st'
       ∧ inv self start goal [] cur' E' st'
       ∧ (turns_left start goal st' < turns_left start goal st)%nat).
Proof.
  intros Hinv. destruct st as [o closed gs].
  destruct (good_open E _ cur Hinv) as (n0 & Hn0 & Hgood0). simpl in Hn0.
  assert (o ≠ []) as Hne by (intros ->; by apply elem_of_nil in Hn0).
  destruct (pop_spec o (inv_heap _ _ _ _ _ _ _ Hinv) Hne) as (m & o' & Hpop & Hperm & Hheap' & Hmin).
  assert (m ∈ o) as Hmo by (rewrite Hperm; left).
  assert (good m) as Hgood.
  { unfold AStarSpec.good in *. specialize (Hmin n0 Hn0). lia. }
  pose proof (inv_wf _ _ _ _ _ _ _ Hinv m Hmo) as [Hlen Hlast].
  pose proof (inv_open _ _ _ _ _ _ _ Hinv m Hmo Hgood) as Hshape.
  unfold astar_step. simpl. rewrite Hpop.
  case_bool_decide as Hgoal.
  { (* the goal is reached *)
    left. exists (reverse (chain_positions m)). split; [done|].
    rewrite manhattan_length_reverse, head_reverse, last_reverse.
    destruct (chain_positions_cons m) as [l Hl]. rewrite Hl in *.
    split; [|split; [done|by rewrite <- Hgoal]].
    pose proof (manhattan_length_lower _ _ _ Hlast) as Hlow.
    rewrite manhattan_distance_sym in Hlow.
    assert (manhattan_distance start (position m) = manhattan_distance start goal) as Hd
      by (by rewrite Hgoal).
    rewrite <- cell_goal in Hgoal.
    destruct (shape_coordinates E m _ _ Hshape Hgoal) as (_ & _ & Hf & _).
    unfold AStarSpec.good in Hgood. rewrite heuristic_distance in Hgood. lia. }
  case_bool_decide as Hclosed.
  { (* a stale entry *)
    right. exists E, cur, (mkAStar o' closed gs). split; [done|]. split.
    - by apply (inv_pop_stale E cur o closed gs m o').
    - unfold turns_left. simpl. rewrite (Permutation_length Hperm). simpl. lia. }
  (* an expansion *)
  destruct (inv_pop_expand E cur o closed gs m o' Hinv Hperm Hheap' Hclosed Hgoal Hgood)
    as [Hinv1 Hwfm].
  destruct (inv_relax_all (<[position m := m]> E) ({[position m]} ∪ closed) m
              (get_neighbors (position m)) o' gs Hinv1) as (o2 & gs2 & Efold & Hinv2 & Hlen2).
  { apply lookup_insert_eq. }
  { done. }
  { done. }
  right. exists (<[position m := m]> E), (position m),
    (mkAStar o2 ({[position m]} ∪ closed) gs2).
  rewrite Efold. split; [done|]. split; [done|].
  pose proof (subseteq_size _ _ (inv_closed_rectangle _ _ _ _ Hinv2)) as Hsize.
  simpl in Hsize. rewrite size_union in Hsize by set_solver.
  rewrite size_singleton in Hsize.
  unfold turns_left. simpl. rewrite size_union by set_solver. rewrite size_singleton.
  rewrite (Permutation_length Hperm). simpl.
  assert (length (get_neighbors (position m)) = 4%nat) as H4
    by (by destruct (position m)).
  lia.
Qed.

(** ** The whole loop *)

Lemma astar_loop_returns fuel : ∀ E st cur,
  inv self start goal [] cur E st →
  (turns_left start goal st < fuel)%nat →
  ∃ r, astar_loop self start goal fuel st = Some r
       ∧ manhattan_length r = manhattan_distance start goal
       ∧ head r = Some start ∧ last r = Some goal.
Proof.
  induction fuel as [|fuel IH]; intros E st cur Hinv Hfuel; [lia|].
  simpl.
  destruct (astar_step_inv E st cur Hinv)
    as [(r & -> & Hr)|(E' & cur' & st' & -> & Hinv' & Hless)].
  - by exists r.
  - apply (IH E' st' cur' Hinv'). lia.
Qed.

Lemma astar_loop_more_fuel fuel : ∀ st r k,
  astar_loop self start goal fuel st = Some r →
  astar_loop self start goal (fuel + k) st = Some r.
Proof.
  induction fuel as [|fuel IH]; intros st r k H; [done|].
  simpl in *. destruct (astar_step self start goal st); [|done]. by apply IH.
Qed.

Lemma inv_init : inv self start goal [] start ∅ (astar_init start goal).
Proof.
  unfold astar_init. change (Heapq.heappush node_lt [] ?x) with [x].
  constructor; simpl.
  - intros i Hi x y Hx Hy. destruct i as [|i]; [done|]. simpl in Hx.
    by rewrite lookup_nil in Hx.
  - by rewrite dom_empty_L.
  - apply not_elem_of_empty.
  - right. apply list_elem_of_singleton. done.
  - intros n ->%list_elem_of_singleton. split; simpl; [lia|done].
  - intros n ->%list_elem_of_singleton _. apply start_shape.
  - intros p m Hm. by rewrite lookup_empty in Hm.
  - intros q g Hg. apply lookup_singleton_Some in Hg as [<- <-]. right.
    eexists. split; [apply list_elem_of_singleton; done|]. simpl. split_and!; done.
  - intros p m q Hm. by rewrite lookup_empty in Hm.
Qed.

End Search.

(** The search returns, and its path is a shortest one. *)
Lemma astar_shortest self start goal :
  (∀ p, in_rectangle start goal p → p ∉ obstacles self) →
  ∃ pth,
    (∀ fuel, (4 * size (rectangle_cells start goal) + 2 ≤ fuel)%nat →
             astar self start goal fuel = Some pth)
    ∧ manhattan_length pth = manhattan_distance start goal
    ∧ head pth = Some start ∧ last pth = Some goal.
Proof.
  intros Hfree. unfold astar. case_bool_decide as Heq.
  { subst goal. exists [start]. split; [done|]. split; [|done].
    unfold manhattan_distance. simpl. lia. }
  destruct (astar_loop_returns self start goal Hfree
              (4 * size (rectangle_cells start goal) + 2) ∅ (astar_init start goal) start)
    as (r & Hr & Hlen & Hhead & Hlast).
  - by apply inv_init.
  - unfold turns_left, astar_init.
    change (Heapq.heappush node_lt [] ?x) with [x].
    cbn [open_set closed_set length]. rewrite size_empty. lia.
  - exists r. split; [|done]. intros fuel Hfuel.
    replace fuel with ((4 * size (rectangle_cells start goal) + 2)
                       + (fuel - (4 * size (rectangle_cells start goal) + 2)))%nat by lia.
    by apply astar_loop_more_fuel.
Qed.

End AStarFacts.

(** * The paths of the search, whatever the obstacles *)

Module TraceFacts.
Import Router RouterSpec TraceSpec.

Section Search.

Variable self : ManhattanRouter.
Variables start goal : Pos.

Local Abbreviation child := (AStarSpec.child self goal).
Local Abbreviation start_node := (AStarSpec.start_node start goal).

Lemma chain_ok_mono closed closed' n :
  closed ⊆ closed' → chain_ok start closed n → chain_ok start closed' n.
Proof.
  intros Hsub (Hlast & Hsteps & Hpar). split; [done|]. split; [done|].
  destruct (parent n); [|done]. destruct Hpar as [Hnd Hin]. split; [done|].
  intros p Hp. by apply Hsub, Hin.
Qed.

(** The chain of an expanded node has no repeated cell. *)
Lemma chain_ok_nodup closed n :
  chain_ok start closed n → position n ∉ closed →
  NoDup (chain_positions n)
  ∧ ∀ p, p ∈ chain_positions n → p ∈ ({[position n]} ∪ closed : gset Pos).
Proof.
  intros (_ & _ & Hpar) Hn. destruct n as [f pos g [par|]]; simpl in *.
  - destruct Hpar as [Hnd Hin]. split.
    + apply NoDup_cons. split; [|done]. intros Hp. by apply Hn, Hin.
    + intros p [->|Hp]%elem_of_cons;
        [apply elem_of_union_l, elem_of_singleton; done|by apply elem_of_union_r, Hin].
  - split; [apply NoDup_singleton|].
    intros p ->%list_elem_of_singleton. apply elem_of_union_l, elem_of_singleton. done.
Qed.

Lemma child_chain_ok closed m q :
  chain_ok start closed m →
  NoDup (chain_positions m) →
  (∀ p, p ∈ chain_positions m → p ∈ closed) →
  q ∈ get_neighbors (position m) →
  chain_ok start closed (child m q).
Proof.
  intros (Hlast & Hsteps & _) Hnd Hin Hq.
  destruct (AStarFacts.chain_positions_cons m) as [l Hl].
  unfold chain_ok. change (chain_positions (child m q)) with (q :: chain_positions m).
  change (parent (child m q)) with (Some m).
  split; [|split; [|done]].
  - rewrite Hl in *. by rewrite last_cons_cons.
  - rewrite Hl in *. split; [|done]. by apply AStarFacts.neighbor_distance.
Qed.

(** ** One neighbour *)

Lemma trace_relax pending o closed gs m q :
  trace_inv start goal (q :: pending) (position m) (mkAStar o closed gs) →
  chain_ok start closed m →
  NoDup (chain_positions m) →
  (∀ p, p ∈ chain_positions m → p ∈ closed) →
  q ∈ get_neighbors (position m) →
  ∃ o' gs',
    relax self goal m closed (o, gs) q = (o', gs')
    ∧ trace_inv start goal pending (position m) (mkAStar o' closed gs').
Proof.
  intros [Hheap Hgoal Hstart Hchain Hsc Hfr] Hm Hnd Hin Hq.
  simpl in *. rewrite AStarFacts.relax_unfold.
  case_bool_decide as Hclosed.
  { exists o, gs. split; [done|]. constructor; simpl; try done.
    intros p q' Hp Hq'.
    destruct (Hfr p q' Hp Hq') as [[-> Hin']|H]; [|by right].
    apply elem_of_cons in Hin' as [->|Hin']; [right; by left|left; done]. }
  destruct (match gs !! q with
            | Some g => bool_decide (g_score m + AStarSpec.step_cost self m q < g)
            | None => true
            end) eqn:Htest.
  - destruct (AStarFacts.push_spec o (child m q) Hheap) as [Hheap' Hperm].
    eexists _, _. split; [done|].
    assert (∀ n, n ∈ o → n ∈ Heapq.heappush node_lt o (child m q)) as Hsub
      by (intros n Hn; rewrite Hperm; by right).
    assert (child m q ∈ Heapq.heappush node_lt o (child m q)) as Hnew
      by (rewrite Hperm; left).
    constructor; simpl; try done.
    + destruct Hstart as [?|?]; [by left|right; by apply Hsub].
    + intros n Hn. rewrite Hperm in Hn.
      apply elem_of_cons in Hn as [->|Hn]; [|by apply Hchain].
      by apply child_chain_ok.
    + intros q' g Hg. destruct (decide (q' = q)) as [->|Hne].
      * right. by exists (child m q).
      * rewrite lookup_insert_ne in Hg by done.
        destruct (Hsc q' g Hg) as [?|(n & Hn & ?)]; [by left|right].
        exists n. split; [by apply Hsub|done].
    + intros p q' Hp Hq'.
      destruct (Hfr p q' Hp Hq') as [[-> Hin']|[?|(n & Hn & ?)]].
      * apply elem_of_cons in Hin' as [->|Hin']; [|left; done].
        right. right. by exists (child m q).
      * right. by left.
      * right. right. exists n. split; [by apply Hsub|done].
  - destruct (gs !! q) as [g0|] eqn:Hg0; [|done].
    exists o, gs. split; [done|]. constructor; simpl; try done.
    intros p q' Hp Hq'.
    destruct (Hfr p q' Hp Hq') as [[-> Hin']|H]; [|by right].
    apply elem_of_cons in Hin' as [->|Hin']; [|left; done].
    right. destruct (Hsc q g0 Hg0) as [?|?]; [by left|by right].
Qed.

Lemma trace_relax_all closed m qs : ∀ o gs,
  trace_inv start goal qs (position m) (mkAStar o closed gs) →
  chain_ok start closed m →
  NoDup (chain_positions m) →
  (∀ p, p ∈ chain_positions m → p ∈ closed) →
  (∀ q, q ∈ qs → q ∈ get_neighbors (position m)) →
  ∃ o' gs',
    foldl (relax self goal m closed) (o, gs) qs = (o', gs')
    ∧ trace_inv start goal [] (position m) (mkAStar o' closed gs').
Proof.
  induction qs as [|q qs IH]; intros o gs Hinv Hm Hnd Hin Hqs.
  - by exists o, gs.
  - destruct (trace_relax qs o closed gs m q Hinv Hm Hnd Hin) as (o1 & gs1 & E1 & Hinv1).
    { apply Hqs. left. }
    destruct (IH o1 gs1 Hinv1 Hm Hnd Hin) as (o2 & gs2 & E2 & Hinv2).
    { intros q' Hq'. apply Hqs. by right. }
    exists o2, gs2. simpl. rewrite E1. done.
Qed.

(** ** The open set is never empty *)

Lemma bounded_first (l : list Pos) : ∃ bound, ∀ p, p ∈ l → p.1 ≤ bound.
Proof.
  induction l as [|a l [b Hb]].
  - exists 0. intros p Hp. by apply elem_of_nil in Hp.
  - exists (Z.max a.1 b). intros p [->|Hp]%elem_of_cons; [lia|].
    specialize (Hb p Hp). lia.
Qed.

Lemma no_finite_set_closed_under_moves (X : gset Pos) p0 :
  p0 ∈ X → (∀ p q, p ∈ X → q ∈ get_neighbors p → q ∈ X) → False.
Proof.
  intros Hp0 Hclosed.
  destruct (bounded_first (elements X)) as [bound Hbound].
  assert (∀ k : nat, (p0.1 + Z.of_nat k, p0.2) ∈ X) as Hall.
  { induction k as [|k IH].
    - replace (p0.1 + Z.of_nat 0) with (p0.1) by lia. by destruct p0.
    - apply (Hclosed _ _ IH). unfold get_neighbors.
      apply elem_of_cons. left. f_equal. lia. }
  specialize (Hall (Z.to_nat (bound - p0.1 + 1))).
  apply elem_of_elements, Hbound in Hall. simpl in Hall. lia.
Qed.

Lemma trace_open_nonempty cur st :
  trace_inv start goal [] cur st → open_set st ≠ [].
Proof.
  intros [Hheap Hgoal Hstart Hchain Hsc Hfr] Hnil. rewrite Hnil in *.
  assert (start ∈ closed_set st) as Hs.
  { destruct Hstart as [?|H]; [done|by apply elem_of_nil in H]. }
  apply (no_finite_set_closed_under_moves (closed_set st) start Hs).
  intros p q Hp Hq.
  destruct (Hfr p q Hp Hq) as [[_ H]|[?|(n & Hn & _)]]; [|done|].
  - by apply elem_of_nil in H.
  - by apply elem_of_nil in Hn.
Qed.

(** ** One turn of the loop *)

Lemma unit_steps_app l1 : ∀ a l2,
  unit_steps (l1 ++ [a]) → unit_steps (a :: l2) → unit_steps (l1 ++ a :: l2).
Proof.
  induction l1 as [|x l1 IH]; intros a l2 H1 H2; [done|].
  destruct l1 as [|y l1].
  - simpl in *. split; [tauto|done].
  - simpl in H1. destruct H1 as [Hxy H1]. split; [done|]. by apply (IH a l2).
Qed.

Lemma unit_steps_reverse l : unit_steps l → unit_steps (reverse l).
Proof.
  induction l as [|a l IH]; [done|]. intros H. rewrite reverse_cons.
  destruct l as [|b l]; [done|]. destruct H as [Hab H].
  rewrite reverse_cons, <- (assoc_L (++)). simpl.
  apply unit_steps_app.
  - rewrite <- reverse_cons. by apply IH.
  - simpl. split; [|done]. unfold manhattan_distance in *. lia.
Qed.

Lemma chain_walk closed n :
  chain_ok start closed n → position n = goal → goal ∉ closed →
  simple_walk start goal (reverse (chain_positions n)).
Proof.
  intros Hok Hpos Hgoal.
  destruct (chain_ok_nodup closed n Hok) as [Hnd _]; [by rewrite Hpos|].
  destruct Hok as (Hlast & Hsteps & _).
  destruct (AStarFacts.chain_positions_cons n) as [l Hl].
  split; [by rewrite reverse_Permutation|]. split; [by apply unit_steps_reverse|]. split.
  - by rewrite head_reverse.
  - rewrite last_reverse, Hl. simpl. by rewrite Hpos.
Qed.

Lemma trace_step cur st :
  trace_inv start goal [] cur st →
  (∃ r, astar_step self start goal st = Returned r ∧ simple_walk start goal r)
  ∨ (∃ cur' st', astar_step self start goal st = Running st'
                 ∧ trace_inv start goal [] cur' st').
Proof.
  intros Hinv. pose proof (trace_open_nonempty cur st Hinv) as Hne.
  destruct Hinv as [Hheap Hgoal Hstart Hchain Hsc Hfr].
  destruct (AStarFacts.pop_spec (open_set st) Hheap Hne) as (m & o' & Hpop & Hperm & Hheap' & _).
  unfold astar_step. rewrite Hpop.
  assert (m ∈ open_set st) as Hm by (rewrite Hperm; left).
  assert (∀ n, n ∈ o' → n ∈ open_set st) as Hsub
    by (intros n Hn; rewrite Hperm; by right).
  assert (∀ n, n ∈ open_set st → n = m ∨ n ∈ o') as Hcases
    by (intros n Hn; rewrite Hperm in Hn; by apply elem_of_cons in Hn).
  case_bool_decide as Hatgoal.
  { left. eexists. split; [done|]. by apply (chain_walk (closed_set st)); [apply Hchain| |]. }
  case_bool_decide as Hclosed.
  - right. exists cur. eexists. split; [done|]. constructor; simpl; try done.
    + destruct Hstart as [?|Hs]; [by left|].
      destruct (Hcases _ Hs) as [<-|?]; [left; done|by right].
    + intros n Hn. by apply Hchain, Hsub.
    + intros q g Hg. destruct (Hsc q g Hg) as [?|(n & Hn & Hq)]; [by left|].
      destruct (Hcases _ Hn) as [->|?]; [left; by rewrite <- Hq|right; by exists n].
    + intros p q Hp Hq. destruct (Hfr p q Hp Hq) as [[_ H]|[?|(n & Hn & Hnq)]].
      * by apply elem_of_nil in H.
      * right. by left.
      * right. destruct (Hcases _ Hn) as [->|?]; [left; by rewrite <- Hnq|right; by exists n].
  - right. exists (position m).
    set (closed := ({[position m]} ∪ closed_set st : gset Pos)).
    assert (closed_set st ⊆ closed) as Hmono by (unfold closed; apply union_subseteq_r).
    assert (position m ∈ closed) as Hmin
      by (unfold closed; apply elem_of_union_l, elem_of_singleton; done).
    destruct (chain_ok_nodup (closed_set st) m (Hchain m Hm) Hclosed) as [Hnd Hin].
    destruct (trace_relax_all closed m (get_neighbors (position m)) o' (g_scores st))
      as (o2 & gs2 & E2 & Hinv2); try done.
    + constructor; simpl.
      * done.
      * unfold closed. intros [H%elem_of_singleton|H]%elem_of_union; [|done].
        by apply Hatgoal.
      * destruct Hstart as [?|Hs]; [left; by apply Hmono|].
        destruct (Hcases _ Hs) as [<-|?]; [left; done|by right].
      * intros n Hn. apply (chain_ok_mono (closed_set st)); [done|]. by apply Hchain, Hsub.
      * intros q g Hg. destruct (Hsc q g Hg) as [?|(n & Hn & Hq)]; [left; by apply Hmono|].
        destruct (Hcases _ Hn) as [->|?]; [left; by rewrite <- Hq|right; by exists n].
      * intros p q Hp Hq.
        apply elem_of_union in Hp as [->%elem_of_singleton|Hp]; [left; done|].
        destruct (Hfr p q Hp Hq) as [[_ H]|[?|(n & Hn & Hnq)]].
        -- by apply elem_of_nil in H.
        -- right. left. by apply Hmono.
        -- right. destruct (Hcases _ Hn) as [->|?];
             [left; by rewrite <- Hnq|right; by exists n].
    + apply (chain_ok_mono (closed_set st)); [done|]. by apply Hchain.
    + fold closed. rewrite E2. eexists. split; [done|]. done.
Qed.

Lemma trace_init : trace_inv start goal [] start (astar_init start goal).
Proof.
  unfold astar_init. change (Heapq.heappush node_lt [] ?x) with [x].
  constructor; simpl.
  - intros i Hi x y Hx Hy. destruct i as [|i]; [done|]. simpl in Hx.
    by rewrite lookup_nil in Hx.
  - apply not_elem_of_empty.
  - right. apply list_elem_of_singleton. done.
  - intros n ->%list_elem_of_singleton. split; [done|]. split; done.
  - intros q g Hg. apply lookup_singleton_Some in Hg as [<- <-]. right.
    eexists. split; [apply list_elem_of_singleton; done|]. done.
  - intros p q Hp. by apply not_elem_of_empty in Hp.
Qed.

Lemma trace_loop fuel : ∀ cur st r,
  trace_inv start goal [] cur st →
  astar_loop self start goal fuel st = Some r → simple_walk start goal r.
Proof.
  induction fuel as [|fuel IH]; intros cur st r Hinv Hr; [done|].
  simpl in Hr.
  destruct (trace_step cur st Hinv) as [(r' & E & Hw)|(cur' & st' & E & Hinv')];
    rewrite E in Hr.
  - by injection Hr as <-.
  - by apply (IH cur' st').
Qed.

(** Whatever the obstacles, a path returned by [_astar] is a walk of single
    moves from [start] to [goal] without a repeated cell; in particular the
    last line of [_astar], reached when the open set is empty, never
    runs. *)
Lemma astar_simple_walk fuel pth :
  astar self start goal fuel = Some pth → simple_walk start goal pth.
Proof.
  unfold astar. case_bool_decide as Heq.
  - intros [= <-]. subst goal. split; [apply NoDup_singleton|]. done.
  - intros H. exact (trace_loop fuel start _ pth trace_init H).
Qed.

End Search.
End TraceFacts.

(** * Shortest paths between two pins *)

Module Optimality.
Import Router RouterSpec AStarSpec.

Lemma to_grid_from_grid self p : grid_size self ≠ 0 → to_grid self (from_grid self p) = p.
Proof.
  intros Hg. destruct p as [x y]. unfold to_grid, from_grid. simpl.
  by rewrite !Z.quot_mul.
Qed.

Lemma manhattan_distance_from_grid self a b :
  0 ≤ grid_size self →
  manhattan_distance (from_grid self a) (from_grid self b)
  = grid_size self * manhattan_distance a b.
Proof.
  intros Hg. unfold manhattan_distance, from_grid. simpl.
  rewrite <- !Z.mul_sub_distr_r, !Z.abs_mul, (Z.abs_eq (grid_size self)) by done. lia.
Qed.

Lemma manhattan_length_from_grid self l :
  0 ≤ grid_size self →
  manhattan_length (from_grid self <$> l) = grid_size self * manhattan_length l.
Proof.
  intros Hg. induction l as [|a l IH]; [simpl; lia|].
  destruct l as [|b l]; [simpl; lia|].
  change (manhattan_length (from_grid self <$> a :: b :: l))
    with (manhattan_distance (from_grid self a) (from_grid self b)
          + manhattan_length (from_grid self <$> b :: l)).
  change (manhattan_length (a :: b :: l))
    with (manhattan_distance a b + manhattan_length (b :: l)).
  rewrite IH, manhattan_distance_from_grid by done. lia.
Qed.

(** Simplification keeps the end of the path and does not make it longer. *)
Lemma simplify_loop_last rest : ∀ prev,
  rest ≠ [] → last (simplify_loop [] prev rest) = last rest.
Proof.
  induction rest as [|c rest IH]; intros prev Hne; [done|].
  destruct rest as [|n tl]; [done|].
  rewrite RouterFacts.kept_cons2. destruct (is_collinear prev c n).
  - rewrite IH by done. by rewrite last_cons_cons.
  - rewrite last_cons_cons.
    destruct (simplify_loop [] c (n :: tl)) as [|x l] eqn:E.
    + by apply RouterFacts.kept_nonempty in E.
    + rewrite last_cons_cons, <- E. by apply IH.
Qed.

Lemma simplify_loop_length rest : ∀ prev,
  manhattan_length (prev :: simplify_loop [] prev rest) ≤ manhattan_length (prev :: rest).
Proof.
  induction rest as [|c rest IH]; intros prev; [done|].
  destruct rest as [|n tl]; [done|].
  rewrite RouterFacts.kept_cons2.
  change (manhattan_length (prev :: c :: n :: tl))
    with (manhattan_distance prev c + manhattan_length (c :: n :: tl)).
  destruct (is_collinear prev c n).
  - specialize (IH prev).
    change (manhattan_length (prev :: n :: tl))
      with (manhattan_distance prev n + manhattan_length (n :: tl)) in IH.
    change (manhattan_length (c :: n :: tl))
      with (manhattan_distance c n + manhattan_length (n :: tl)).
    pose proof (AStarFacts.manhattan_distance_triangle prev c n). lia.
  - specialize (IH c).
    change (manhattan_length (prev :: c :: simplify_loop [] c (n :: tl)))
      with (manhattan_distance prev c
            + manhattan_length (c :: simplify_loop [] c (n :: tl))).
    lia.
Qed.

Lemma simplify_path_shortest pth a b :
  head pth = Some a → last pth = Some b →
  manhattan_length pth = manhattan_distance a b →
  manhattan_length (simplify_path pth) = manhattan_distance a b.
Proof.
  destruct pth as [|p0 rest]; [done|]. intros [= ->] Hlast Hlen.
  rewrite RouterFacts.simplify_path_cons.
  pose proof (simplify_loop_length rest a) as Hle.
  assert (last (a :: simplify_loop [] a rest) = Some b) as Hlast'.
  { destruct rest as [|c rest]; [done|].
    destruct (simplify_loop [] a (c :: rest)) as [|x l] eqn:E.
    - by apply RouterFacts.kept_nonempty in E.
    - rewrite last_cons_cons, <- E, simplify_loop_last by done.
      by rewrite last_cons_cons in Hlast. }
  pose proof (AStarFacts.manhattan_length_lower _ _ _ Hlast') as Hlow. lia.
Qed.

End Optimality.

(** * Two-pin routes are Manhattan polylines *)

Module PolylineFacts.
Import Router RouterSpec TraceSpec.

Local Abbreviation kept prev rest := (simplify_loop [] prev rest).

Lemma is_collinear_false p1 p2 p3 :
  is_collinear p1 p2 p3 = false
  ↔ ¬ ((p1.1 = p2.1 ∧ p2.1 = p3.1) ∨ (p1.2 = p2.2 ∧ p2.2 = p3.2)).
Proof.
  rewrite <- RouterFacts.is_collinear_true. by destruct (is_collinear p1 p2 p3).
Qed.

Lemma pos_neq (a b : Pos) : a ≠ b → a.1 ≠ b.1 ∨ a.2 ≠ b.2.
Proof.
  destruct a as [a1 a2], b as [b1 b2]. simpl. intros H.
  destruct (decide (a1 = b1)) as [->|]; [|by left].
  right. intros ->. by apply H.
Qed.

(** The kept points make no straight triple. *)
Lemma kept_no_triple rest : ∀ x prev,
  NoDup (prev :: rest) →
  (∀ c, head rest = Some c → is_collinear x prev c = false) →
  no_collinear_triple (x :: prev :: kept prev rest).
Proof.
  induction rest as [|c rest IH]; intros x prev Hnd Hx; [done|].
  destruct rest as [|n tl].
  { simpl. split; [by apply Hx|done]. }
  rewrite RouterFacts.kept_cons2.
  apply NoDup_cons in Hnd as [Hprev Hnd].
  destruct (is_collinear prev c n) eqn:Hcol.
  - apply IH.
    + apply NoDup_cons. split; [|by apply NoDup_cons in Hnd as [_ ?]].
      intros H. apply Hprev. by right.
    + intros c' [= <-]. specialize (Hx c eq_refl).
      apply RouterFacts.is_collinear_true in Hcol. apply is_collinear_false in Hx.
      apply is_collinear_false.
      assert (prev ≠ n) as Hne by (intros ->; apply Hprev; right; left).
      apply pos_neq in Hne. intros H. apply Hx.
      destruct Hcol as [[? ?]|[? ?]], H as [[? ?]|[? ?]];
        [left|exfalso|exfalso|right]; try (split; congruence);
        destruct Hne as [Hne|Hne]; apply Hne; congruence.
  - change (is_collinear x prev c = false ∧ no_collinear_triple (prev :: c :: kept c (n :: tl))).
    split; [by apply Hx|]. apply IH; [done|].
    by intros c' [= <-].
Qed.

Lemma kept_no_triple_head rest : ∀ prev,
  NoDup (prev :: rest) → no_collinear_triple (prev :: kept prev rest).
Proof.
  induction rest as [|c rest IH]; intros prev Hnd; [done|].
  destruct rest as [|n tl]; [done|].
  rewrite RouterFacts.kept_cons2.
  apply NoDup_cons in Hnd as [Hprev Hnd].
  destruct (is_collinear prev c n) eqn:Hcol.
  - apply IH. apply NoDup_cons. split; [|by apply NoDup_cons in Hnd as [_ ?]].
    intros H. apply Hprev. by right.
  - apply kept_no_triple; [done|]. by intros c' [= <-].
Qed.

(** Consecutive kept points lie on one row or one column. *)
Lemma kept_axis_steps rest : ∀ prev,
  NoDup (prev :: rest) →
  (∀ c, head rest = Some c →
        (prev.1 = c.1 ∧ prev.2 ≠ c.2) ∨ (prev.1 ≠ c.1 ∧ prev.2 = c.2)) →
  unit_steps rest →
  axis_steps (prev :: kept prev rest).
Proof.
  induction rest as [|c rest IH]; intros prev Hnd Hhead Hsteps; [done|].
  destruct rest as [|n tl].
  { simpl. split; [by apply Hhead|done]. }
  rewrite RouterFacts.kept_cons2.
  apply NoDup_cons in Hnd as [Hprev Hnd]. destruct Hsteps as [Hcn Hsteps].
  destruct (is_collinear prev c n) eqn:Hcol.
  - apply IH; [|intros c' [= <-]|done].
    + apply NoDup_cons. split; [|by apply NoDup_cons in Hnd as [_ ?]].
      intros H. apply Hprev. by right.
    + apply RouterFacts.is_collinear_true in Hcol.
      assert (prev ≠ n) as Hne by (intros ->; apply Hprev; right; left).
      apply pos_neq in Hne.
      destruct Hcol as [[? ?]|[? ?]]; [left|right]; split; try congruence;
        destruct Hne as [Hne|Hne]; try done; exfalso; apply Hne; congruence.
  - change (((prev.1 = c.1 ∧ prev.2 ≠ c.2) ∨ (prev.1 ≠ c.1 ∧ prev.2 = c.2))
            ∧ axis_steps (c :: kept c (n :: tl))).
    split; [by apply Hhead|]. apply IH; [done| |done].
    intros c' [= <-]. unfold manhattan_distance in Hcn. lia.
Qed.

Lemma simplify_path_polyline pth :
  NoDup pth → unit_steps pth → manhattan_polyline (simplify_path pth).
Proof.
  destruct pth as [|p0 rest]; [done|]. intros Hnd Hsteps.
  rewrite RouterFacts.simplify_path_cons. split.
  - apply kept_axis_steps; [done| |].
    + intros c Hc. destruct rest as [|c' rest]; [done|]. injection Hc as ->.
      destruct Hsteps as [H _]. unfold manhattan_distance in H. lia.
    + destruct rest as [|c' rest]; [done|]. by destruct Hsteps.
  - by apply kept_no_triple_head.
Qed.

(** Scaling by the grid size keeps a polyline a polyline. *)
Lemma from_grid_polyline self pth :
  grid_size self ≠ 0 →
  manhattan_polyline pth → manhattan_polyline (from_grid self <$> pth).
Proof.
  intros Hg [Hax Htr]. split.
  - clear Htr. induction pth as [|a [|b tl] IH]; [done|done|].
    destruct Hax as [Hab Hax]. split; [|by apply IH].
    unfold from_grid. simpl. nia.
  - clear Hax. induction pth as [|a [|b [|c tl]] IH]; [done|done|done|].
    destruct Htr as [Habc Htr]. split; [|by apply IH].
    apply is_collinear_false. apply is_collinear_false in Habc.
    intros H. apply Habc. unfold from_grid in H. simpl in H.
    destruct H as [[? ?]|[? ?]]; [left|right]; split; nia.
Qed.

(** Whatever the obstacles, the waypoints that [_route_two_pins] returns
    form a Manhattan polyline from the cell of [start] to the cell of
    [end_]. *)
Lemma two_pin_route_is_polyline self fuel start end_ pth :
  grid_size self ≠ 0 →
  route_two_pins self fuel start end_ = Some pth →
  manhattan_polyline pth
  ∧ head pth = Some (from_grid self (to_grid self start))
  ∧ last pth = Some (from_grid self (to_grid self end_)).
Proof.
  intros Hg. unfold route_two_pins.
  destruct (astar self (to_grid self start) (to_grid self end_) fuel)
    as [grid_path|] eqn:E; [|done].
  apply TraceFacts.astar_simple_walk in E as (Hnd & Hsteps & Hhead & Hlast).
  destruct grid_path as [|p0 rest]; [done|].
  intros Hpth.
  assert (pth = from_grid self <$> simplify_path (p0 :: rest)) as ->.
  { symmetry. injection Hpth as H. exact H. }
  clear Hpth.
  split.
  { apply from_grid_polyline; [done|]. by apply (simplify_path_polyline (p0 :: rest)). }
  rewrite RouterFacts.simplify_path_cons.
  split; [simpl in *; congruence|].
  rewrite fmap_last. destruct rest as [|c rest]; [simpl in *; congruence|].
  pose proof (RouterFacts.kept_nonempty p0 c rest) as Hne.
  destruct (kept p0 (c :: rest)) as [|k ks] eqn:Ek; [done|].
  rewrite last_cons_cons, <- Ek, Optimality.simplify_loop_last by done.
  rewrite last_cons_cons in Hlast. by rewrite Hlast.
Qed.

(** Simplification is idempotent on the paths of the search. *)
Lemma simplify_path_idempotent_on_search self start goal fuel pth :
  astar self start goal fuel = Some pth →
  simplify_path (simplify_path pth) = simplify_path pth.
Proof.
  intros (Hnd & _)%TraceFacts.astar_simple_walk.
  destruct pth as [|p0 rest]; [done|]. apply NoDup_cons in Hnd as [Hp0 Hnd].
  rewrite !RouterFacts.simplify_path_cons. f_equal. by apply RouterFacts.kept_idempotent.
Qed.

End PolylineFacts.

(** * The two-pin route when nothing is in the way *)

Module ShortestFacts.
Import Router RouterSpec AStarSpec TraceSpec FloatRange.

(** The route between two pins whose cells span a free rectangle. *)
Lemma route_two_pins_shortest self pin1 pin2 :
  0 < grid_size self →
  (∀ p, in_rectangle (to_grid self pin1) (to_grid self pin2) p → p ∉ obstacles self) →
  ∃ cells pth,
    (∀ fuel,
       (4 * size (rectangle_cells (to_grid self pin1) (to_grid self pin2)) + 2 ≤ fuel)%nat →
       astar self (to_grid self pin1) (to_grid self pin2) fuel = Some cells
       ∧ route_two_pins self fuel pin1 pin2 = Some pth)
    ∧ simple_walk (to_grid self pin1) (to_grid self pin2) cells
    ∧ manhattan_length cells
      = manhattan_distance (to_grid self pin1) (to_grid self pin2)
    ∧ manhattan_polyline pth
    ∧ head pth = Some (from_grid self (to_grid self pin1))
    ∧ last pth = Some (from_grid self (to_grid self pin2))
    ∧ manhattan_length pth
      = manhattan_distance (from_grid self (to_grid self pin1))
                           (from_grid self (to_grid self pin2)).
Proof.
  intros Hg Hfree.
  destruct (AStarFacts.astar_shortest self (to_grid self pin1) (to_grid self pin2) Hfree)
    as (cells & Hfuel & Hlen & Hhead & Hlast).
  pose proof (Hfuel _ (Nat.le_refl _)) as E0.
  assert (∀ fuel,
            (4 * size (rectangle_cells (to_grid self pin1) (to_grid self pin2)) + 2
             ≤ fuel)%nat →
            route_two_pins self fuel pin1 pin2
            = Some (from_grid self <$> simplify_path cells)) as Hroute.
  { intros fuel Hf. unfold route_two_pins. rewrite (Hfuel fuel Hf).
    destruct cells; [done|]. done. }
  exists cells, (from_grid self <$> simplify_path cells).
  destruct (PolylineFacts.two_pin_route_is_polyline self _ pin1 pin2 _
              ltac:(lia) (Hroute _ (Nat.le_refl _))) as (Hpoly & Hh & Hl).
  split_and!; try done.
  - intros fuel Hf. split; [by apply Hfuel|by apply Hroute].
  - by apply (TraceFacts.astar_simple_walk self _ _ _ _ E0).
  - rewrite Optimality.manhattan_length_from_grid,
      Optimality.manhattan_distance_from_grid by lia.
    f_equal. by apply Optimality.simplify_path_shortest.
Qed.




End ShortestFacts.

(** * Obstacles, grid snapping and the routing loop *)

Module ObstacleFacts.
Import Router RouterSpec Obstacles FloatRange.

Lemma cell_range_elem a b x : x ∈ cell_range a b ↔ a ≤ x ≤ b.
Proof. unfold cell_range. rewrite elem_of_seqZ. lia. Qed.

Lemma add_column_elem (x : Z) ys : ∀ (obs : gset Pos) p,
  p ∈ foldl (λ obstacles y, {[ (x, y) ]} ∪ obstacles) obs ys
  ↔ p ∈ obs ∨ (p.1 = x ∧ p.2 ∈ ys).
Proof.
  induction ys as [|y ys IH]; intros obs p; simpl.
  - split; [by left|]. intros [?|[_ H]]; [done|by apply elem_of_nil in H].
  - rewrite IH, elem_of_union, elem_of_singleton, elem_of_cons.
    destruct p as [p1 p2]. simpl. split.
    + intros [[[= -> ->]|?]|[? ?]]; auto.
    + intros [?|[-> [->|?]]]; auto.
Qed.

Lemma add_columns_elem ys xs : ∀ (obs : gset Pos) p,
  p ∈ foldl (λ obstacles x,
               foldl (λ obstacles y, {[ (x, y) ]} ∪ obstacles) obstacles ys)
            obs xs
  ↔ p ∈ obs ∨ (p.1 ∈ xs ∧ p.2 ∈ ys).
Proof.
  induction xs as [|x xs IH]; intros obs p; simpl.
  - split; [by left|]. intros [?|[H _]]; [done|by apply elem_of_nil in H].
  - rewrite IH, add_column_elem, elem_of_cons. split.
    + intros [[?|[-> ?]]|[? ?]]; auto.
    + intros [?|[[->|?] ?]]; auto.
Qed.

(** The cells of the rectangle of a component. *)
Lemma add_component_elem self obs comp p :
  p ∈ add_component self obs comp
  ↔ p ∈ obs
    ∨ (low_cell self (position_x comp) (size_width comp) ≤ p.1
         ≤ high_cell self (position_x comp) (size_width comp)
       ∧ low_cell self (position_y comp) (size_height comp) ≤ p.2
         ≤ high_cell self (position_y comp) (size_height comp)).
Proof.
  unfold add_component. by rewrite add_columns_elem, !cell_range_elem.
Qed.

Lemma set_obstacles_elem self comps : ∀ obs p,
  p ∈ foldl (add_component self) obs comps
  ↔ p ∈ obs
    ∨ ∃ comp, comp ∈ comps
        ∧ low_cell self (position_x comp) (size_width comp) ≤ p.1
            ≤ high_cell self (position_x comp) (size_width comp)
        ∧ low_cell self (position_y comp) (size_height comp) ≤ p.2
            ≤ high_cell self (position_y comp) (size_height comp).
Proof.
  induction comps as [|c comps IH]; intros obs p; simpl.
  - split; [by left|]. intros [?|(c & H & _)]; [done|by apply elem_of_nil in H].
  - rewrite IH, add_component_elem. split.
    + intros [[?|?]|(c' & ? & ?)]; [by left| |].
      * right. exists c. split; [left|done].
      * right. exists c'. split; [by right|done].
    + intros [?|(c' & [->|?]%elem_of_cons & ?)]; [by left; left|by left; right|].
      right. by exists c'.
Qed.

(** X1: when the four divisions of every component are in the exact range
    (in particular the grid size is not 0 as soon as there is a component),
    a cell is blocked after [set_obstacles_from_components] exactly when it
    was blocked before or lies in the cell rectangle of one of the
    components; the grid size and the recorded segments are untouched. *)
Theorem set_obstacles_blocks_boxes (self : ManhattanRouter)
    (components : list Footprint) (p : Pos) :
  (∀ comp, comp ∈ components → footprint_exact self comp) →
  (p ∈ obstacles (set_obstacles_from_components self components)
   ↔ p ∈ obstacles self
     ∨ ∃ comp, comp ∈ components
         ∧ low_cell self (position_x comp) (size_width comp) ≤ p.1
             ≤ high_cell self (position_x comp) (size_width comp)
         ∧ low_cell self (position_y comp) (size_height comp) ≤ p.2
             ≤ high_cell self (position_y comp) (size_height comp))
  ∧ grid_size (set_obstacles_from_components self components) = grid_size self
  ∧ wire_segments (set_obstacles_from_components self components)
    = wire_segments self.
Proof. intros _. split; [apply set_obstacles_elem|done]. Qed.

Lemma set_obstacles_blocks_boxes_witness :
  (12, 4) ∈ obstacles (set_obstacles_from_components empty_router
                         [mkFootprint 100 50 60 20])
  ∧ (14, 4) ∉ obstacles (set_obstacles_from_components empty_router
                           [mkFootprint 100 50 60 20]).
Proof.
  assert (∀ comp, comp ∈ [mkFootprint 100 50 60 20] → footprint_exact empty_router comp)
    as Hexact.
  { intros comp ->%list_elem_of_singleton.
    unfold footprint_exact, exact_quotient. simpl. lia. }
  split.
  - apply (set_obstacles_blocks_boxes empty_router [mkFootprint 100 50 60 20] (12, 4) Hexact).
    right. exists (mkFootprint 100 50 60 20). split; [left|].
    repeat split; apply Z.leb_le; reflexivity.
  - intros Hin.
    apply (set_obstacles_blocks_boxes empty_router [mkFootprint 100 50 60 20] (14, 4) Hexact)
      in Hin as [Hin|(comp & ->%list_elem_of_singleton & Hx & _)].
    + by apply not_elem_of_empty in Hin.
    + destruct Hx as [_ Hx]. apply Z.leb_le in Hx. discriminate Hx.
Defined.

Lemma quot_between a b c g :
  0 < g → 2 * a - b ≤ 2 * c ≤ 2 * a + b →
  (2 * a - b) `quot` (2 * g) ≤ c `quot` g ≤ (2 * a + b) `quot` (2 * g).
Proof.
  intros Hg H.
  rewrite <- (Z.quot_mul_cancel_l c g 2) by lia.
  split; apply Z.quot_le_mono; lia.
Qed.



Lemma snap_round_trip (self : ManhattanRouter) (p : Pos) :
  0 < grid_size self →
  to_grid self (from_grid self p) = p
  ∧ (let q := from_grid self (to_grid self p) in
     Z.abs q.1 ≤ Z.abs p.1 ∧ Z.abs q.2 ≤ Z.abs p.2
     ∧ Z.abs (p.1 - q.1) < grid_size self ∧ Z.abs (p.2 - q.2) < grid_size self
     ∧ from_grid self (to_grid self q) = q).
Proof.
  intros Hg. split; [apply Optimality.to_grid_from_grid; lia|].
  cbv zeta. rewrite Optimality.to_grid_from_grid by lia.
  destruct p as [x y]. unfold from_grid, to_grid. cbn [fst snd].
  assert (∀ a, 0 ≤ a → 0 ≤ a `quot` grid_size self * grid_size self ≤ a
                       ∧ a - a `quot` grid_size self * grid_size self < grid_size self)
    as Hpos.
  { intros a Ha. pose proof (Z.quot_rem a (grid_size self) ltac:(lia)) as E.
    pose proof (Z.rem_bound_pos a (grid_size self) Ha Hg).
    pose proof (Z.quot_pos a (grid_size self) Ha Hg). nia. }
  assert (∀ a, Z.abs (a `quot` grid_size self * grid_size self) ≤ Z.abs a
               ∧ Z.abs (a - a `quot` grid_size self * grid_size self) < grid_size self)
    as Hsnap.
  { intros a. destruct (Z.le_gt_cases 0 a) as [Ha|Ha].
    - specialize (Hpos a Ha). lia.
    - specialize (Hpos (- a) ltac:(lia)). rewrite Z.quot_opp_l in Hpos by lia. lia. }
  destruct (Hsnap x), (Hsnap y). done.
Qed.

(** Snapping stays inside the exact range. *)
Lemma snapped_in_range (self : ManhattanRouter) (p : Pos) :
  0 < grid_size self → snaps_exactly self p →
  snaps_exactly self (from_grid self (to_grid self p)).
Proof.
  intros Hg [[_ Hx] [_ Hy]].
  destruct (snap_round_trip self p Hg) as (_ & H1 & H2 & _). cbv zeta in *.
  unfold snaps_exactly, exact_quotient. split; (split; [lia|]); lia.
Qed.

(** X3: on a grid of positive size and inside the range where snapping is
    exact, [_to_grid] undoes [_from_grid]; the other way round a point is
    moved toward the origin by less than one cell, onto a point of the
    exact range that snapping leaves alone. *)
Theorem grid_round_trip (self : ManhattanRouter) (p : Pos) :
  0 < grid_size self →
  (snaps_exactly self (from_grid self p) → to_grid self (from_grid self p) = p)
  ∧ (snaps_exactly self p →
     let q := from_grid self (to_grid self p) in
     Z.abs q.1 ≤ Z.abs p.1 ∧ Z.abs q.2 ≤ Z.abs p.2
     ∧ Z.abs (p.1 - q.1) < grid_size self ∧ Z.abs (p.2 - q.2) < grid_size self
     ∧ snaps_exactly self q
     ∧ from_grid self (to_grid self q) = q).
Proof.
  intros Hg. destruct (snap_round_trip self p Hg) as (H1 & H2 & H3 & H4 & H5 & H6).
  split; [done|]. intros Hp. cbv zeta. split_and!; try done.
  by apply snapped_in_range.
Qed.

Lemma grid_round_trip_witness :
  to_grid empty_router (from_grid empty_router (3, -2)) = (3, -2)
  ∧ from_grid empty_router (to_grid empty_router (37, -25)) = (30, -20).
Proof.
  destruct (grid_round_trip empty_router (3, -2)) as [H _]; [simpl; lia|].
  split; [|reflexivity].
  apply H. unfold snaps_exactly, exact_quotient. simpl. lia.
Defined.

End ObstacleFacts.

(** * Neighbours, simplification, merging *)

Module PathFacts.
Import Router RouterSpec TraceSpec.

Local Abbreviation kept prev rest := (simplify_loop [] prev rest).

(** X4: the neighbours of a cell are the four cells at Manhattan distance 1,
    each listed once. *)
Theorem get_neighbors_distance_one (p q : Pos) :
  (q ∈ get_neighbors p ↔ manhattan_distance p q = 1)
  ∧ (q ∈ get_neighbors p ↔ p ∈ get_neighbors q)
  ∧ NoDup (get_neighbors p)
  ∧ length (get_neighbors p) = 4%nat.
Proof.
  destruct p as [x y], q as [a b]. unfold get_neighbors, manhattan_distance.
  cbn [fst snd]. rewrite !elem_of_cons, !elem_of_nil.
  split_and!.
  - split.
    + intros [[= -> ->]|[[= -> ->]|[[= -> ->]|[[= -> ->]|[]]]]]; lia.
    + intros H.
      assert ((a = x + 1 ∧ b = y) ∨ (a = x - 1 ∧ b = y)
              ∨ (a = x ∧ b = y + 1) ∨ (a = x ∧ b = y - 1)) as Hc by lia.
      destruct Hc as [[-> ->]|[[-> ->]|[[-> ->]|[-> ->]]]]; auto.
  - split; intros [[= -> ->]|[[= -> ->]|[[= -> ->]|[[= -> ->]|[]]]]];
      [right; left|left|do 3 right; left|do 2 right; left
      |right; left|left|do 3 right; left|do 2 right; left]; f_equal; lia.
  - repeat (apply NoDup_cons; split;
            [rewrite ?elem_of_cons, elem_of_nil; intros H;
             repeat (destruct H as [H|H]; [injection H; lia|]); done|]).
    apply NoDup_nil_2.
  - done.
Qed.

Lemma kept_sublist rest : ∀ prev, kept prev rest `sublist_of` rest.
Proof.
  induction rest as [|c rest IH]; intros prev; [done|].
  destruct rest as [|n tl]; [done|].
  rewrite RouterFacts.kept_cons2. destruct (is_collinear prev c n).
  - apply sublist_cons, IH.
  - apply sublist_skip, IH.
Qed.

(** X5: [_simplify_path] only deletes points: what it returns is a
    subsequence of the input with the same first and last point, and a path
    of at most two points is returned as it is. *)
Theorem simplify_path_keeps_ends (pth : list Pos) :
  simplify_path pth `sublist_of` pth
  ∧ head (simplify_path pth) = head pth
  ∧ last (simplify_path pth) = last pth
  ∧ ((length pth ≤ 2)%nat → simplify_path pth = pth).
Proof.
  destruct pth as [|p0 rest]; [done|].
  rewrite RouterFacts.simplify_path_cons. split_and!.
  - apply sublist_skip, kept_sublist.
  - done.
  - destruct rest as [|c rest]; [done|].
    pose proof (RouterFacts.kept_nonempty p0 c rest) as Hne.
    destruct (kept p0 (c :: rest)) as [|k ks] eqn:Ek; [done|].
    rewrite !last_cons_cons, <- Ek. by apply Optimality.simplify_loop_last.
  - intros Hlen. destruct rest as [|c [|n tl]]; [done|done|simpl in Hlen; lia].
Qed.

(** X6: simplifying a walk of single moves that visits no cell twice gives
    a Manhattan polyline: consecutive waypoints differ in exactly one
    coordinate and no three consecutive waypoints lie on one line. *)
Theorem simplify_walk_is_polyline (pth : list Pos) :
  NoDup pth → unit_steps pth → manhattan_polyline (simplify_path pth).
Proof. apply PolylineFacts.simplify_path_polyline. Qed.

Lemma simplify_walk_is_polyline_witness :
  manhattan_polyline (simplify_path [(0, 0); (1, 0); (2, 0); (2, 1); (2, 2); (3, 2)]).
Proof.
  apply simplify_walk_is_polyline.
  - apply (bool_decide_unpack _). by vm_compute.
  - simpl. unfold manhattan_distance. simpl. lia.
Defined.

(** ** [_merge_paths] *)

Lemma merge_fold paths : ∀ (unique_points : list Pos) (seen : gset Pos),
  seen = list_to_set unique_points → NoDup unique_points →
  ∃ more,
    (foldl (λ '(unique_points, seen) point,
              if bool_decide (point ∉ (seen : gset Pos))
              then (unique_points ++ [point], {[ point ]} ∪ seen)
              else (unique_points, seen))
           (unique_points, seen) paths).1
    = unique_points ++ more
    ∧ NoDup (unique_points ++ more)
    ∧ more `sublist_of` paths
    ∧ (∀ p, p ∈ paths → p ∈ unique_points ++ more)
    ∧ ((∀ p, p ∈ paths → p ∉ unique_points) → NoDup paths → more = paths).
Proof.
  induction paths as [|point paths IH]; intros u seen Hseen Hnd.
  - exists []. rewrite app_nil_r. split_and!; try done.
    intros p Hp. by apply elem_of_nil in Hp.
  - cbn [foldl]. case_bool_decide as Hnew.
    + destruct (IH (u ++ [point]) ({[point]} ∪ seen)) as (more & E & Hnd' & Hsub & Hall & Hid).
      { rewrite Hseen, list_to_set_app_L. simpl. set_solver. }
      { apply NoDup_app. split_and!; [done| |apply NoDup_singleton].
        intros x Hx ->%list_elem_of_singleton. apply Hnew. rewrite Hseen.
        by apply elem_of_list_to_set. }
      exists (point :: more). rewrite E, <- !(assoc_L (++)). simpl.
      split_and!; try done.
      * by rewrite <- (assoc_L (++)) in Hnd'.
      * by apply sublist_skip.
      * intros p [->|Hp]%elem_of_cons.
        -- apply elem_of_app. right. left.
        -- specialize (Hall p Hp). by rewrite <- (assoc_L (++)) in Hall.
      * intros Hfresh [Hp Hnd2]%NoDup_cons. f_equal. apply Hid; [|done].
        intros p Hp' [Hin|Heq%list_elem_of_singleton]%elem_of_app; [|by subst].
        apply (Hfresh p); [by right|done].
    + destruct (IH u seen Hseen Hnd) as (more & E & Hnd' & Hsub & Hall & Hid).
      exists more. split_and!; try done.
      * by apply sublist_cons.
      * intros p [->|Hp]%elem_of_cons; [|by apply Hall].
        apply elem_of_app. left.
        rewrite Hseen in Hnew.
        by apply elem_of_list_to_set in Hnew.
      * intros Hfresh _. exfalso. rewrite Hseen in Hnew.
        apply elem_of_list_to_set in Hnew. apply (Hfresh point); [left|done].
Qed.

Lemma merge_paths_spec (paths : list Pos) :
  NoDup (merge_paths paths)
  ∧ (∀ p, p ∈ merge_paths paths ↔ p ∈ paths)
  ∧ merge_paths paths `sublist_of` paths
  ∧ (NoDup paths → merge_paths paths = paths)
  ∧ merge_paths (merge_paths paths) = merge_paths paths.
Proof.
  destruct (merge_fold paths [] ∅) as (more & E & Hnd & Hsub & Hall & Hid);
    [done|apply NoDup_nil_2|].
  simpl in *.
  assert (merge_paths paths = more) as -> by exact E.
  assert (merge_paths more = more) as Hfix.
  { unfold merge_paths.
    destruct (merge_fold more [] ∅) as (more' & E' & _ & _ & _ & Hid');
      [done|apply NoDup_nil_2|].
    simpl in *. rewrite E'. apply Hid'; [|done].
    intros p _ H. by apply elem_of_nil in H. }
  split_and!; try done.
  - intros p. split; [|apply Hall]. intros Hp.
    by apply (elem_of_sublist _ _ _ Hp Hsub).
  - intros Hnd'. apply Hid; [|done]. intros p _ H. by apply elem_of_nil in H.
Qed.

(** X7: [_merge_paths] keeps the first occurrence of every point and drops
    the later ones: its result has no repeated point, holds exactly the
    points of the input, is a subsequence of it, and a list without repeats
    is returned unchanged (so merging twice is merging once). *)
Theorem merge_paths_first_occurrences (paths : list Pos) :
  NoDup (merge_paths paths)
  ∧ (∀ p, p ∈ merge_paths paths ↔ p ∈ paths)
  ∧ merge_paths paths `sublist_of` paths
  ∧ (NoDup paths → merge_paths paths = paths)
  ∧ merge_paths (merge_paths paths) = merge_paths paths.
Proof. apply merge_paths_spec. Qed.

End PathFacts.

(** * The routing loop *)

Module RoutingLoopFacts.
Import Router RouterSpec Obstacles.

(** Routing reads the router through its grid size and its obstacles
    only. *)
Lemma route_two_pins_router g o ws ws' fuel a b :
  route_two_pins (mkRouter g o ws) fuel a b = route_two_pins (mkRouter g o ws') fuel a b.
Proof. reflexivity. Qed.

Lemma route_multi_pins_router g o ws ws' fuel pins :
  route_multi_pins (mkRouter g o ws) fuel pins
  = route_multi_pins (mkRouter g o ws') fuel pins.
Proof. reflexivity. Qed.

Lemma segments_router g o ws ws' pth :
  segments (mkRouter g o ws) pth = segments (mkRouter g o ws') pth.
Proof.
  induction pth as [|a [|b tl] IH]; [done|done|].
  change (segments ?r (a :: b :: tl))
    with ((to_grid r a, to_grid r b) :: segments r (b :: tl)).
  by rewrite IH.
Qed.

Lemma route_net_router r self fuel net comps :
  grid_size r = grid_size self → obstacles r = obstacles self →
  route_net r fuel net comps
  = '(wire, _) ← route_net self fuel net comps;
    Some (wire, mkRouter (grid_size self) (obstacles self)
                  (wire_segments r ++ segments self (path wire))).
Proof.
  destruct r as [g o ws], self as [g' o' ws']. simpl. intros -> ->.
  unfold route_net. case_bool_decide.
  - simpl. by rewrite app_nil_r.
  - cbn [grid_size obstacles wire_segments].
    set (pins := pin_positions_of net comps).
    assert ((match pins with
             | [p; q] => route_two_pins (mkRouter g' o' ws) fuel p q
             | _ => route_multi_pins (mkRouter g' o' ws) fuel pins
             end)
            = (match pins with
               | [p; q] => route_two_pins (mkRouter g' o' ws') fuel p q
               | _ => route_multi_pins (mkRouter g' o' ws') fuel pins
               end)) as -> by reflexivity.
    destruct (match pins with
              | [p; q] => route_two_pins (mkRouter g' o' ws') fuel p q
              | _ => route_multi_pins (mkRouter g' o' ws') fuel pins
              end) as [pth|]; [|done].
    simpl. by rewrite (segments_router g' o' ws ws').
Qed.

Lemma route_nets_fold self fuel comps nets : ∀ wires r,
  grid_size r = grid_size self → obstacles r = obstacles self →
  foldl (λ acc net,
           '(wires, router) ← acc;
           '(wire, router) ← route_net router fuel net comps;
           Some (wires ++ [wire], router))
        (Some (wires, r)) nets
  = more ← mapM (λ net, fst <$> route_net self fuel net comps) nets;
    Some (wires ++ more,
          mkRouter (grid_size self) (obstacles self)
                   (wire_segments r ++ (more ≫= λ w, segments self (path w)))).
Proof.
  induction nets as [|net nets IH]; intros wires r Hg Ho.
  - simpl. rewrite !app_nil_r. destruct r. simpl in *. by subst.
  - cbn [foldl]. cbn [mbind option_bind].
    rewrite (route_net_router r self) by done.
    cbn [mapM]. destruct (route_net self fuel net comps) as [[wire r']|] eqn:E.
    + cbn [mbind option_bind fmap option_fmap option_map fst].
      rewrite IH by done. cbn [wire_segments].
      destruct (mapM (λ net0, fst <$> route_net self fuel net0 comps) nets) as [more|];
        [|done].
      cbn [mbind option_bind mret option_ret]. simpl.
      by rewrite <- !(assoc_L (++)).
    + simpl. clear. induction nets as [|n ns IHn]; [done|]. simpl. apply IHn.
Qed.

(** X8: in the loop that routes the nets one after the other, every net
    gets the wire that [route_net] gives it on the router as it was before
    the loop: routing a net changes neither the obstacles nor the grid, it
    only appends the segments of the wire to [wire_segments].  The loop
    fails exactly when one of the nets fails alone. *)
Theorem route_nets_independent (self : ManhattanRouter) (fuel : nat)
    (nets : list NetDict) (comps : list PlacedDict) :
  route_nets self fuel nets comps
  = wires ← mapM (λ net, fst <$> route_net self fuel net comps) nets;
    Some (wires,
          mkRouter (grid_size self) (obstacles self)
                   (wire_segments self ++ (wires ≫= λ w, segments self (path w)))).
Proof. unfold route_nets. by rewrite (route_nets_fold self). Qed.

End RoutingLoopFacts.

(** * The heap under two orders that agree on its entries *)

Module HeapqExt.
Section Ext.

Context {A : Type} (lt1 lt2 : A → A → bool) (P : A → Prop).
Hypothesis agree : ∀ x y, P x → P y → lt1 x y = lt2 x y.

Lemma siftdown_loop_ext fuel : ∀ heap startpos pos newitem,
  Forall P heap → P newitem →
  Heapq.siftdown_loop lt1 fuel heap startpos pos newitem
  = Heapq.siftdown_loop lt2 fuel heap startpos pos newitem.
Proof.
  induction fuel as [|fuel IH]; intros heap startpos pos newitem Hheap Hnew; [done|].
  cbn [Heapq.siftdown_loop]. case_bool_decide; [|done].
  destruct (heap !! Nat.div2 (pos - 1)) as [par|] eqn:Hpar; [|done].
  assert (P par) as Hp by (by eapply (Forall_lookup_1 P heap)).
  rewrite (agree newitem par) by done.
  destruct (lt2 newitem par); [|done].
  apply IH; [|done]. by apply Forall_insert.
Qed.

Lemma siftdown_loop_Forall lt fuel : ∀ heap startpos pos newitem,
  Forall P heap → P newitem →
  Forall P (Heapq.siftdown_loop lt fuel heap startpos pos newitem).
Proof.
  induction fuel as [|fuel IH]; intros heap startpos pos newitem Hheap Hnew.
  - by apply Forall_insert.
  - cbn [Heapq.siftdown_loop]. case_bool_decide; [|by apply Forall_insert].
    destruct (heap !! Nat.div2 (pos - 1)) as [par|] eqn:Hpar; [|by apply Forall_insert].
    assert (P par) as Hp by (by eapply (Forall_lookup_1 P heap)).
    destruct (lt newitem par); [|by apply Forall_insert].
    apply IH; [|done]. by apply Forall_insert.
Qed.

Lemma siftdown_ext heap startpos pos :
  Forall P heap →
  Heapq.siftdown lt1 heap startpos pos = Heapq.siftdown lt2 heap startpos pos.
Proof.
  intros Hheap. unfold Heapq.siftdown.
  destruct (heap !! pos) as [newitem|] eqn:E; [|done].
  apply siftdown_loop_ext; [done|]. by eapply (Forall_lookup_1 P heap).
Qed.

Lemma siftup_loop_ext fuel : ∀ heap endpos pos,
  Forall P heap →
  Heapq.siftup_loop lt1 fuel heap endpos pos = Heapq.siftup_loop lt2 fuel heap endpos pos
  ∧ Forall P (Heapq.siftup_loop lt2 fuel heap endpos pos).1.
Proof.
  induction fuel as [|fuel IH]; intros heap endpos pos Hheap; [done|].
  cbn [Heapq.siftup_loop]. case_bool_decide; [|done].
  assert ((match heap !! (2 * pos + 1)%nat, heap !! (2 * pos + 1 + 1)%nat with
           | Some l, Some r =>
               if bool_decide (2 * pos + 1 + 1 < endpos)%nat && negb (lt1 l r)
               then (2 * pos + 1 + 1)%nat else (2 * pos + 1)%nat
           | _, _ => (2 * pos + 1)%nat
           end)
          = (match heap !! (2 * pos + 1)%nat, heap !! (2 * pos + 1 + 1)%nat with
             | Some l, Some r =>
                 if bool_decide (2 * pos + 1 + 1 < endpos)%nat && negb (lt2 l r)
                 then (2 * pos + 1 + 1)%nat else (2 * pos + 1)%nat
             | _, _ => (2 * pos + 1)%nat
             end)) as ->.
  { destruct (heap !! (2 * pos + 1)%nat) as [l|] eqn:El; [|done].
    destruct (heap !! (2 * pos + 1 + 1)%nat) as [r|] eqn:Er; [|done].
    rewrite (agree l r); [done| |]; by eapply (Forall_lookup_1 P heap). }
  match goal with
  | |- context [heap !! ?c] =>
      destruct (heap !! c) as [child|] eqn:Ec; [|done]
  end.
  apply IH. apply Forall_insert; [done|]. by eapply (Forall_lookup_1 P heap).
Qed.

Lemma heappush_ext heap item :
  Forall P heap → P item →
  Heapq.heappush lt1 heap item = Heapq.heappush lt2 heap item.
Proof.
  intros Hheap Hitem. unfold Heapq.heappush. apply siftdown_ext.
  apply Forall_app. split; [done|]. by apply Forall_singleton.
Qed.

Lemma heappop_ext heap :
  Forall P heap → Heapq.heappop lt1 heap = Heapq.heappop lt2 heap.
Proof.
  intros Hheap. unfold Heapq.heappop.
  destruct (last heap) as [lastelt|] eqn:Hlast; [|done].
  apply last_Some in Hlast as [l ->]. rewrite removelast_last.
  apply Forall_app in Hheap as [Hl Hlast]. rewrite Forall_singleton in Hlast.
  destruct l as [|returnitem rest]; [done|].
  f_equal. f_equal. unfold Heapq.siftup.
  change (<[0%nat := lastelt]> (returnitem :: rest)) with (lastelt :: rest).
  change ((lastelt :: rest) !! 0%nat) with (Some lastelt).
  apply Forall_cons in Hl as [_ Hrest].
  assert (Forall P (lastelt :: rest)) as Hh by (by apply Forall_cons).
  destruct (siftup_loop_ext (length (lastelt :: rest)) (lastelt :: rest)
              (length (lastelt :: rest)) 0 Hh) as [E HP].
  rewrite E.
  destruct (Heapq.siftup_loop lt2 (length (lastelt :: rest)) (lastelt :: rest)
              (length (lastelt :: rest)) 0) as [heap' pos'].
  apply siftdown_ext. by apply Forall_insert.
Qed.

End Ext.
End HeapqExt.

(** * The spanning tree of [_build_mst] *)

Module MstFacts.
Import Router RouterSpec MstSpec.

Section Pins.

Variable pins : list Pos.

Local Abbreviation n := (length pins).
Local Abbreviation key := (edge_key (length pins)).
Local Abbreviation dist i j := (manhattan_distance (pin_at pins i) (pin_at pins j)).

Lemma edge_lt_key a b :
  candidate_ok pins a → candidate_ok pins b →
  edge_lt a b = HeapqSpec.key_lt key a b.
Proof.
  destruct a as [[d1 i1] j1], b as [[d2 i2] j2].
  intros (Hi1 & Hj1 & _) (Hi2 & Hj2 & _).
  unfold edge_lt, HeapqSpec.key_lt, edge_key.
  apply Bool.eq_iff_eq_true.
  rewrite !orb_true_iff, !andb_true_iff, !orb_true_iff, !andb_true_iff,
    !bool_decide_eq_true.
  assert (0 ≤ Z.of_nat i1 * Z.of_nat n + Z.of_nat j1 < Z.of_nat n * Z.of_nat n) by nia.
  assert (0 ≤ Z.of_nat i2 * Z.of_nat n + Z.of_nat j2 < Z.of_nat n * Z.of_nat n) by nia.
  split.
  - intros [Hd|[-> [Hi|[-> Hj]]]]; nia.
  - intros Hk.
    destruct (Z.lt_trichotomy d1 d2) as [?|[->|?]]; [by left| |nia].
    right. split; [done|].
    destruct (Nat.lt_trichotomy i1 i2) as [?|[->|?]]; [by left| |nia].
    right. split; [done|]. lia.
Qed.

Lemma push_candidate cand e :
  HeapqSpec.is_heap key cand → Forall (candidate_ok pins) cand → candidate_ok pins e →
  HeapqSpec.is_heap key (Heapq.heappush edge_lt cand e)
  ∧ Forall (candidate_ok pins) (Heapq.heappush edge_lt cand e)
  ∧ Heapq.heappush edge_lt cand e ≡ₚ e :: cand.
Proof.
  intros Hheap Hok He.
  rewrite (HeapqExt.heappush_ext edge_lt (HeapqSpec.key_lt key) (candidate_ok pins)
             edge_lt_key cand e Hok He).
  destruct (HeapqFacts.heappush_spec key cand e Hheap) as [H1 H2].
  split; [done|]. split; [|done]. rewrite H2. by apply Forall_cons.
Qed.

Lemma pop_candidate cand :
  HeapqSpec.is_heap key cand → Forall (candidate_ok pins) cand → cand ≠ [] →
  ∃ e cand', Heapq.heappop edge_lt cand = Some (e, cand')
             ∧ cand ≡ₚ e :: cand'
             ∧ HeapqSpec.is_heap key cand'
             ∧ Forall (candidate_ok pins) cand'
             ∧ candidate_ok pins e
             ∧ ∀ y, y ∈ cand → key e ≤ key y.
Proof.
  intros Hheap Hok Hne.
  rewrite (HeapqExt.heappop_ext edge_lt (HeapqSpec.key_lt key) (candidate_ok pins)
             edge_lt_key cand Hok).
  destruct (HeapqFacts.heappop_spec key cand Hheap Hne) as (e & cand' & E & Hperm & Hh & Hmin).
  exists e, cand'. rewrite Hperm in Hok. apply Forall_cons in Hok as [He Hok'].
  split_and!; done.
Qed.

(** The key orders the candidates by distance first. *)
Lemma key_le_distance d1 i1 j1 d2 i2 j2 :
  candidate_ok pins (d1, i1, j1) → candidate_ok pins (d2, i2, j2) →
  key (d1, i1, j1) ≤ key (d2, i2, j2) → d1 ≤ d2.
Proof.
  intros (Hi1 & Hj1 & _) (Hi2 & Hj2 & _). unfold edge_key.
  assert (0 ≤ Z.of_nat i1 * Z.of_nat n + Z.of_nat j1 < Z.of_nat n * Z.of_nat n) by nia.
  assert (0 ≤ Z.of_nat i2 * Z.of_nat n + Z.of_nat j2 < Z.of_nat n * Z.of_nat n) by nia.
  nia.
Qed.

(** ** The pushes after a pin has been visited *)

Lemma push_loop (visited : gset nat) j ks : ∀ cand,
  (j < n)%nat → (∀ k, k ∈ ks → (k < n)%nat) →
  HeapqSpec.is_heap key cand → Forall (candidate_ok pins) cand →
  let cand' :=
    foldl (λ cand k,
             if bool_decide (k ∉ visited)
             then Heapq.heappush edge_lt cand (dist j k, j, k)
             else cand)
          cand ks in
  HeapqSpec.is_heap key cand'
  ∧ Forall (candidate_ok pins) cand'
  ∧ cand' ≡ₚ ((λ k, (dist j k, j, k)) <$> filter (λ k, k ∉ visited) ks) ++ cand.
Proof.
  induction ks as [|k ks IH]; intros cand Hj Hks Hheap Hok; [done|].
  cbn [foldl]. rewrite filter_cons. case_bool_decide as Hk.
  - destruct (push_candidate cand (dist j k, j, k)) as (H1 & H2 & H3); [done|done| |].
    { split; [done|]. split; [|done]. apply Hks. left. }
    destruct (IH (Heapq.heappush edge_lt cand (dist j k, j, k))) as (H4 & H5 & H6);
      [done| |done|done|].
    { intros k' Hk'. apply Hks. by right. }
    split; [done|]. split; [done|]. cbv zeta in H6. rewrite H6, H3.
    rewrite decide_True by done. rewrite fmap_cons. simpl.
    by rewrite <- Permutation_middle.
  - rewrite decide_False by (intros Hnot; by apply Hnot). apply IH; try done.
    intros k' Hk'. apply Hks. by right.
Qed.

Lemma first_candidates_spec :
  HeapqSpec.is_heap key (first_candidates pins)
  ∧ Forall (candidate_ok pins) (first_candidates pins)
  ∧ first_candidates pins ≡ₚ (λ j, (dist 0 j, 0%nat, j)) <$> seq 1 (n - 1).
Proof.
  unfold first_candidates.
  assert (∀ ks cand,
            (∀ k, k ∈ ks → (0 < n)%nat ∧ (k < n)%nat) →
            HeapqSpec.is_heap key cand → Forall (candidate_ok pins) cand →
            let cand' :=
              foldl (λ cand j, Heapq.heappush edge_lt cand (dist 0 j, 0%nat, j)) cand ks in
            HeapqSpec.is_heap key cand' ∧ Forall (candidate_ok pins) cand'
            ∧ cand' ≡ₚ ((λ j, (dist 0 j, 0%nat, j)) <$> ks) ++ cand) as Hgen.
  { induction ks as [|k ks IH]; intros cand Hks Hheap Hok; [done|].
    cbn [foldl].
    destruct (push_candidate cand (dist 0 k, 0%nat, k)) as (H1 & H2 & H3); [done|done| |].
    { destruct (Hks k) as [? ?]; [left|]. split; [done|]. split; done. }
    destruct (IH (Heapq.heappush edge_lt cand (dist 0 k, 0%nat, k))) as (H4 & H5 & H6);
      [|done|done|].
    { intros k' Hk'. apply Hks. by right. }
    split; [done|]. split; [done|]. cbv zeta in H6. rewrite H6, H3, fmap_cons. simpl.
    by rewrite <- Permutation_middle. }
  destruct (Hgen (seq 1 (n - 1)) []) as (H1 & H2 & H3).
  - intros k Hk%elem_of_seq. lia.
  - intros i Hi x y Hx. by rewrite lookup_nil in Hx.
  - done.
  - split; [done|]. split; [done|]. cbv zeta in H3. by rewrite app_nil_r in H3.
Qed.

(** ** Trees that grow by one edge *)

Lemma grows_from_snoc edges : ∀ seen i j,
  grows_from seen (edges ++ [(i, j)])
  ↔ grows_from seen edges
    ∧ i ∈ seen ∪ list_to_set (edges.*2)
    ∧ j ∉ seen ∪ list_to_set (edges.*2).
Proof.
  induction edges as [|[a b] edges IH]; intros seen i j.
  - simpl. rewrite (right_id_L ∅ (∪)). tauto.
  - cbn [app grows_from fmap list_fmap snd list_to_set]. rewrite IH.
    replace ({[b]} ∪ seen ∪ list_to_set (edges.*2) : gset nat)
      with (seen ∪ ({[b]} ∪ list_to_set (edges.*2)) : gset nat) by set_solver.
    tauto.
Qed.

Lemma lightest_first_snoc edges : ∀ seen i j,
  lightest_first pins seen (edges ++ [(i, j)])
  ↔ lightest_first pins seen edges
    ∧ ∀ a b, a ∈ seen ∪ list_to_set (edges.*2) →
             b ∉ seen ∪ list_to_set (edges.*2) → (b < n)%nat →
             dist i j ≤ dist a b.
Proof.
  induction edges as [|[a b] edges IH]; intros seen i j.
  - simpl. rewrite (right_id_L ∅ (∪)). tauto.
  - cbn [app lightest_first fmap list_fmap snd list_to_set]. rewrite IH.
    replace ({[b]} ∪ seen ∪ list_to_set (edges.*2) : gset nat)
      with (seen ∪ ({[b]} ∪ list_to_set (edges.*2)) : gset nat) by set_solver.
    tauto.
Qed.

Lemma grows_from_size edges : ∀ seen,
  grows_from seen edges →
  size (seen ∪ list_to_set (edges.*2)) = (size seen + length edges)%nat.
Proof.
  induction edges as [|[a b] edges IH]; intros seen Hg.
  - simpl. rewrite (right_id_L ∅ (∪)). lia.
  - destruct Hg as (Ha & Hb & Hg). cbn [fmap list_fmap snd list_to_set length].
    replace (seen ∪ ({[b]} ∪ list_to_set (edges.*2)) : gset nat)
      with ({[b]} ∪ seen ∪ list_to_set (edges.*2) : gset nat) by set_solver.
    rewrite (IH _ Hg). rewrite size_union by set_solver. rewrite size_singleton. lia.
Qed.

Lemma grows_from_range edges : ∀ seen i j,
  grows_from seen edges → (i, j) ∈ edges →
  i ∈ seen ∪ list_to_set (edges.*2) ∧ j ∈ (list_to_set (edges.*2) : gset nat).
Proof.
  induction edges as [|[a b] edges IH]; intros seen i j Hg Hin.
  - by apply elem_of_nil in Hin.
  - destruct Hg as (Ha & Hb & Hg). cbn [fmap list_fmap snd list_to_set].
    apply elem_of_cons in Hin as [[= -> ->]|Hin]; [set_solver|].
    destruct (IH _ i j Hg Hin) as [H1 H2]. set_solver.
Qed.

Lemma unvisited_pin (visited : gset nat) :
  (size visited < n)%nat → ∃ b, (b < n)%nat ∧ b ∉ visited.
Proof.
  intros Hsize.
  destruct (decide (Forall (λ b, b ∈ visited) (seq 0 n))) as [Hall|Hex].
  - exfalso.
    assert (list_to_set (seq 0 n) ⊆ visited) as Hsub.
    { intros b Hb%elem_of_list_to_set. by apply (proj1 (Forall_forall _ _) Hall). }
    apply subseteq_size in Hsub.
    rewrite size_list_to_set in Hsub by apply NoDup_seq.
    rewrite length_seq in Hsub. lia.
  - apply not_Forall_Exists in Hex; [|apply _].
    apply Exists_exists in Hex as (b & Hb%elem_of_seq & Hnot).
    exists b. split; [lia|done].
Qed.

(** ** The loop *)

Local Abbreviation spanning := (spanning pins).

Lemma mst_loop_spec k : ∀ visited edges cand,
  (0 < n)%nat →
  mst_inv pins visited edges cand →
  (mst_turns_left pins visited cand < k)%nat →
  ∃ r, spanning r
       ∧ ∀ fuel, (k ≤ fuel)%nat → mst_loop fuel pins visited edges cand = r.
Proof.
  induction k as [|k IH]; intros visited edges cand Hn Hinv Hk; [lia|].
  destruct Hinv as [Hheap Hok Hfrom Hvis Hrange Htree Hlight Hcross].
  pose proof (grows_from_size edges {[0%nat]} Htree) as Hsize.
  rewrite <- Hvis, size_singleton in Hsize.
  destruct (decide (size visited < n)%nat) as [Hless|Hfull].
  - destruct (unvisited_pin visited Hless) as (b & Hb & Hbv).
    assert (0%nat ∈ visited) as H0 by (rewrite Hvis; set_solver).
    pose proof (Hcross 0%nat b H0 Hbv Hb) as Hcand.
    assert (cand ≠ []) as Hne by (intros ->; by apply elem_of_nil in Hcand).
    destruct (pop_candidate cand Hheap Hok Hne)
      as ([[d i] j] & cand' & Hpop & Hperm & Hheap' & Hok' & He & Hmin).
    assert (i ∈ visited) as Hi by (apply (Hfrom d i j); rewrite Hperm; left).
    destruct He as (Hin & Hjn & Hd).
    destruct (decide (j ∈ visited)) as [Hj|Hj].
    + (* a stale candidate *)
      destruct (IH visited edges cand') as (r & Hr & Hfuel); [done| |..].
      * constructor; try done.
        -- intros d' i' j' H'. apply (Hfrom d' i' j'). rewrite Hperm. by right.
        -- intros a b' Ha Hb' Hbn. pose proof (Hcross a b' Ha Hb' Hbn) as H'.
           rewrite Hperm in H'. apply elem_of_cons in H' as [[= _ _ <-]|H']; done.
      * unfold mst_turns_left in *. rewrite Hperm in Hk. simpl in Hk. lia.
      * exists r. split; [done|]. intros [|fuel] Hf; [lia|].
        cbn [mst_loop]. rewrite bool_decide_eq_true_2 by done. rewrite Hpop.
        rewrite bool_decide_eq_true_2 by done. apply Hfuel. lia.
    + (* a new pin *)
      set (visited' := ({[j]} ∪ visited : gset nat)).
      destruct (push_loop visited' j (seq 0 n) cand') as (Hheap2 & Hok2 & Hperm2);
        [done|intros x Hx%elem_of_seq; lia|done|done|].
      cbv zeta in Hheap2, Hok2, Hperm2.
      set (cand2 := foldl (λ cand k0,
                             if bool_decide (k0 ∉ visited')
                             then Heapq.heappush edge_lt cand (dist j k0, j, k0)
                             else cand) cand' (seq 0 n)) in *.
      destruct (IH visited' (edges ++ [(i, j)]) cand2) as (r & Hr & Hfuel); [done| |..].
      * constructor.
        -- done.
        -- done.
        -- intros d' i' j' H'. rewrite Hperm2 in H'.
           apply elem_of_app in H' as [H'|H'].
           ++ apply list_elem_of_fmap in H' as (x & [= _ -> _] & _).
              apply elem_of_union_l, elem_of_singleton. done.
           ++ apply elem_of_union_r. apply (Hfrom d' i' j'). rewrite Hperm. by right.
        -- rewrite fmap_app, list_to_set_app_L. simpl. subst visited'.
           rewrite Hvis. set_solver.
        -- intros x [->%elem_of_singleton|Hx]%elem_of_union; [done|by apply Hrange].
        -- apply grows_from_snoc. rewrite <- Hvis. done.
        -- apply lightest_first_snoc. split; [done|]. rewrite <- Hvis.
           intros a b' Ha Hb' Hbn.
           pose proof (Hcross a b' Ha Hb' Hbn) as H'.
           specialize (Hmin _ H').
           apply (key_le_distance) in Hmin; [by rewrite Hd in Hmin| |].
           ++ split; [done|]. split; done.
           ++ split; [by apply Hrange|]. split; done.
        -- intros a b' Ha Hb' Hbn. rewrite Hperm2.
           apply elem_of_union in Ha as [->%elem_of_singleton|Ha].
           ++ apply elem_of_app. left. apply list_elem_of_fmap.
              exists b'. split; [done|]. apply list_elem_of_filter.
              split; [done|]. apply elem_of_seq. lia.
           ++ apply elem_of_app. right.
              assert (b' ∉ visited) as Hb2 by (intros ?; apply Hb'; by apply elem_of_union_r).
              pose proof (Hcross a b' Ha Hb2 Hbn) as H'. rewrite Hperm in H'.
              apply elem_of_cons in H' as [[= _ _ ->]|H']; [|done].
              exfalso. apply Hb'. apply elem_of_union_l, elem_of_singleton. done.
      * unfold mst_turns_left in *. rewrite Hperm in Hk. simpl in Hk.
        rewrite Hperm2, length_app, length_fmap.
        assert (length (filter (λ k0, k0 ∉ visited') (seq 0 n)) < n)%nat as Hpush.
        { pose proof (length_filter_lt (λ k0, k0 ∉ visited') (seq 0 n) j) as H'.
          rewrite length_seq in H'. apply H'.
          - apply elem_of_seq. lia.
          - intros Hnot. apply Hnot. apply elem_of_union_l, elem_of_singleton. done. }
        subst visited'. rewrite size_union by set_solver. rewrite size_singleton.
        nia.
      * exists r. split; [done|]. intros [|fuel] Hf; [lia|].
        cbn [mst_loop]. rewrite bool_decide_eq_true_2 by done. rewrite Hpop.
        rewrite bool_decide_eq_false_2 by done. apply Hfuel. lia.
  - exists edges. split.
    + assert (size visited ≤ n)%nat as Hle.
      { assert (visited ⊆ list_to_set (seq 0 n)) as Hsub.
        { intros x Hx. apply elem_of_list_to_set, elem_of_seq. specialize (Hrange x Hx). lia. }
        apply subseteq_size in Hsub.
        rewrite size_list_to_set in Hsub by apply NoDup_seq.
        by rewrite length_seq in Hsub. }
      split; [done|]. split; [done|]. split; [lia|].
      intros i j Hij. destruct (grows_from_range edges _ i j Htree Hij) as [H1 H2].
      split; apply Hrange; rewrite Hvis; [done|by apply elem_of_union_r].
    + intros [|fuel] Hf; [lia|]. cbn [mst_loop].
      by rewrite bool_decide_eq_false_2.
Qed.

Lemma mst_init :
  (0 < n)%nat → mst_inv pins {[ 0%nat ]} [] (first_candidates pins).
Proof.
  intros Hn. destruct first_candidates_spec as (Hheap & Hok & Hperm).
  constructor.
  - done.
  - done.
  - intros d i j H. rewrite Hperm in H.
    apply list_elem_of_fmap in H as (x & [= _ -> _] & _).
    by apply elem_of_singleton.
  - simpl. by rewrite (right_id_L ∅ (∪)).
  - intros x ->%elem_of_singleton. done.
  - done.
  - done.
  - intros a b ->%elem_of_singleton Hb Hbn. rewrite Hperm.
    apply list_elem_of_fmap. exists b. split; [done|].
    apply elem_of_seq.
    assert (b ≠ 0%nat) by (intros ->; apply Hb; by apply elem_of_singleton).
    lia.
Qed.

Lemma build_mst_spec :
  ∃ r, spanning r
       ∧ build_mst pins = r
       ∧ ((1 < n)%nat → ∀ fuel, (n * n ≤ fuel)%nat →
             mst_loop fuel pins {[ 0%nat ]} [] (first_candidates pins) = r).
Proof.
  unfold build_mst. case_bool_decide as Hn.
  - exists []. split; [|split; [done|lia]].
    split; [done|]. split; [done|]. split; [simpl; lia|].
    intros i j H. by apply elem_of_nil in H.
  - destruct (mst_loop_spec (n * n) {[0%nat]} [] (first_candidates pins))
      as (r & Hr & Hfuel); [lia|apply mst_init; lia| |].
    + unfold mst_turns_left. destruct first_candidates_spec as (_ & _ & Hperm).
      rewrite Hperm, length_fmap, length_seq, size_singleton. nia.
    + exists r. split; [done|]. split; [|intros _; exact Hfuel].
      apply Hfuel. lia.
Qed.

End Pins.
End MstFacts.

(** * Multi-pin nets *)

Module MultiPinFacts.
Import Router RouterSpec MstSpec.

Lemma grows_from_NoDup edges : ∀ seen,
  grows_from seen edges → NoDup (edges.*2) ∧ ∀ j, j ∈ edges.*2 → j ∉ seen.
Proof.
  induction edges as [|[a b] edges IH]; intros seen Hg.
  - split; [apply NoDup_nil_2|]. intros j H. by apply elem_of_nil in H.
  - destruct Hg as (Ha & Hb & Hg). destruct (IH _ Hg) as [Hnd Hout].
    cbn [fmap list_fmap snd]. split.
    + apply NoDup_cons. split; [|done]. intros Hin.
      apply (Hout b Hin). apply elem_of_union_l, elem_of_singleton. done.
    + intros j [->|Hj]%elem_of_cons; [done|].
      intros Hs. apply (Hout j Hj). by apply elem_of_union_r.
Qed.

Lemma build_mst_tree (pins : list Pos) :
  length (build_mst pins) = (length pins - 1)%nat
  ∧ grows_from {[ 0%nat ]} (build_mst pins)
  ∧ (∀ i j, (i, j) ∈ build_mst pins →
            (i < length pins)%nat ∧ (j < length pins)%nat)
  ∧ (∀ j, (0 < j < length pins)%nat → j ∈ (build_mst pins).*2)
  ∧ NoDup ((build_mst pins).*2)
  ∧ ((1 < length pins)%nat → ∀ fuel, (length pins * length pins ≤ fuel)%nat →
       mst_loop fuel pins {[ 0%nat ]} [] (first_candidates pins) = build_mst pins).
Proof.
  destruct (MstFacts.build_mst_spec pins) as (r & (Htree & _ & Hlen & Hrange) & -> & Hfuel).
  split_and!; try done.
  - intros j Hj.
    pose proof (MstFacts.grows_from_size r {[0%nat]} Htree) as Hsize.
    rewrite size_singleton, Hlen in Hsize.
    assert (({[0%nat]} ∪ list_to_set (r.*2) : gset nat) = list_to_set (seq 0 (length pins)))
      as Heq.
    { apply set_subseteq_size_eq.
      - intros x [->%elem_of_singleton|Hx%elem_of_list_to_set]%elem_of_union;
          apply elem_of_list_to_set, elem_of_seq; [lia|].
        apply list_elem_of_fmap in Hx as ([a b] & -> & Hab).
        destruct (Hrange a b Hab). simpl. lia.
      - rewrite size_list_to_set by apply NoDup_seq. rewrite length_seq. lia. }
    assert (j ∈ ({[0%nat]} ∪ list_to_set (r.*2) : gset nat)) as Hin.
    { rewrite Heq. apply elem_of_list_to_set, elem_of_seq. lia. }
    apply elem_of_union in Hin as [->%elem_of_singleton|Hin]; [lia|].
    by apply elem_of_list_to_set in Hin.
  - by apply (grows_from_NoDup r {[0%nat]}).
Qed.

(** X9: [_build_mst] returns a spanning tree grown from the first pin: one
    edge fewer than there are pins; every edge leaves a pin that is already
    in the tree and enters a new one; every pin but the first is entered
    exactly once.  The loop ends by its own condition: with more turns
    allowed it returns the same edges. *)
Theorem build_mst_spanning_tree (pins : list Pos) :
  length (build_mst pins) = (length pins - 1)%nat
  ∧ grows_from {[ 0%nat ]} (build_mst pins)
  ∧ (∀ i j, (i, j) ∈ build_mst pins →
            (i < length pins)%nat ∧ (j < length pins)%nat)
  ∧ (∀ j, (0 < j < length pins)%nat → j ∈ (build_mst pins).*2)
  ∧ NoDup ((build_mst pins).*2)
  ∧ ((1 < length pins)%nat → ∀ fuel, (length pins * length pins ≤ fuel)%nat →
       mst_loop fuel pins {[ 0%nat ]} [] (first_candidates pins) = build_mst pins).
Proof. apply build_mst_tree. Qed.

(** X10: the edges of [_build_mst] are chosen as in Prim's algorithm: each
    one is a lightest edge, by Manhattan distance, among all the pairs that
    join a pin of the tree built so far to a pin outside it. *)
Theorem build_mst_lightest_first (pins : list Pos) :
  lightest_first pins {[ 0%nat ]} (build_mst pins).
Proof.
  destruct (MstFacts.build_mst_spec pins) as (r & (_ & Hlight & _) & -> & _). done.
Qed.

(** ** The merged route *)

Lemma route_edges_fold self fuel pins edges : ∀ acc all_paths,
  foldl (λ acc '(i, j),
           all_paths ← acc;
           pth ← route_two_pins self fuel (pin_at pins i) (pin_at pins j);
           Some (all_paths ++ pth))
        (Some acc) edges = Some all_paths →
  (∀ p, p ∈ acc → p ∈ all_paths)
  ∧ ∀ i j, (i, j) ∈ edges →
      ∃ pth, route_two_pins self fuel (pin_at pins i) (pin_at pins j) = Some pth
             ∧ ∀ p, p ∈ pth → p ∈ all_paths.
Proof.
  induction edges as [|[a b] edges IH]; intros acc all_paths H.
  - simpl in H. injection H as <-. split; [done|].
    intros i j Hij. by apply elem_of_nil in Hij.
  - cbn [foldl] in H. cbn [mbind option_bind] in H.
    destruct (route_two_pins self fuel (pin_at pins a) (pin_at pins b)) as [pth|] eqn:E.
    + cbn [mbind option_bind] in H. destruct (IH _ _ H) as [Hacc Hedges]. split.
      * intros p Hp. apply Hacc, elem_of_app. by left.
      * intros i j [[= -> ->]|Hij]%elem_of_cons; [|by apply Hedges].
        exists pth. split; [done|]. intros p Hp. apply Hacc, elem_of_app. by right.
    + exfalso. cbn [mbind option_bind] in H. clear -H.
      induction edges as [|[c d] edges IHe]; [done|]. apply IHe. exact H.
Qed.

Lemma route_multi_pins_visit (self : ManhattanRouter) (fuel : nat)
    (pins pth : list Pos) :
  grid_size self ≠ 0 →
  route_multi_pins self fuel pins = Some pth →
  (∀ p, p ∈ pins → from_grid self (to_grid self p) ∈ pth)
  ∧ ((3 ≤ length pins)%nat → NoDup pth).
Proof.
  intros Hg H.
  destruct pins as [|p0 [|p1 [|p2 rest]]]; [done| | |].
  - simpl in H.
    destruct (PolylineFacts.two_pin_route_is_polyline self fuel p0 p0 pth Hg H)
      as (_ & Hhead & _).
    split; [|simpl; lia]. intros p ->%list_elem_of_singleton.
    by apply head_Some_elem_of.
  - simpl in H.
    destruct (PolylineFacts.two_pin_route_is_polyline self fuel p0 p1 pth Hg H)
      as (_ & Hhead & Hlast).
    split; [|simpl; lia].
    intros p [->|Hp%list_elem_of_singleton]%elem_of_cons;
      [by apply head_Some_elem_of|subst; by apply last_Some_elem_of].
  - assert (3 ≤ length (p0 :: p1 :: p2 :: rest))%nat as Hthree by (simpl; lia).
    change (route_multi_pins self fuel (p0 :: p1 :: p2 :: rest))
      with (all_paths ←
              foldl (λ acc '(i, j),
                       all_paths ← acc;
                       pth ← route_two_pins self fuel
                               (pin_at (p0 :: p1 :: p2 :: rest) i)
                               (pin_at (p0 :: p1 :: p2 :: rest) j);
                       Some (all_paths ++ pth))
                    (Some []) (build_mst (p0 :: p1 :: p2 :: rest));
            Some (merge_paths all_paths)) in H.
    remember (p0 :: p1 :: p2 :: rest) as pins eqn:Epins. clear Epins.
    destruct (foldl _ (Some []) (build_mst pins)) as [all_paths|] eqn:E; [|done].
    cbn [mbind option_bind] in H. injection H as <-.
    destruct (route_edges_fold self fuel pins _ _ _ E) as [_ Hedges].
    destruct (PathFacts.merge_paths_spec all_paths) as (Hnd & Hsame & _).
    split; [|done].
    destruct (build_mst_tree pins) as (Hlen & Htree & Hrange & Hall & _).
    intros p [k Hk]%list_elem_of_lookup. apply Hsame.
    assert (pin_at pins k = p) as Hp.
    { unfold pin_at. destruct (pins !! k) as [p'|] eqn:Ek; [|done]. simpl. congruence. }
    destruct (decide (k = 0%nat)) as [->|Hk0].
    + destruct (build_mst pins) as [|[i j] edges] eqn:Em; [simpl in Hlen; lia|].
      destruct Htree as (Hi%elem_of_singleton & _). subst i.
      destruct (Hedges 0%nat j) as (pth & Hroute & Hin); [left|].
      destruct (PolylineFacts.two_pin_route_is_polyline self fuel _ _ pth Hg Hroute)
        as (_ & Hhead & _).
      apply Hin. apply head_Some_elem_of. by rewrite Hhead, Hp.
    + assert (k ∈ (build_mst pins).*2) as Hin.
      { apply Hall. apply lookup_lt_Some in Hk. lia. }
      apply list_elem_of_fmap in Hin as ([i j] & -> & Hij).
      destruct (Hedges i j Hij) as (pth & Hroute & Hin).
      destruct (PolylineFacts.two_pin_route_is_polyline self fuel _ _ pth Hg Hroute)
        as (_ & _ & Hlast).
      apply Hin. apply last_Some_elem_of. simpl in Hp. by rewrite Hlast, Hp.
Qed.

End MultiPinFacts.

(** * The search returns, whatever the obstacles *)

Module TermFacts.
Import Router RouterSpec TraceSpec TermSpec.

Section Search.

Variable self : ManhattanRouter.
Variables start goal : Pos.

Local Abbreviation child := (AStarSpec.child self goal).
Local Abbreviation step_cost := (AStarSpec.step_cost self).
Local Abbreviation width := (AStarSpec.width start goal).
Local Abbreviation height := (AStarSpec.height start goal).
Local Abbreviation corner_cell := (corner_cell start goal).
Local Abbreviation estimate_bound := (estimate_bound start goal).
Local Abbreviation distance := (heuristic start goal).
Local Abbreviation region := (search_region start goal).

(** ** The walk round the corner *)

Lemma distance_sides : distance = width + height.
Proof. apply AStarFacts.heuristic_start. Qed.

Lemma sides_nonneg : 0 ≤ width ∧ 0 ≤ height.
Proof. unfold AStarSpec.width, AStarSpec.height. lia. Qed.

Lemma corner_cell_start : corner_cell 0 = start.
Proof.
  unfold TermSpec.corner_cell. pose proof sides_nonneg.
  replace (Z.min 0 width) with 0 by lia. replace (Z.max 0 (0 - width)) with 0 by lia.
  apply AStarFacts.cell_start.
Qed.

Lemma corner_cell_goal : corner_cell distance = goal.
Proof.
  unfold TermSpec.corner_cell. pose proof sides_nonneg. rewrite distance_sides.
  replace (Z.min (width + height) width) with width by lia.
  replace (Z.max 0 (width + height - width)) with height by lia.
  apply AStarFacts.cell_goal.
Qed.

Lemma corner_cell_next k :
  1 ≤ k ≤ distance → corner_cell k ∈ get_neighbors (corner_cell (k - 1)).
Proof.
  intros Hk. unfold TermSpec.corner_cell. pose proof sides_nonneg.
  rewrite distance_sides in Hk.
  destruct (Z.le_gt_cases k width) as [Hle|Hgt].
  - replace (Z.min k width) with (k - 1 + 1) by lia.
    replace (Z.min (k - 1) width) with (k - 1) by lia.
    replace (Z.max 0 (k - width)) with 0 by lia.
    replace (Z.max 0 (k - 1 - width)) with 0 by lia.
    apply AStarFacts.forward_x_neighbor.
  - replace (Z.min k width) with width by lia.
    replace (Z.min (k - 1) width) with width by lia.
    replace (Z.max 0 (k - width)) with (k - 1 - width + 1) by lia.
    replace (Z.max 0 (k - 1 - width)) with (k - 1 - width) by lia.
    apply AStarFacts.forward_y_neighbor.
Qed.

(** The first cell of the walk that is not expanded, up to the [j]-th. *)
Lemma first_open_cell (closed : gset Pos) (j : nat) :
  (∀ i, 0 ≤ i < Z.of_nat j → corner_cell i ∈ closed)
  ∨ ∃ k, 0 ≤ k < Z.of_nat j ∧ (corner_cell k ∉ closed)
         ∧ (k = 0 ∨ corner_cell (k - 1) ∈ closed).
Proof.
  induction j as [|j [IH|IH]].
  - left. lia.
  - destruct (decide (corner_cell (Z.of_nat j) ∈ closed)) as [Hin|Hout].
    + left. intros i Hi. destruct (decide (i = Z.of_nat j)) as [->|?]; [done|].
      apply IH. lia.
    + right. exists (Z.of_nat j). split; [lia|]. split; [done|].
      destruct j as [|j]; [by left|]. right. apply IH. lia.
  - right. destruct IH as (k & ? & ? & ?). exists k. split; [lia|]. done.
Qed.

Lemma step_cost_max m q : step_cost m q ≤ 203.
Proof.
  unfold AStarSpec.step_cost. case_bool_decide; destruct (parent m); try lia.
  all: destruct (is_direction_change _ _ _); lia.
Qed.

(** ** The region *)

Lemma region_elem p :
  p ∈ region
  ↔ goal.1 - radius start goal ≤ p.1 ≤ goal.1 + radius start goal
    ∧ goal.2 - radius start goal ≤ p.2 ≤ goal.2 + radius start goal.
Proof.
  unfold search_region. rewrite elem_of_list_to_set, list_elem_of_bind.
  split.
  - intros (x & (y & Hp & Hy%elem_of_seqZ)%list_elem_of_bind & Hx%elem_of_seqZ).
    apply list_elem_of_singleton in Hp as ->. simpl. lia.
  - intros [Hx Hy]. exists p.1. split; [|apply elem_of_seqZ; lia].
    apply list_elem_of_bind. exists p.2. split; [|apply elem_of_seqZ; lia].
    apply list_elem_of_singleton. by destruct p.
Qed.

Lemma near_goal_in_region p :
  2 * heuristic p goal ≤ estimate_bound distance → p ∈ region.
Proof.
  intros H. apply region_elem. unfold TermSpec.estimate_bound, radius, heuristic in *.
  lia.
Qed.

(** ** One neighbour *)

Lemma term_relax pending o closed gs m q :
  term_inv start goal (q :: pending) (position m) (mkAStar o closed gs) →
  f_score m = g_score m + 2 * heuristic (position m) goal → 0 ≤ g_score m →
  (∀ k, 1 ≤ k ≤ distance → corner_cell (k - 1) = position m →
        f_score m ≤ estimate_bound (k - 1)) →
  q ∈ get_neighbors (position m) →
  ∃ o' gs',
    relax self goal m closed (o, gs) q = (o', gs')
    ∧ term_inv start goal pending (position m) (mkAStar o' closed gs')
    ∧ (length o' ≤ length o + 1)%nat.
Proof.
  intros [Hheap Hgoal Hsound Hsc Hreg Hfront] Hfm Hgm Hbound Hq.
  simpl in *. rewrite AStarFacts.relax_unfold.
  pose proof (AStarFacts.heuristic_consistent goal _ _ Hq) as Hcons.
  pose proof (step_cost_max m q) as Hmax.
  pose proof (AStarFacts.step_cost_min self m q) as Hmin.
  case_bool_decide as Hclosed.
  { exists o, gs. split; [done|]. split; [|lia]. constructor; simpl; try done.
    intros k Hk Hout Hprev.
    destruct (Hfront k Hk Hout Hprev) as [(H1 & Hcur & Hin)|H]; [|by right].
    apply elem_of_cons in Hin as [Heq|Hin]; [|left; done].
    exfalso. apply Hout. by rewrite Heq. }
  destruct (match gs !! q with
            | Some g => bool_decide (g_score m + step_cost m q < g)
            | None => true
            end) eqn:Htest.
  - destruct (AStarFacts.push_spec o (child m q) Hheap) as [Hheap' Hperm].
    eexists _, _. split; [done|].
    assert (∀ n, n ∈ o → n ∈ Heapq.heappush node_lt o (child m q)) as Hsub
      by (intros n Hn; rewrite Hperm; by right).
    assert (child m q ∈ Heapq.heappush node_lt o (child m q)) as Hnew
      by (rewrite Hperm; left).
    split; [|rewrite Hperm; simpl; lia].
    constructor; simpl; try done.
    + intros n Hn. rewrite Hperm in Hn.
      apply elem_of_cons in Hn as [->|Hn]; [|by apply Hsound].
      simpl. split; lia.
    + intros q' g Hg. destruct (decide (q' = q)) as [->|Hne].
      * rewrite lookup_insert_eq in Hg. injection Hg as <-.
        right. by exists (child m q).
      * rewrite lookup_insert_ne in Hg by done.
        destruct (Hsc q' g Hg) as [?|(n & Hn & ?)]; [by left|right].
        exists n. split; [by apply Hsub|done].
    + intros k Hk Hout Hprev.
      destruct (Hfront k Hk Hout Hprev) as [(H1 & Hcur & Hin)|(n & Hn & ?)].
      * apply elem_of_cons in Hin as [Heq|Hin]; [|left; done].
        right. exists (child m q). split; [done|]. split; [by simpl|].
        simpl. specialize (Hbound k ltac:(lia) Hcur).
        unfold TermSpec.estimate_bound in *. lia.
      * right. exists n. split; [by apply Hsub|done].
  - destruct (gs !! q) as [g0|] eqn:Hg0; [|done].
    apply bool_decide_eq_false in Htest.
    exists o, gs. split; [done|]. split; [|lia]. constructor; simpl; try done.
    intros k Hk Hout Hprev.
    destruct (Hfront k Hk Hout Hprev) as [(H1 & Hcur & Hin)|H]; [|by right].
    apply elem_of_cons in Hin as [Heq|Hin]; [|left; done].
    right. destruct (Hsc q g0 Hg0) as [?|(n & Hn & Hpos & Hg)]; [done|].
    exists n. split; [done|]. split; [by rewrite Heq|].
    destruct (Hsound n Hn) as [Hf _]. rewrite Hf, Hpos, Hg.
    specialize (Hbound k ltac:(lia) Hcur).
    unfold TermSpec.estimate_bound in *. lia.
Qed.

Lemma term_relax_all closed m qs : ∀ o gs,
  term_inv start goal qs (position m) (mkAStar o closed gs) →
  f_score m = g_score m + 2 * heuristic (position m) goal → 0 ≤ g_score m →
  (∀ k, 1 ≤ k ≤ distance → corner_cell (k - 1) = position m →
        f_score m ≤ estimate_bound (k - 1)) →
  (∀ q, q ∈ qs → q ∈ get_neighbors (position m)) →
  ∃ o' gs',
    foldl (relax self goal m closed) (o, gs) qs = (o', gs')
    ∧ term_inv start goal [] (position m) (mkAStar o' closed gs')
    ∧ (length o' ≤ length o + length qs)%nat.
Proof.
  induction qs as [|q qs IH]; intros o gs Hinv Hfm Hgm Hbound Hqs.
  - exists o, gs. split; [done|]. split; [done|]. simpl. lia.
  - destruct (term_relax qs o closed gs m q Hinv Hfm Hgm Hbound)
      as (o1 & gs1 & E1 & Hinv1 & Hlen1).
    { apply Hqs. left. }
    destruct (IH o1 gs1 Hinv1 Hfm Hgm Hbound) as (o2 & gs2 & E2 & Hinv2 & Hlen2).
    { intros q' Hq'. apply Hqs. by right. }
    exists o2, gs2. simpl. rewrite E1. split; [done|]. split; [done|]. simpl. lia.
Qed.

(** ** One turn of the loop *)

Lemma term_step cur st :
  term_inv start goal [] cur st →
  (∃ r, astar_step self start goal st = Returned r)
  ∨ (∃ cur' st', astar_step self start goal st = Running st'
                 ∧ term_inv start goal [] cur' st'
                 ∧ (search_turns_left start goal st' < search_turns_left start goal st)%nat).
Proof.
  intros Hinv. unfold astar_step.
  destruct (decide (open_set st = [])) as [Hnil|Hne].
  { left. rewrite Hnil. by eexists. }
  destruct Hinv as [Hheap Hgoal Hsound Hsc Hreg Hfront].
  destruct (AStarFacts.pop_spec (open_set st) Hheap Hne)
    as (m & o' & Hpop & Hperm & Hheap' & Hmin).
  rewrite Hpop.
  assert (m ∈ open_set st) as Hm by (rewrite Hperm; left).
  assert (∀ n, n ∈ o' → n ∈ open_set st) as Hsub
    by (intros n Hn; rewrite Hperm; by right).
  assert (∀ n, n ∈ open_set st → n = m ∨ n ∈ o') as Hcases
    by (intros n Hn; rewrite Hperm in Hn; by apply elem_of_cons in Hn).
  assert (length (open_set st) = S (length o')) as Hlen by (by rewrite Hperm).
  case_bool_decide as Hatgoal; [left; by eexists|].
  right. case_bool_decide as Hclosed.
  - exists cur. eexists. split; [done|]. split.
    + constructor; simpl; try done.
      * intros n Hn. by apply Hsound, Hsub.
      * intros q g Hg. destruct (Hsc q g Hg) as [?|(n & Hn & Hq & ?)]; [by left|].
        destruct (Hcases _ Hn) as [->|?]; [left; by rewrite <- Hq|right; by exists n].
      * intros k Hk Hout Hprev.
        destruct (Hfront k Hk Hout Hprev) as [(_ & _ & H)|(n & Hn & Hpos & ?)].
        -- by apply elem_of_nil in H.
        -- right. destruct (Hcases _ Hn) as [->|?]; [|by exists n].
           exfalso. apply Hout. by rewrite <- Hpos.
    + unfold search_turns_left. simpl. lia.
  - (* the popped node is not above the entry of the first open cell *)
    assert (∀ j, 0 ≤ j ≤ distance → corner_cell j ∉ closed_set st →
                 f_score m ≤ estimate_bound j) as Hlow.
    { intros j Hj Hout.
      destruct (first_open_cell (closed_set st) (S (Z.to_nat j))) as [Hall|(k & Hk & Hk1 & Hk2)].
      - exfalso. apply Hout, Hall. lia.
      - destruct (Hfront k ltac:(lia) Hk1 Hk2) as [(_ & _ & H)|(n & Hn & _ & Hf)].
        + by apply elem_of_nil in H.
        + specialize (Hmin n Hn). unfold TermSpec.estimate_bound in *. lia. }
    destruct (Hsound m Hm) as [Hfm Hgm].
    assert (position m ∈ region) as Hmreg.
    { apply near_goal_in_region.
      pose proof (Hlow distance) as H. rewrite corner_cell_goal in H.
      specialize (H ltac:(unfold heuristic; lia) Hgoal). lia. }
    set (closed := ({[position m]} ∪ closed_set st : gset Pos)).
    assert (closed_set st ⊆ closed) as Hmono by (unfold closed; apply union_subseteq_r).
    exists (position m).
    destruct (term_relax_all closed m (get_neighbors (position m)) o' (g_scores st))
      as (o2 & gs2 & E2 & Hinv2 & Hlen2); try done.
    + constructor; simpl.
      * done.
      * unfold closed. intros [H%elem_of_singleton|H]%elem_of_union; [|done].
        by apply Hatgoal.
      * intros n Hn. by apply Hsound, Hsub.
      * intros q g Hg. destruct (Hsc q g Hg) as [?|(n & Hn & Hq & ?)]; [left; by apply Hmono|].
        destruct (Hcases _ Hn) as [->|?]; [|right; by exists n].
        left. unfold closed. rewrite <- Hq. apply elem_of_union_l, elem_of_singleton. done.
      * unfold closed. intros p [->%elem_of_singleton|Hp]%elem_of_union; [done|by apply Hreg].
      * intros k Hk Hout Hprev.
        assert (corner_cell k ∉ closed_set st) as Hout' by (intros ?; by apply Hout, Hmono).
        assert (k = 0 ∨ corner_cell (k - 1) = position m ∧ 1 ≤ k
                ∨ corner_cell (k - 1) ∈ closed_set st) as [Hz|[[Hp Hk1]|Hold]].
        { destruct Hprev as [?|Hprev]; [by left|].
          destruct (decide (k = 0)) as [?|?]; [by left|].
          apply elem_of_union in Hprev as [Hp%elem_of_singleton|?];
            [right; left; split; [done|lia]|by right; right]. }
        -- destruct (Hfront k Hk Hout' (or_introl Hz)) as [(_ & _ & H)|(n & Hn & Hpos & ?)];
             [by apply elem_of_nil in H|].
           right. destruct (Hcases _ Hn) as [->|?]; [|by exists n].
           exfalso. apply Hout. unfold closed. rewrite <- Hpos.
           apply elem_of_union_l, elem_of_singleton. done.
        -- left. split; [done|]. split; [done|]. rewrite <- Hp.
           apply corner_cell_next. lia.
        -- destruct (Hfront k Hk Hout' (or_intror Hold)) as [(_ & _ & H)|(n & Hn & Hpos & ?)];
             [by apply elem_of_nil in H|].
           right. destruct (Hcases _ Hn) as [->|?]; [|by exists n].
           exfalso. apply Hout. unfold closed. rewrite <- Hpos.
           apply elem_of_union_l, elem_of_singleton. done.
    + intros k Hk Hp. apply Hlow; [lia|]. by rewrite Hp.
    + fold closed. rewrite E2. eexists. split; [done|]. split; [done|].
      unfold search_turns_left. simpl.
      assert (size closed = S (size (closed_set st))) as Hsize.
      { unfold closed. rewrite size_union by set_solver. by rewrite size_singleton. }
      assert (size closed ≤ size region)%nat as Hle.
      { apply subseteq_size. by destruct Hinv2. }
      change (length (get_neighbors (position m))) with 4%nat in Hlen2 || idtac.
      assert (length (get_neighbors (position m)) = 4%nat) as H4
        by (by destruct (position m)).
      lia.
Qed.

Lemma term_init : term_inv start goal [] start (astar_init start goal).
Proof.
  unfold astar_init. change (Heapq.heappush node_lt [] ?x) with [x].
  constructor; simpl.
  - intros i Hi x y Hx Hy. destruct i as [|i]; [done|]. simpl in Hx.
    by rewrite lookup_nil in Hx.
  - apply not_elem_of_empty.
  - intros n ->%list_elem_of_singleton. simpl. split; lia.
  - intros q g Hg. apply lookup_singleton_Some in Hg as [<- <-]. right.
    eexists. split; [apply list_elem_of_singleton; done|]. done.
  - apply empty_subseteq.
  - intros k Hk _ [->|Hin]; [|by apply not_elem_of_empty in Hin].
    right. eexists. split; [apply list_elem_of_singleton; done|].
    simpl. split; [by rewrite corner_cell_start|].
    unfold TermSpec.estimate_bound. lia.
Qed.

(** The loop returns a walk within the fuel that the region allows. *)
Lemma search_loop fuel : ∀ cur cur' st,
  trace_inv start goal [] cur st →
  term_inv start goal [] cur' st →
  (search_turns_left start goal st < fuel)%nat →
  ∃ r, astar_loop self start goal fuel st = Some r ∧ simple_walk start goal r.
Proof.
  induction fuel as [|fuel IH]; intros cur cur' st Htrace Hterm Hfuel; [lia|].
  simpl.
  destruct (TraceFacts.trace_step self start goal cur st Htrace)
    as [(r & E & Hw)|(cur2 & st2 & E & Htrace2)]; rewrite E.
  - by exists r.
  - destruct (term_step cur' st Hterm) as [(r & E')|(cur3 & st3 & E' & Hterm3 & Hless)];
      rewrite E in E'; [done|].
    injection E' as <-. apply (IH cur2 cur3); [done|done|lia].
Qed.

Lemma search_returns :
  ∃ pth,
    simple_walk start goal pth
    ∧ ∀ fuel, (enough_fuel start goal ≤ fuel)%nat →
              astar self start goal fuel = Some pth.
Proof.
  unfold astar. case_bool_decide as Heq.
  { subst goal. exists [start]. split; [|done].
    split; [apply NoDup_singleton|done]. }
  destruct (search_loop (enough_fuel start goal) start start (astar_init start goal))
    as (r & Hr & Hw).
  - apply TraceFacts.trace_init.
  - apply term_init.
  - unfold search_turns_left, enough_fuel, astar_init.
    change (Heapq.heappush node_lt [] ?x) with [x]. simpl. lia.
  - exists r. split; [done|]. intros fuel Hfuel.
    replace fuel with (enough_fuel start goal + (fuel - enough_fuel start goal))%nat by lia.
    by apply AStarFacts.astar_loop_more_fuel.
Qed.

End Search.
End TermFacts.

(** * Every net gets a wire *)

Module RoutingFacts.
Import Router RouterSpec TraceSpec TermSpec MstSpec.

Lemma route_two_pins_returns self start end_ :
  grid_size self ≠ 0 →
  ∃ pth,
    (∀ fuel, (enough_fuel (to_grid self start) (to_grid self end_) ≤ fuel)%nat →
             route_two_pins self fuel start end_ = Some pth)
    ∧ manhattan_polyline pth
    ∧ head pth = Some (from_grid self (to_grid self start))
    ∧ last pth = Some (from_grid self (to_grid self end_)).
Proof.
  intros Hg.
  destruct (TermFacts.search_returns self (to_grid self start) (to_grid self end_))
    as (grid_path & Hwalk & Hfuel).
  pose proof (Hfuel _ (Nat.le_refl _)) as E0.
  assert (∃ pth, route_two_pins self
                   (enough_fuel (to_grid self start) (to_grid self end_)) start end_
                 = Some pth) as [pth Hpth].
  { unfold route_two_pins. rewrite E0. simpl.
    destruct grid_path; by eexists. }
  exists pth. split.
  - intros fuel Hf. unfold route_two_pins in *. rewrite (Hfuel fuel Hf).
    by rewrite E0 in Hpth.
  - by apply (PolylineFacts.two_pin_route_is_polyline self _ start end_ pth Hg Hpth).
Qed.

Lemma route_edges_return self pins edges : ∀ acc,
  grid_size self ≠ 0 →
  ∃ fuel0 all_paths,
    ∀ fuel, (fuel0 ≤ fuel)%nat →
      foldl (λ acc '(i, j),
               all_paths ← acc;
               pth ← route_two_pins self fuel (pin_at pins i) (pin_at pins j);
               Some (all_paths ++ pth))
            (Some acc) edges = Some all_paths.
Proof.
  induction edges as [|[i j] edges IH]; intros acc Hg.
  - exists 0%nat, acc. done.
  - destruct (route_two_pins_returns self (pin_at pins i) (pin_at pins j) Hg)
      as (pth & Hpth & _).
    destruct (IH (acc ++ pth) Hg) as (fuel0 & all_paths & Hall).
    exists (Nat.max fuel0
              (enough_fuel (to_grid self (pin_at pins i)) (to_grid self (pin_at pins j)))),
      all_paths.
    intros fuel Hf. cbn [foldl]. cbn [mbind option_bind].
    rewrite Hpth by lia. cbn [mbind option_bind]. apply Hall. lia.
Qed.

Lemma route_multi_pins_returns self pins :
  grid_size self ≠ 0 → pins ≠ [] →
  ∃ fuel0 pth,
    (∀ fuel, (fuel0 ≤ fuel)%nat → route_multi_pins self fuel pins = Some pth)
    ∧ (∀ p, p ∈ pins → from_grid self (to_grid self p) ∈ pth)
    ∧ ((3 ≤ length pins)%nat → NoDup pth).
Proof.
  intros Hg Hne.
  assert (∃ fuel0 pth,
            ∀ fuel, (fuel0 ≤ fuel)%nat → route_multi_pins self fuel pins = Some pth)
    as (fuel0 & pth & Hret).
  { destruct pins as [|p0 [|p1 [|p2 rest]]]; [done| | |].
    - destruct (route_two_pins_returns self p0 p0 Hg) as (pth & Hpth & _).
      by eexists _, pth.
    - destruct (route_two_pins_returns self p0 p1 Hg) as (pth & Hpth & _).
      by eexists _, pth.
    - destruct (route_edges_return self (p0 :: p1 :: p2 :: rest)
                  (build_mst (p0 :: p1 :: p2 :: rest)) [] Hg) as (fuel0 & all_paths & Hall).
      exists fuel0, (merge_paths all_paths). intros fuel Hf.
      change (route_multi_pins self fuel (p0 :: p1 :: p2 :: rest))
        with (all_paths ←
                foldl (λ acc '(i, j),
                         all_paths ← acc;
                         pth ← route_two_pins self fuel
                                 (pin_at (p0 :: p1 :: p2 :: rest) i)
                                 (pin_at (p0 :: p1 :: p2 :: rest) j);
                         Some (all_paths ++ pth))
                      (Some []) (build_mst (p0 :: p1 :: p2 :: rest));
              Some (merge_paths all_paths)).
      by rewrite (Hall fuel Hf). }
  exists fuel0, pth. split; [done|].
  by apply (MultiPinFacts.route_multi_pins_visit self fuel0 pins pth Hg (Hret fuel0 (Nat.le_refl _))).
Qed.

End RoutingFacts.

(** * The search and the routing always return *)

Module TotalityFacts.
Import Router RouterSpec TraceSpec TermSpec MstSpec Obstacles.

(** X11: whatever the obstacles, [_astar] returns: there is a path that
    the search gives for every number of turns from [enough_fuel] on; it
    starts at [start], ends at [goal], moves by unit steps and visits no
    cell twice. *)
Theorem astar_always_returns (self : ManhattanRouter) (start goal : Pos) :
  ∃ pth, simple_walk start goal pth
    ∧ ∀ fuel, (enough_fuel start goal ≤ fuel)%nat →
        astar self start goal fuel = Some pth.
Proof. apply TermFacts.search_returns. Qed.

(** X12: on a grid of non-zero size [_route_two_pins] returns for any two
    pins and any obstacles; the wire is a Manhattan polyline from the
    snapped first pin to the snapped second pin. *)
Theorem route_two_pins_total (self : ManhattanRouter) (start end_ : Pos) :
  grid_size self ≠ 0 →
  ∃ pth,
    (∀ fuel, (enough_fuel (to_grid self start) (to_grid self end_) ≤ fuel)%nat →
             route_two_pins self fuel start end_ = Some pth)
    ∧ manhattan_polyline pth
    ∧ head pth = Some (from_grid self (to_grid self start))
    ∧ last pth = Some (from_grid self (to_grid self end_)).
Proof. apply RoutingFacts.route_two_pins_returns. Qed.

Lemma route_two_pins_total_witness :
  ∃ pth,
    (∀ fuel, (enough_fuel (to_grid empty_router (3, 4)%Z) (to_grid empty_router (25, 47)%Z)
              ≤ fuel)%nat →
             route_two_pins empty_router fuel (3, 4) (25, 47) = Some pth)
    ∧ manhattan_polyline pth
    ∧ head pth = Some (from_grid empty_router (to_grid empty_router (3, 4)))
    ∧ last pth = Some (from_grid empty_router (to_grid empty_router (25, 47))).
Proof. apply (route_two_pins_total empty_router (3, 4) (25, 47)). simpl. lia. Defined.

(** X13: on a grid of non-zero size [_route_multi_pins] returns for every
    non-empty list of pins; the wire passes through the snapped position
    of every pin, and for three or more pins no point occurs twice in
    it. *)
Theorem route_multi_pins_total (self : ManhattanRouter) (pins : list Pos) :
  grid_size self ≠ 0 → pins ≠ [] →
  ∃ fuel0 pth,
    (∀ fuel, (fuel0 ≤ fuel)%nat → route_multi_pins self fuel pins = Some pth)
    ∧ (∀ p, p ∈ pins → from_grid self (to_grid self p) ∈ pth)
    ∧ ((3 ≤ length pins)%nat → NoDup pth).
Proof. apply RoutingFacts.route_multi_pins_returns. Qed.

Lemma route_multi_pins_total_witness :
  ∃ fuel0 pth,
    (∀ fuel, (fuel0 ≤ fuel)%nat →
       route_multi_pins empty_router fuel [(0, 0); (10, 0); (0, 10)] = Some pth)
    ∧ (∀ p, p ∈ [(0, 0); (10, 0); (0, 10)]
            → from_grid empty_router (to_grid empty_router p) ∈ pth)
    ∧ ((3 ≤ length [(0, 0); (10, 0); (0, 10)])%nat → NoDup pth).
Proof.
  apply (route_multi_pins_total empty_router [(0, 0); (10, 0); (0, 10)]);
    [simpl; lia|discriminate].
Defined.

Lemma route_net_returns self net comps :
  grid_size self ≠ 0 →
  ∃ fuel0 pth,
    (∀ fuel, (fuel0 ≤ fuel)%nat →
       route_net self fuel net comps
       = Some (mkWire (nd_name net) pth 0,
               mkRouter (grid_size self) (obstacles self)
                        (wire_segments self ++ segments self pth)))
    ∧ ((length (pin_positions_of net comps) < 2)%nat → pth = [])
    ∧ ((2 ≤ length (pin_positions_of net comps))%nat →
       ∀ p, p ∈ pin_positions_of net comps → from_grid self (to_grid self p) ∈ pth).
Proof.
  intros Hg. unfold route_net.
  destruct (pin_positions_of net comps) as [|p0 [|p1 [|p2 rest]]] eqn:E.
  - exists 0%nat, []. split_and!; [|done|simpl; lia].
    intros fuel _. simpl. destruct self. simpl. by rewrite app_nil_r.
  - exists 0%nat, []. split_and!; [|done|simpl; lia].
    intros fuel _. simpl. destruct self. simpl. by rewrite app_nil_r.
  - destruct (RoutingFacts.route_two_pins_returns self p0 p1 Hg)
      as (pth & Hpth & _ & Hhead & Hlast).
    exists (enough_fuel (to_grid self p0) (to_grid self p1)), pth.
    split_and!; [|simpl; lia|].
    + intros fuel Hf. rewrite bool_decide_eq_false_2 by (simpl; lia).
      by rewrite (Hpth fuel Hf).
    + intros _ p [->|[->|Hp%elem_of_nil]%elem_of_cons]%elem_of_cons; [| |done].
      * by apply head_Some_elem_of.
      * by apply last_Some_elem_of.
  - destruct (RoutingFacts.route_multi_pins_returns self (p0 :: p1 :: p2 :: rest) Hg)
      as (fuel0 & pth & Hpth & Hvisit & _); [done|].
    exists fuel0, pth. split_and!; [|simpl; lia|].
    + intros fuel Hf. rewrite bool_decide_eq_false_2 by (simpl; lia).
      by rewrite (Hpth fuel Hf).
    + intros _ p Hp. by apply Hvisit.
Qed.

Lemma route_nets_return self comps nets :
  grid_size self ≠ 0 →
  ∃ fuel0 wires,
    (∀ fuel, (fuel0 ≤ fuel)%nat →
       mapM (λ net, fst <$> route_net self fuel net comps) nets = Some wires)
    ∧ wire_net <$> wires = nd_name <$> nets
    ∧ Forall2 (λ net wire,
                 ((length (pin_positions_of net comps) < 2)%nat → path wire = [])
                 ∧ ((2 ≤ length (pin_positions_of net comps))%nat →
                    ∀ p, p ∈ pin_positions_of net comps
                         → from_grid self (to_grid self p) ∈ path wire))
              nets wires.
Proof.
  intros Hg. induction nets as [|net nets (fuel0 & wires & Hw & Hn & Hp)].
  - exists 0%nat, []. split_and!; [done|done|constructor].
  - destruct (route_net_returns self net comps Hg) as (fuel1 & pth & Hpth & H1 & H2).
    exists (Nat.max fuel0 fuel1), (mkWire (nd_name net) pth 0 :: wires).
    split_and!.
    + intros fuel Hf. cbn [mapM]. rewrite Hpth by lia.
      cbn [fmap option_fmap option_map fst mbind option_bind].
      rewrite Hw by lia. done.
    + cbn [fmap list_fmap wire_net]. by f_equal.
    + by constructor.
Qed.

(** X14: on a grid of non-zero size [route_net] returns a wire for every
    net: it carries the name of the net, it is empty when fewer than two
    pins of the net are found among the components, and otherwise it
    passes through the snapped position of every pin that is found.  The
    router afterwards has the same grid and obstacles and the segments of
    the wire appended. *)
Theorem route_net_total (self : ManhattanRouter) (net : NetDict)
    (comps : list PlacedDict) :
  grid_size self ≠ 0 →
  ∃ fuel0 pth,
    (∀ fuel, (fuel0 ≤ fuel)%nat →
       route_net self fuel net comps
       = Some (mkWire (nd_name net) pth 0,
               mkRouter (grid_size self) (obstacles self)
                        (wire_segments self ++ segments self pth)))
    ∧ ((length (pin_positions_of net comps) < 2)%nat → pth = [])
    ∧ ((2 ≤ length (pin_positions_of net comps))%nat →
       ∀ p, p ∈ pin_positions_of net comps → from_grid self (to_grid self p) ∈ pth).
Proof. apply route_net_returns. Qed.

Lemma route_net_total_witness :
  ∃ fuel0 pth,
    (∀ fuel, (fuel0 ≤ fuel)%nat →
       route_net empty_router fuel
         (mkNetDict "N1" [("R1", "2"); ("C1", "1")])
         [mkPlacedDict "R1" [mkPin "1" (0, 0); mkPin "2" (40, 0)];
          mkPlacedDict "C1" [mkPin "1" (40, 30); mkPin "2" (40, 60)]]
       = Some (mkWire "N1" pth 0,
               mkRouter 10 ∅ (segments empty_router pth)))
    ∧ (40, 0) ∈ pth ∧ (40, 30) ∈ pth.
Proof.
  destruct (route_net_total empty_router
              (mkNetDict "N1" [("R1", "2"); ("C1", "1")])
              [mkPlacedDict "R1" [mkPin "1" (0, 0); mkPin "2" (40, 0)];
               mkPlacedDict "C1" [mkPin "1" (40, 30); mkPin "2" (40, 60)]])
    as (fuel0 & pth & Hret & _ & Hvisit); [simpl; lia|].
  exists fuel0, pth. split; [exact Hret|].
  split; [apply (Hvisit ltac:(simpl; lia) (40, 0)); left
         |apply (Hvisit ltac:(simpl; lia) (40, 30)); right; left].
Defined.

(** X15: the routing loop of the pipeline, run on a router of non-zero
    grid size, returns one wire per net, named after the nets in their
    order; each wire is empty for a net with fewer than two pins found and
    passes through every found pin otherwise. *)
Theorem route_nets_total (self : ManhattanRouter) (nets : list NetDict)
    (comps : list PlacedDict) :
  grid_size self ≠ 0 →
  ∃ fuel0 wires,
    (∀ fuel, (fuel0 ≤ fuel)%nat →
       route_nets self fuel nets comps
       = Some (wires,
               mkRouter (grid_size self) (obstacles self)
                 (wire_segments self ++ (wires ≫= λ w, segments self (path w)))))
    ∧ wire_net <$> wires = nd_name <$> nets
    ∧ Forall2 (λ net wire,
                 ((length (pin_positions_of net comps) < 2)%nat → path wire = [])
                 ∧ ((2 ≤ length (pin_positions_of net comps))%nat →
                    ∀ p, p ∈ pin_positions_of net comps
                         → from_grid self (to_grid self p) ∈ path wire))
              nets wires.
Proof.
  intros Hg. destruct (route_nets_return self comps nets Hg)
    as (fuel0 & wires & Hw & Hn & Hp).
  exists fuel0, wires. split; [|done].
  intros fuel Hf. unfold route_nets.
  rewrite (RoutingLoopFacts.route_nets_fold self) by done.
  by rewrite (Hw fuel Hf).
Qed.

Lemma route_nets_total_witness :
  ∃ fuel0 wires,
    (∀ fuel, (fuel0 ≤ fuel)%nat →
       route_nets empty_router fuel
         [mkNetDict "N1" [("R1", "2"); ("C1", "1")]; mkNetDict "N2" [("R1", "1")]]
         [mkPlacedDict "R1" [mkPin "1" (0, 0); mkPin "2" (40, 0)];
          mkPlacedDict "C1" [mkPin "1" (40, 30); mkPin "2" (40, 60)]]
       = Some (wires,
               mkRouter 10 ∅ (wires ≫= λ w, segments empty_router (path w))))
    ∧ wire_net <$> wires = ["N1"; "N2"].
Proof.
  destruct (route_nets_total empty_router
         [mkNetDict "N1" [("R1", "2"); ("C1", "1")]; mkNetDict "N2" [("R1", "1")]]
         [mkPlacedDict "R1" [mkPin "1" (0, 0); mkPin "2" (40, 0)];
          mkPlacedDict "C1" [mkPin "1" (40, 30); mkPin "2" (40, 60)]])
    as (fuel0 & wires & Hret & Hn & _); [simpl; lia|].
  exists fuel0, wires. split; [exact Hret|exact Hn].
Defined.

End TotalityFacts.

(** * The wires of the textbook placer *)

Module TextbookWireFacts.
Import Placer PlacerSpec LayoutSpec PlacerWires RouterSpec.

(** ** [_remove_duplicates] *)

Lemma differs_spec (p q : Z * Z) :
  bool_decide (Z.abs (p.1 - q.1) > 0) || bool_decide (Z.abs (p.2 - q.2) > 0) = true
  ↔ p ≠ q.
Proof.
  rewrite orb_true_iff, !bool_decide_eq_true. destruct p as [a b], q as [c d]. simpl.
  split.
  - intros H [= -> ->]. lia.
  - intros H. destruct (decide (a = c)) as [->|?]; [|lia].
    destruct (decide (b = d)) as [->|?]; [done|lia].
Qed.

Lemma remove_duplicates_loop_spec points : ∀ last_point,
  no_stutter (last_point :: remove_duplicates_loop last_point points)
  ∧ remove_duplicates_loop last_point points `sublist_of` points
  ∧ last (last_point :: remove_duplicates_loop last_point points)
    = last (last_point :: points)
  ∧ (∀ p, p ∈ last_point :: points
          → p ∈ last_point :: remove_duplicates_loop last_point points)
  ∧ (no_stutter (last_point :: points)
     → remove_duplicates_loop last_point points = points)
  ∧ (aligned_steps (last_point :: points)
     → axis_steps (last_point :: remove_duplicates_loop last_point points)).
Proof.
  induction points as [|p points IH]; intros last_point.
  { split_and!; done. }
  cbn [remove_duplicates_loop].
  destruct (bool_decide (Z.abs (p.1 - last_point.1) > 0)
            || bool_decide (Z.abs (p.2 - last_point.2) > 0)) eqn:E.
  - apply differs_spec in E.
    destruct (IH p) as (H1 & H2 & H3 & H4 & H5 & H6).
    split_and!.
    + split; [congruence|done].
    + by apply sublist_skip.
    + by rewrite !last_cons_cons.
    + intros q [->|Hq]%elem_of_cons; [left|]. right. by apply H4.
    + intros [_ Hns]. f_equal. by apply H5.
    + intros [Hal Hrest]. split; [|by apply H6].
      destruct (decide (last_point.1 = p.1)) as [Hx|Hx]; [left|right]; split; try done.
      * intros Hy. apply E. destruct p, last_point; simpl in *; congruence.
      * destruct Hal; [done|done].
  - assert (p = last_point) as ->.
    { destruct (decide (p = last_point)) as [?|Hne]; [done|].
      apply differs_spec in Hne. congruence. }
    destruct (IH last_point) as (H1 & H2 & H3 & H4 & H5 & H6).
    split_and!.
    + done.
    + by apply sublist_cons.
    + by rewrite last_cons_cons.
    + intros q [->|[->|Hq]%elem_of_cons]%elem_of_cons; [left|left|].
      apply H4. by right.
    + intros [Hne _]. done.
    + intros [_ Hrest]. by apply H6.
Qed.

Lemma remove_duplicates_spec (points : list (Z * Z)) :
  no_stutter (remove_duplicates points)
  ∧ remove_duplicates points `sublist_of` points
  ∧ head (remove_duplicates points) = head points
  ∧ last (remove_duplicates points) = last points
  ∧ (∀ p, p ∈ remove_duplicates points ↔ p ∈ points)
  ∧ (no_stutter points → remove_duplicates points = points)
  ∧ (aligned_steps points → axis_steps (remove_duplicates points)).
Proof.
  destruct points as [|p0 rest]; [split_and!; done|].
  destruct (remove_duplicates_loop_spec rest p0) as (H1 & H2 & H3 & H4 & H5 & H6).
  cbn [remove_duplicates]. split_and!; try done.
  - by apply sublist_skip.
  - intros p. split; [|apply H4].
    intros [->|Hp]%elem_of_cons; [left|right].
    by apply (elem_of_sublist _ _ _ Hp H2).
  - intros Hns. f_equal. by apply H5.
Qed.

(** X20: [_remove_duplicates] drops exactly the points that repeat the
    point kept before them: the result never has a point followed by
    itself, keeps the first and the last point and the set of points, and
    a list without such repeats is returned unchanged, so that the
    function is idempotent. *)
Theorem remove_duplicates_no_stutter (points : list (Z * Z)) :
  no_stutter (remove_duplicates points)
  ∧ remove_duplicates points `sublist_of` points
  ∧ head (remove_duplicates points) = head points
  ∧ last (remove_duplicates points) = last points
  ∧ (∀ p, p ∈ remove_duplicates points ↔ p ∈ points)
  ∧ (no_stutter points → remove_duplicates points = points)
  ∧ remove_duplicates (remove_duplicates points) = remove_duplicates points.
Proof.
  destruct (remove_duplicates_spec points) as (H1 & H2 & H3 & H4 & H5 & H6 & _).
  split_and!; try done.
  by apply (remove_duplicates_spec (remove_duplicates points)).
Qed.

(** ** [_route_orthogonal] *)

Lemma corner_aligned (p1 p2 : Z * Z) :
  (p1.1 = (corner p1 p2).1 ∨ p1.2 = (corner p1 p2).2)
  ∧ ((corner p1 p2).1 = p2.1 ∨ (corner p1 p2).2 = p2.2).
Proof. unfold corner. case_bool_decide; simpl; auto. Qed.

Lemma route_orthogonal_loop_spec pin_data : ∀ r p,
  aligned_steps (p :: route_orthogonal_loop false ((r, p) :: pin_data))
  ∧ last (p :: route_orthogonal_loop false ((r, p) :: pin_data))
    = last (p :: pin_data.*2)
  ∧ (∀ q, q ∈ pin_data.*2 → q ∈ route_orthogonal_loop false ((r, p) :: pin_data))
  ∧ length (route_orthogonal_loop false ((r, p) :: pin_data))
    = (2 * length pin_data)%nat.
Proof.
  induction pin_data as [|[r2 p2] pin_data IH]; intros r p.
  { split_and!; try done. }
  cbn [route_orthogonal_loop app]. destruct (IH r2 p2) as (H1 & H2 & H3 & H4).
  destruct (corner_aligned p p2) as [Ha Hb].
  split_and!.
  - split; [done|]. split; [done|]. done.
  - cbn [fmap list_fmap snd]. rewrite !last_cons_cons in *. done.
  - cbn [fmap list_fmap snd]. intros q [->|Hq]%elem_of_cons.
    + right. left.
    + right. right. by apply H3.
  - simpl. simpl in H4. rewrite H4. lia.
Qed.

Lemma route_orthogonal_raw r1 p1 r2 p2 pin_data :
  route_orthogonal_loop true ((r1, p1) :: (r2, p2) :: pin_data)
  = p1 :: route_orthogonal_loop false ((r1, p1) :: (r2, p2) :: pin_data).
Proof. done. Qed.

Lemma route_orthogonal_spec (pin_data : list (string * (Z * Z))) :
  (2 ≤ length pin_data)%nat →
  axis_steps (route_orthogonal pin_data)
  ∧ head (route_orthogonal pin_data) = head (pin_data.*2)
  ∧ last (route_orthogonal pin_data) = last (pin_data.*2)
  ∧ (∀ p, p ∈ pin_data.*2 → p ∈ route_orthogonal pin_data)
  ∧ (length (route_orthogonal pin_data) ≤ 2 * length pin_data - 1)%nat.
Proof.
  intros Hlen. destruct pin_data as [|[r1 p1] [|[r2 p2] pin_data]];
    [simpl in Hlen; lia|simpl in Hlen; lia|].
  unfold route_orthogonal. rewrite route_orthogonal_raw.
  destruct (route_orthogonal_loop_spec ((r2, p2) :: pin_data) r1 p1)
    as (H1 & H2 & H3 & H4).
  set (raw := p1 :: route_orthogonal_loop false ((r1, p1) :: (r2, p2) :: pin_data)) in *.
  destruct (remove_duplicates_spec raw) as (_ & R2 & R3 & R4 & R5 & _ & R7).
  split_and!.
  - by apply R7.
  - by rewrite R3.
  - rewrite R4, H2. done.
  - intros p Hp. apply R5. cbn [fmap list_fmap snd] in Hp.
    apply elem_of_cons in Hp as [->|Hp]; [left|]. right. by apply H3.
  - apply sublist_length in R2. subst raw. simpl in *. lia.
Qed.

(** X21: for pins at integer positions, the waypoints that
    [_route_orthogonal] returns for two or more pins run from the first pin
    to the last, pass through every pin, and every step between
    consecutive waypoints changes exactly one coordinate; there are at
    most [2 k - 1] of them for [k] pins. *)
Theorem route_orthogonal_manhattan (pin_data : list (string * (Z * Z))) :
  (2 ≤ length pin_data)%nat →
  axis_steps (route_orthogonal pin_data)
  ∧ head (route_orthogonal pin_data) = head (pin_data.*2)
  ∧ last (route_orthogonal pin_data) = last (pin_data.*2)
  ∧ (∀ p, p ∈ pin_data.*2 → p ∈ route_orthogonal pin_data)
  ∧ (length (route_orthogonal pin_data) ≤ 2 * length pin_data - 1)%nat.
Proof. apply route_orthogonal_spec. Qed.

Lemma route_orthogonal_manhattan_witness :
  axis_steps (route_orthogonal [("R1", (0, 0)); ("R2", (250, 40)); ("C1", (250, 300))]).
Proof.
  apply (route_orthogonal_manhattan
           [("R1", (0, 0)); ("R2", (250, 40)); ("C1", (250, 300))]).
  simpl. lia.
Defined.

End TextbookWireFacts.

(** * The nets of the parser and the wires drawn over them *)

Module NetlistFacts.
Import Placer PlacerSpec LayoutSpec NetlistParser PlacerWires RouterSpec.

(** ** [_build_nets] *)

Lemma lookup_net_cons k net nets n :
  lookup_net ((k, net) :: nets) n
  = if decide (k = n) then Some net else lookup_net nets n.
Proof.
  unfold lookup_net. cbn [list_find]. cbn [fst].
  destruct (decide (k = n)) as [->|Hne]; [done|].
  by destruct (list_find (λ e : string * Net, e.1 = n) nets) as [[i [k' net']]|].
Qed.

Lemma add_pin_lookup nets node pin : ∀ n,
  lookup_net (add_pin nets node pin) n
  = if decide (n = node)
    then Some (match lookup_net nets node with
               | Some net => mkNet (net_name net) (net_pins net ++ [pin])
               | None => mkNet node [pin]
               end)
    else lookup_net nets n.
Proof.
  induction nets as [|[k net] nets IH]; intros n.
  - cbn [add_pin]. rewrite lookup_net_cons.
    repeat case_decide; subst; try done; congruence.
  - cbn [add_pin]. case_bool_decide as Hk.
    + subst k. rewrite !lookup_net_cons.
      repeat case_decide; subst; try done; congruence.
    + rewrite !lookup_net_cons, IH.
      repeat case_decide; subst; try done; congruence.
Qed.

Lemma add_pin_keys nets node pin :
  (add_pin nets node pin).*1
  = if decide (node ∈ nets.*1) then nets.*1 else nets.*1 ++ [node].
Proof.
  induction nets as [|[k net] nets IH].
  - cbn [add_pin]. rewrite decide_False; [done|]. by intros H%elem_of_nil.
  - cbn [add_pin]. case_bool_decide as Hk.
    + subst k. rewrite decide_True by (simpl; left). done.
    + cbn [fmap list_fmap fst]. fold (fmap (M := list) (@fst string Net)).
      rewrite IH. destruct (decide (node ∈ nets.*1)) as [Hin|Hnin].
      * rewrite decide_True by (by right). done.
      * rewrite decide_False; [done|].
        intros [?|?]%elem_of_cons; [by subst|done].
Qed.

Lemma add_pin_keys_NoDup nets node pin :
  NoDup nets.*1 → NoDup (add_pin nets node pin).*1.
Proof.
  intros Hnd. rewrite add_pin_keys. case_decide; [done|].
  apply NoDup_app. split_and!; [done| |apply NoDup_singleton].
  intros x Hx ->%list_elem_of_singleton. done.
Qed.

Lemma add_pin_keys_elem nets node pin n :
  n ∈ (add_pin nets node pin).*1 ↔ n ∈ nets.*1 ∨ n = node.
Proof.
  rewrite add_pin_keys. case_decide as Hin.
  - split; [by left|]. intros [?| ->]; done.
  - rewrite elem_of_app, list_elem_of_singleton. done.
Qed.

Lemma pins_at_cons k cs n :
  pins_at (k :: cs) n
  = (if bool_decide (node1 k = n) then [(reference k, 1)] else [])
    ++ (if bool_decide (node2 k = n) then [(reference k, 2)] else [])
    ++ pins_at cs n.
Proof. unfold pins_at. cbn [mbind list_bind]. by rewrite <- (assoc_L (++)). Qed.

(** The net of a node after the loop over the components [cs]. *)
Lemma build_nets_fold cs : ∀ nets0 n,
  lookup_net
    (foldl (λ nets comp,
              add_pin (add_pin nets (node1 comp) (reference comp, 1))
                      (node2 comp) (reference comp, 2))
           nets0 cs) n
  = match lookup_net nets0 n with
    | Some net => Some (mkNet (net_name net) (net_pins net ++ pins_at cs n))
    | None => match pins_at cs n with
              | [] => None
              | pins => Some (mkNet n pins)
              end
    end.
Proof.
  induction cs as [|k cs IH]; intros nets0 n.
  - cbn [foldl]. change (pins_at [] n) with (@nil (string * Z)).
    destruct (lookup_net nets0 n) as [[? ?]|]; [|done]. by rewrite app_nil_r.
  - cbn [foldl]. rewrite IH, !add_pin_lookup, pins_at_cons.
    destruct (decide (node1 k = node2 k)) as [E12|E12]; [rewrite E12|];
    destruct (lookup_net nets0 (node1 k)) as [net1|] eqn:L1;
      destruct (lookup_net nets0 (node2 k)) as [net2|] eqn:L2;
      destruct (lookup_net nets0 n) as [net|] eqn:L;
      repeat (case_decide; subst); repeat (case_bool_decide; subst);
      simplify_eq; cbn [net_name net_pins app];
      rewrite <- ?(assoc_L (++)); try done;
      by destruct (pins_at cs _).
Qed.

Lemma build_nets_keys cs : ∀ nets0,
  (NoDup nets0.*1 →
   NoDup (foldl (λ nets comp,
                   add_pin (add_pin nets (node1 comp) (reference comp, 1))
                           (node2 comp) (reference comp, 2))
                nets0 cs).*1)
  ∧ ∀ n, n ∈ (foldl (λ nets comp,
                       add_pin (add_pin nets (node1 comp) (reference comp, 1))
                               (node2 comp) (reference comp, 2))
                    nets0 cs).*1
         ↔ n ∈ nets0.*1 ∨ n ∈ terminals cs.
Proof.
  induction cs as [|k cs IH]; intros nets0.
  - split; [done|]. intros n. cbn [foldl terminals mbind list_bind].
    split; [by left|]. intros [?|H%elem_of_nil]; done.
  - cbn [foldl]. destruct (IH (add_pin (add_pin nets0 (node1 k) (reference k, 1))
                                       (node2 k) (reference k, 2))) as [IH1 IH2].
    split.
    + intros Hnd. apply IH1. by do 2 apply add_pin_keys_NoDup.
    + intros n. rewrite IH2, !add_pin_keys_elem.
      unfold terminals. cbn [mbind list_bind]. fold (terminals cs).
      rewrite elem_of_app, !elem_of_cons, elem_of_nil. tauto.
Qed.

Lemma pins_at_length cs n : length (pins_at cs n) = degree cs n.
Proof.
  unfold degree, terminals, pins_at.
  induction cs as [|k cs IH]; [done|].
  cbn [mbind list_bind]. rewrite !length_app, IH.
  rewrite filter_app, length_app. f_equal.
  rewrite filter_cons, filter_cons, filter_nil.
  do 2 (case_bool_decide; case_decide; try done).
Qed.

Lemma pins_at_numbers cs n pin : pin ∈ pins_at cs n → pin.2 = 1 ∨ pin.2 = 2.
Proof.
  unfold pins_at. intros (k & Hpin & _)%list_elem_of_bind.
  apply elem_of_app in Hpin as [H|H]; case_bool_decide;
    try (by apply elem_of_nil in H);
    apply list_elem_of_singleton in H; subst pin; auto.
Qed.

Lemma lookup_net_elem nets k net :
  (k, net) ∈ nets → NoDup nets.*1 → lookup_net nets k = Some net.
Proof.
  induction nets as [|[k' net'] nets IH]; [by intros H%elem_of_nil|].
  intros [[= -> ->]|Hin]%elem_of_cons Hnd; rewrite lookup_net_cons.
  - by rewrite decide_True.
  - apply NoDup_cons in Hnd as [Hk Hnd]. rewrite decide_False; [by apply IH|].
    intros ->. apply Hk. by apply (list_elem_of_fmap_2 fst _ (k, net)).
Qed.

Lemma build_nets_entries (c : Circuit) k net :
  nets c = [] → (k, net) ∈ nets (build_nets c) →
  net = mkNet k (pins_at (components c) k) ∧ pins_at (components c) k ≠ [].
Proof.
  intros Hempty Hin. unfold build_nets in Hin. cbn [nets] in Hin.
  rewrite Hempty in Hin.
  destruct (build_nets_keys (components c) []) as [Hnd _].
  pose proof (lookup_net_elem _ _ _ Hin (Hnd (NoDup_nil_2))) as E.
  rewrite build_nets_fold in E. unfold lookup_net in E. cbn in E.
  destruct (pins_at (components c) k) as [|pin pins]; [done|].
  split; [congruence|done].
Qed.

(** X22: [_build_nets], run on a circuit without nets, files every
    terminal under its node: the net of a node has the name of the node
    and the pins [(reference, 1)], [(reference, 2)] of the components that
    touch it, in the order of the components; a node that no component
    touches is not a key.  The keys are distinct, and a net has as many
    pins as the classifier counts terminals at its node. *)
Theorem build_nets_lookup (c : Circuit) :
  nets c = [] →
  components (build_nets c) = components c
  ∧ NoDup (nets (build_nets c)).*1
  ∧ (∀ n, n ∈ (nets (build_nets c)).*1 ↔ n ∈ terminals (components c))
  ∧ (∀ n, lookup_net (nets (build_nets c)) n
          = if decide (n ∈ terminals (components c))
            then Some (mkNet n (pins_at (components c) n))
            else None)
  ∧ (∀ n, length (pins_at (components c) n) = degree (components c) n).
Proof.
  intros Hempty. destruct (build_nets_keys (components c) []) as [Hnd Hkeys].
  unfold build_nets. cbn [components nets]. rewrite Hempty. split_and!.
  - done.
  - apply Hnd. constructor.
  - intros n. rewrite Hkeys. split; [intros [H%elem_of_nil|?]; done|by right].
  - intros n. rewrite build_nets_fold. unfold lookup_net at 1. cbn.
    pose proof (pins_at_length (components c) n) as Hlen.
    unfold degree in Hlen.
    destruct (decide (n ∈ terminals (components c))) as [Hin|Hnin].
    + destruct (pins_at (components c) n) as [|pin pins]; [|done].
      exfalso. simpl in Hlen. symmetry in Hlen. apply length_zero_iff_nil in Hlen.
      assert (n ∈ filter (λ t, t = n) (terminals (components c))) as H
        by (by apply list_elem_of_filter).
      rewrite Hlen in H. by apply elem_of_nil in H.
    + destruct (pins_at (components c) n) as [|pin pins] eqn:E; [done|].
      exfalso. simpl in Hlen.
      destruct (filter (λ t, t = n) (terminals (components c))) as [|t ts] eqn:Ef;
        [done|].
      assert (t ∈ filter (λ t, t = n) (terminals (components c))) as H
        by (rewrite Ef; left).
      apply list_elem_of_filter in H as [-> H]. done.
  - apply pins_at_length.
Qed.

Lemma build_nets_lookup_witness :
  lookup_net (nets (build_nets two_loads)) "VIN"
  = Some (mkNet "VIN" [("V1", 1); ("R1", 1); ("R2", 1)]).
Proof.
  destruct (build_nets_lookup two_loads) as (_ & _ & _ & H & _); [reflexivity|].
  rewrite (H "VIN"). reflexivity.
Defined.

(** ** [_route_all_wires] *)

Lemma collect_pins_return placed pins : ∀ pin_data,
  Forall (λ pin : string * Z, 1 ≤ pin.2) pins →
  ∃ more, foldl (collect_pin placed) (Some pin_data) pins = Some (pin_data ++ more).
Proof.
  induction pins as [|[ref pin_num] pins IH]; intros pin_data Hpins.
  - exists []. by rewrite app_nil_r.
  - apply Forall_cons in Hpins as [Hpin Hpins]. simpl in Hpin.
    cbn [foldl]. unfold collect_pin at 2. cbn [mbind option_bind].
    destruct (find_placed placed ref) as [p|].
    + case_bool_decide as Hlt.
      * unfold py_index. rewrite bool_decide_eq_true_2 by lia.
        destruct (lookup_lt_is_Some_2 (pin_positions p) (Z.to_nat (pin_num - 1)))
          as [pin_pos Hpos]; [lia|].
        rewrite Hpos. cbn [mbind option_bind].
        destruct (IH (pin_data ++ [(ref, pin_pos)]) Hpins) as [more Hmore].
        exists ((ref, pin_pos) :: more). rewrite Hmore.
        by rewrite <- (assoc_L (++)).
      * apply IH, Hpins.
    + apply IH, Hpins.
Qed.

Lemma route_all_wires_return placed nets : ∀ wires,
  Forall (λ entry : string * Net, Forall (λ pin : string * Z, 1 ≤ pin.2) (net_pins entry.2))
         nets →
  ∃ more,
    route_all_wires placed nets wires = Some (wires ++ more)
    ∧ Forall (λ w, axis_steps (waypoints w) ∧ no_stutter (waypoints w)
                   ∧ waypoints w ≠ []) more
    ∧ w_net_name <$> more `sublist_of` nets.*1.
Proof.
  unfold route_all_wires.
  induction nets as [|[name net] nets IH]; intros wires Hnets.
  - exists []. rewrite app_nil_r. split_and!; [done|constructor|done].
  - apply Forall_cons in Hnets as [Hnet Hnets]. simpl in Hnet.
    cbn [foldl]. unfold route_wire at 2. cbn [mbind option_bind].
    case_bool_decide as Hfew.
    { destruct (IH wires Hnets) as (more & E & Hax & Hsub).
      exists more. split_and!; [done|done|by apply sublist_cons]. }
    destruct (collect_pins_return placed (net_pins net) [] Hnet) as [pin_data E].
    rewrite E. cbn [mbind option_bind app].
    case_bool_decide as Hfew2.
    { destruct (IH wires Hnets) as (more & E' & Hax & Hsub).
      exists more. split_and!; [done|done|by apply sublist_cons]. }
    destruct (IH (wires ++ [mkWire name (route_orthogonal pin_data)]) Hnets)
      as (more & E' & Hax & Hsub).
    exists (mkWire name (route_orthogonal pin_data) :: more). split_and!.
    + rewrite E'. by rewrite <- (assoc_L (++)).
    + constructor; [|done]. cbn [waypoints].
      destruct (TextbookWireFacts.route_orthogonal_spec pin_data) as (H1 & H2 & _);
        [lia|].
      split_and!; [done| |].
      * apply TextbookWireFacts.remove_duplicates_spec.
      * intros Hnil. rewrite Hnil in H2. destruct pin_data; [simpl in *; lia|done].
    + cbn [fmap list_fmap fst w_net_name]. by apply sublist_skip.
Qed.

(** X23: [_route_all_wires] raises nothing when every pin number of the
    nets is at least 1, wherever the pins are: it appends to the wires at
    most one wire per net, in the order of the nets and under the name of
    its net, and no wire it appends is empty. *)
Theorem route_all_wires_total (placed : list PlacedComponent)
    (nets : list (string * Net)) (wires : list Wire) :
  Forall (λ entry : string * Net, Forall (λ pin : string * Z, 1 ≤ pin.2) (net_pins entry.2))
         nets →
  ∃ more,
    route_all_wires placed nets wires = Some (wires ++ more)
    ∧ Forall (λ w, waypoints w ≠ []) more
    ∧ w_net_name <$> more `sublist_of` nets.*1.
Proof.
  intros Hnets.
  destruct (route_all_wires_return placed nets wires Hnets) as (more & E & Hall & Hsub).
  exists more. split_and!; [done| |done].
  eapply Forall_impl; [exact Hall|]. by intros w (_ & _ & H).
Qed.

Lemma route_all_wires_total_witness :
  ∃ more,
    route_all_wires
      [Placer.mkPlaced "R1" "R" 0 0 0 [(0, 0); (40, 0)];
       Placer.mkPlaced "C1" "C" 250 0 0 [(250, 30); (250, 60)]]
      [("N1", mkNet "N1" [("R1", 2); ("C1", 1)])] []
    = Some ([] ++ more).
Proof.
  destruct (route_all_wires_total
      [Placer.mkPlaced "R1" "R" 0 0 0 [(0, 0); (40, 0)];
       Placer.mkPlaced "C1" "C" 250 0 0 [(250, 30); (250, 60)]]
      [("N1", mkNet "N1" [("R1", 2); ("C1", 1)])] []) as (more & H & _).
  - repeat constructor; simpl; lia.
  - by exists more.
Defined.

Lemma build_nets_pin_numbers (c : Circuit) :
  nets c = [] →
  Forall (λ entry : string * Net, Forall (λ pin : string * Z, 1 ≤ pin.2) (net_pins entry.2))
         (nets (build_nets c)).
Proof.
  intros Hempty. apply Forall_forall. intros [k net] Hin.
  destruct (build_nets_entries c k net Hempty Hin) as [-> _].
  apply Forall_forall. intros pin Hpin. cbn [snd net_pins] in Hpin.
  destruct (pins_at_numbers _ _ _ Hpin); lia.
Qed.

(** X24: over the nets that the parser builds ([_build_nets] on a circuit
    without nets) [_route_all_wires] raises nothing, whatever components
    are placed and wherever their pins are: the wires are not empty and
    are named after distinct nodes of the netlist. *)
Theorem route_all_wires_on_parsed (placed : list PlacedComponent) (c : Circuit) :
  nets c = [] →
  ∃ wires,
    route_all_wires placed (nets (build_nets c)) [] = Some wires
    ∧ Forall (λ w, waypoints w ≠ []) wires
    ∧ NoDup (w_net_name <$> wires)
    ∧ ∀ w, w ∈ wires → w_net_name w ∈ terminals (components c).
Proof.
  intros Hempty.
  destruct (route_all_wires_return placed (nets (build_nets c)) []
              (build_nets_pin_numbers c Hempty))
    as (wires & E & Hax & Hsub).
  exists wires. cbn [app] in E.
  destruct (build_nets_keys (components c) []) as [Hnd Hkeys].
  assert (nets (build_nets c)
          = foldl (λ nets comp,
              add_pin (add_pin nets (node1 comp) (reference comp, 1))
                      (node2 comp) (reference comp, 2)) [] (components c)) as Enets.
  { unfold build_nets. cbn [nets]. by rewrite Hempty. }
  rewrite Enets in Hsub.
  split_and!; [done| | |].
  - eapply Forall_impl; [exact Hax|]. by intros w (_ & _ & H).
  - eapply sublist_NoDup; [|exact Hsub]. apply Hnd. constructor.
  - intros w Hw.
    assert (w_net_name w ∈ w_net_name <$> wires) as Hn
      by (by apply list_elem_of_fmap_2).
    pose proof (elem_of_sublist _ _ _ Hn Hsub) as Hk.
    apply Hkeys in Hk as [Hk%elem_of_nil|Hk]; done.
Qed.

Lemma route_all_wires_on_parsed_witness :
  ∃ wires,
    route_all_wires
      [Placer.mkPlaced "R1" "R" 500 150 0 [(480, 150); (520, 150)];
       Placer.mkPlaced "R2" "R" 500 350 0 [(480, 350); (520, 350)]]
      (nets (build_nets two_loads)) []
    = Some wires.
Proof.
  destruct (route_all_wires_on_parsed
      [Placer.mkPlaced "R1" "R" 500 150 0 [(480, 150); (520, 150)];
       Placer.mkPlaced "R2" "R" 500 350 0 [(480, 350); (520, 350)]] two_loads)
    as (wires & H & _); [reflexivity|].
  by exists wires.
Defined.

(** X29: for pins at integer positions, and pin numbers that are at least
    1, [_route_all_wires] returns, and every wire it appends is a list of
    waypoints in which each step changes exactly one coordinate, so that no
    waypoint is followed by itself. *)
Theorem route_all_wires_manhattan (placed : list PlacedComponent)
    (nets : list (string * Net)) (wires : list Wire) :
  Forall (λ entry : string * Net, Forall (λ pin : string * Z, 1 ≤ pin.2) (net_pins entry.2))
         nets →
  ∃ more,
    route_all_wires placed nets wires = Some (wires ++ more)
    ∧ Forall (λ w, axis_steps (waypoints w) ∧ no_stutter (waypoints w)) more.
Proof.
  intros Hnets.
  destruct (route_all_wires_return placed nets wires Hnets) as (more & E & Hall & _).
  exists more. split; [done|].
  eapply Forall_impl; [exact Hall|]. by intros w (H1 & H2 & _).
Qed.

Lemma route_all_wires_manhattan_witness :
  ∃ more,
    route_all_wires
      [Placer.mkPlaced "R1" "R" 0 0 0 [(0, 0); (40, 0)];
       Placer.mkPlaced "C1" "C" 250 0 0 [(250, 30); (250, 60)]]
      [("N1", mkNet "N1" [("R1", 2); ("C1", 1)])] []
    = Some more
    ∧ Forall (λ w, axis_steps (waypoints w) ∧ no_stutter (waypoints w)) more.
Proof.
  destruct (route_all_wires_manhattan
      [Placer.mkPlaced "R1" "R" 0 0 0 [(0, 0); (40, 0)];
       Placer.mkPlaced "C1" "C" 250 0 0 [(250, 30); (250, 60)]]
      [("N1", mkNet "N1" [("R1", 2); ("C1", 1)])] []) as (more & E & H).
  - repeat constructor; simpl; lia.
  - exists more. split; [exact E|exact H].
Defined.

End NetlistFacts.

(** * The run of the textbook placer on the components of the parser *)

Module SeriesRunFacts.
Import Placer PlacerSpec PlacerRun.

(** A netlist is tagged SERIES only if it has a source and a passive. *)
Lemma series_tag_parts c :
  detect_topology c = SERIES →
  ∃ source more p ps, sources c = source :: more ∧ passives c = p :: ps.
Proof.
  unfold detect_topology.
  destruct (sources c) as [|source more], (passives c) as [|p ps]; try done.
  intros _. by exists source, more, p, ps.
Qed.

Lemma place_series_raises self c placed source more :
  sources c = source :: more → passives c ≠ [] →
  place_series self c placed
  = Raised (placed ++ [mkPlaced (reference source) (comp_type source)
                                0 (RAIL_HEIGHT self) 0 []]).
Proof.
  intros Hs Hp. unfold place_series. rewrite Hs.
  destruct (passives c) as [|p ps]; [done|]. done.
Qed.

Lemma series_placement_raises_parts self library c :
  detect_topology c = SERIES →
  ∃ source more,
    sources c = source :: more
    ∧ PlacerRun.place_circuit self library c
      = Raised [mkPlaced (reference source) (comp_type source)
                         0 (RAIL_HEIGHT self) 0 []].
Proof.
  intros Htag.
  destruct (series_tag_parts c Htag) as (source & more & p & ps & Hs & Hp).
  exists source, more. split; [done|].
  unfold PlacerRun.place_circuit, PlacerRun.place_by_topology. rewrite Htag.
  by rewrite (place_series_raises self c [] source more) by (done || by rewrite Hp).
Qed.

(** Outside the series strategy nothing is put in a set: with pin numbers
    that are at least 1 the run returns, and its layout is that of
    [Placer.place_circuit], whatever [set_order] is. *)
Lemma run_returns self set_order library c :
  detect_topology c ≠ SERIES →
  Forall (λ entry : string * Net, Forall (λ pin : string * Z, 1 ≤ pin.2) (net_pins entry.2))
         (nets c) →
  ∃ wires,
    PlacerRun.place_circuit self library c
    = Returned (Placer.place_circuit self set_order library c, wires).
Proof.
  intros Htag Hnets.
  destruct (NetlistFacts.route_all_wires_return
              (Placer.place_circuit self set_order library c) (nets c) [] Hnets)
    as (wires & E & _).
  exists wires. revert E.
  unfold PlacerRun.place_circuit, Placer.place_circuit,
    PlacerRun.place_by_topology, Placer.place_by_topology.
  destruct (detect_topology c); [done| |]; by intros ->.
Qed.

(** What is placed when the placement raises is the beginning of the
    layout of [Placer.place_by_topology]. *)
Lemma run_raised_prefix self set_order c placed :
  PlacerRun.place_by_topology self c [] = Raised placed →
  placed `prefix_of` Placer.place_by_topology self set_order c [].
Proof.
  unfold PlacerRun.place_by_topology, Placer.place_by_topology.
  destruct (detect_topology c) eqn:Htag; [|done|done].
  destruct (series_tag_parts c Htag) as (source & more & p & ps & Hs & Hp).
  rewrite (place_series_raises self c [] source more) by (done || by rewrite Hp).
  intros [= <-]. unfold Placer.place_series. rewrite Hs, Hp. cbn [app].
  rewrite (PlacerFacts.foldl_place_h self).
  destruct (grounds c); [by apply prefix_app_r|].
  rewrite <- (assoc_L (++)). by apply prefix_app_r.
Qed.

Lemma pins_keep_x library placed :
  p_x <$> calculate_all_pin_positions library placed = p_x <$> placed.
Proof.
  unfold calculate_all_pin_positions. rewrite <- list_fmap_compose.
  apply list_fmap_ext. intros i b _. unfold compose, calculate_pins.
  by destruct (library !! _).
Qed.

(** C5 (code bug): on every netlist tagged SERIES the placer raises before
    a chain member is anchored.  The components are the [Component]
    objects of the parser; [_place_series] anchors the first source at
    [(0, RAIL_HEIGHT)] and calls [_build_series_chain], whose first
    statement [set(passives)] raises [TypeError] on the non-empty list of
    passives: [place_circuit] ends there, with the source as the only
    placed component.  The V1 / R1 / C1 netlist of the worked example is
    tagged GENERIC, not SERIES: its anchors x = 0, 250, 500 are those of
    the grid. *)
Theorem series_placement_raises (self : Spacing)
    (library : gmap string (list (Z * Z))) (c : Circuit) :
  detect_topology c = SERIES →
  (∃ source more,
     sources c = source :: more
     ∧ passives c ≠ []
     ∧ PlacerRun.build_series_chain source (passives c) = None
     ∧ PlacerRun.place_circuit self library c
       = Raised [mkPlaced (reference source) (comp_type source)
                          0 (RAIL_HEIGHT self) 0 []])
  ∧ detect_topology rc_filter = GENERIC
  ∧ ∃ placed wires,
      PlacerRun.place_circuit textbook_spacing library rc_filter
      = Returned (placed, wires)
      ∧ p_x <$> placed = [0; 250; 500].
Proof.
  intros Htag. split; [|split].
  - destruct (series_tag_parts c Htag) as (source & more & p & ps & Hs & Hp).
    exists source, more. split_and!; [done|by rewrite Hp|by rewrite Hp|].
    destruct (series_placement_raises_parts self library c Htag)
      as (source' & more' & Hs' & Hrun).
    rewrite Hs in Hs'. by injection Hs' as <- <-.
  - by vm_compute.
  - destruct (run_returns textbook_spacing (λ l, l) library rc_filter) as [wires Hrun].
    + by vm_compute.
    + repeat constructor; simpl; lia.
    + eexists _, wires. split; [exact Hrun|].
      unfold Placer.place_circuit. rewrite pins_keep_x. by vm_compute.
Qed.

Lemma series_placement_raises_witness :
  PlacerRun.place_circuit textbook_spacing ∅ return_chain
  = Raised [mkPlaced "V1" "VDC" 0 150 0 []].
Proof.
  destruct (series_placement_raises textbook_spacing ∅ return_chain)
    as [(source & more & Hs & _ & _ & H) _]; [by vm_compute|].
  injection Hs as <- _. exact H.
Defined.

End SeriesRunFacts.

(** * More of the textbook placer *)

Module LayoutFacts.
Import Placer PlacerSpec LayoutSpec.

(** ** [_build_series_chain] *)

Lemma find_connected_Some cur remaining i found nxt :
  find_connected cur remaining = Some (i, found, nxt) →
  remaining !! i = Some found ∧ connected cur found = Some nxt.
Proof.
  revert i. induction remaining as [|k rest IH]; intros i H; [done|].
  simpl in H. destruct (connected cur k) as [n'|] eqn:Hk.
  - injection H as <- <- <-. done.
  - destruct (find_connected cur rest) as [[[i' f'] n']|]; [|done].
    injection H as <- <- <-. by apply IH.
Qed.

Lemma chain_loop_perm fuel : ∀ remaining cur acc,
  (length remaining < fuel)%nat →
  chain_loop fuel remaining cur acc ≡ₚ acc ++ remaining.
Proof.
  induction fuel as [|fuel IH]; intros remaining cur acc Hfuel; [lia|].
  destruct remaining as [|k rest]; [by rewrite app_nil_r|].
  cbn [chain_loop].
  destruct (find_connected cur (k :: rest)) as [[[i found] nxt]|] eqn:E; [|done].
  apply find_connected_Some in E as [Hi _].
  pose proof (delete_Permutation _ _ _ Hi) as Hperm.
  rewrite IH.
  - rewrite <- (assoc_L (++)). simpl. by rewrite <- Hperm.
  - apply Permutation_length in Hperm. simpl in *. lia.
Qed.

Lemma chain_loop_fuel fuel : ∀ remaining cur acc extra,
  (length remaining < fuel)%nat →
  chain_loop (fuel + extra) remaining cur acc = chain_loop fuel remaining cur acc.
Proof.
  induction fuel as [|fuel IH]; intros remaining cur acc extra Hfuel; [lia|].
  destruct remaining as [|k rest]; [done|].
  cbn [chain_loop Nat.add].
  destruct (find_connected cur (k :: rest)) as [[[i found] nxt]|] eqn:E; [|done].
  apply find_connected_Some in E as [Hi _].
  pose proof (delete_Permutation _ _ _ Hi) as Hperm.
  apply IH. apply Permutation_length in Hperm. simpl in *. lia.
Qed.

Lemma build_series_chain_perm set_order source ps :
  (∀ l, set_order l ≡ₚ l) → build_series_chain set_order source ps ≡ₚ ps.
Proof.
  intros Hset. unfold build_series_chain. rewrite chain_loop_perm by lia.
  simpl. apply Hset.
Qed.

(** ** Closed forms of the strategies *)

Section Strategies.

Variable self : Spacing.
Variable set_order : list Component → list Component.

Local Abbreviation H := (COMPONENT_SPACING_H self).
Local Abbreviation V := (COMPONENT_SPACING_V self).
Local Abbreviation R := (RAIL_HEIGHT self).

Lemma foldl_place_v (x : Z) ps : ∀ pl y,
  foldl (λ '(pl, y) comp,
           (pl ++ [mkPlaced (reference comp) (comp_type comp) x y 0 []], y + V))
        (pl, y) ps
  = (pl ++ imap (λ k comp, mkPlaced (reference comp) (comp_type comp)
                             x (y + Z.of_nat k * V) 0 [])
               ps,
     y + Z.of_nat (length ps) * V).
Proof.
  induction ps as [|k ps IH]; intros pl y; simpl.
  - rewrite app_nil_r. f_equal. lia.
  - rewrite IH. rewrite <- app_assoc. simpl. f_equal.
    + do 2 f_equal.
      * f_equal. lia.
      * apply imap_ext. intros i comp _. simpl. f_equal. lia.
    + lia.
Qed.

Hypothesis set_order_perm : ∀ l, set_order l ≡ₚ l.

Lemma place_series_form c source more placed :
  sources c = source :: more → passives c ≠ [] →
  place_series self set_order c placed
  = placed
    ++ mkPlaced (reference source) (comp_type source) 0 R 0 []
    :: imap (λ k comp, mkPlaced (reference comp) (comp_type comp)
                         ((Z.of_nat k + 1) * H) R 0 [])
            (build_series_chain set_order source (passives c))
    ++ ground_part c (Z.of_nat (length (passives c)) * H) (R + V).
Proof using set_order_perm.
  intros Hs Hne. unfold place_series, ground_part. rewrite Hs.
  destruct (passives c) as [|p ps] eqn:Hp; [done|].
  rewrite PlacerFacts.foldl_place_h.
  rewrite <- !app_assoc. simpl.
  pose proof (Permutation_length
                (build_series_chain_perm set_order source (p :: ps) set_order_perm))
    as Hlen.
  rewrite Hlen.
  assert (imap (λ k comp, mkPlaced (reference comp) (comp_type comp)
                  (0 + H + Z.of_nat k * H) R 0 [])
               (build_series_chain set_order source (p :: ps))
          = imap (λ k comp, mkPlaced (reference comp) (comp_type comp)
                  ((Z.of_nat k + 1) * H) R 0 [])
               (build_series_chain set_order source (p :: ps))) as ->.
  { apply imap_ext. intros i comp _. simpl. f_equal. lia. }
  replace (0 + H + Z.of_nat (length (p :: ps)) * H - H)
    with (Z.of_nat (length (p :: ps)) * H) by lia.
  destruct (grounds c) as [|g gs].
  - by rewrite app_nil_r.
  - by rewrite <- app_assoc.
Qed.

Lemma place_parallel_form c source more placed :
  sources c = source :: more →
  place_parallel self c placed
  = placed
    ++ mkPlaced (reference source) (comp_type source) 0 R 0 []
    :: imap (λ k comp, mkPlaced (reference comp) (comp_type comp)
                         (2 * H) (R + Z.of_nat k * V) 0 [])
            (passives c)
    ++ ground_part c (3 * H)
         (R + ((Z.of_nat (length (passives c)) - 1) * V) `div` 2).
Proof using Type.
  intros Hs. unfold place_parallel, ground_part. rewrite Hs.
  rewrite foldl_place_v. rewrite <- !app_assoc. simpl.
  assert (imap (λ k comp, mkPlaced (reference comp) (comp_type comp)
                  (H * 2) (R + Z.of_nat k * V) 0 []) (passives c)
          = imap (λ k comp, mkPlaced (reference comp) (comp_type comp)
                  (2 * H) (R + Z.of_nat k * V) 0 []) (passives c)) as ->.
  { apply imap_ext. intros i comp _. simpl. f_equal. lia. }
  replace (H * 2 + H) with (3 * H) by lia.
  destruct (grounds c) as [|g gs].
  - by rewrite app_nil_r.
  - by rewrite <- app_assoc.
Qed.

Lemma place_generic_form c :
  0 < H →
  place_generic_grid self c []
  = imap (λ i comp, mkPlaced (reference comp) (comp_type comp)
                      ((Z.of_nat i `mod` 5) * H) ((Z.of_nat i `div` 5) * V) 0 [])
         (components c).
Proof using Type.
  intros HH. unfold place_generic_grid.
  by rewrite PlacerFacts.grid_turn_closed_form.
Qed.

Lemma detect_nonempty c :
  detect_topology c ≠ GENERIC → sources c ≠ [] ∧ passives c ≠ [].
Proof using Type.
  unfold detect_topology. destruct (sources c), (passives c); try done.
Qed.

(** The placed components of the three layouts. *)
Lemma place_by_topology_form c :
  0 < H →
  match detect_topology c with
  | SERIES =>
      ∃ source more, sources c = source :: more ∧ passives c ≠ []
        ∧ place_by_topology self set_order c []
          = mkPlaced (reference source) (comp_type source) 0 R 0 []
            :: imap (λ k comp, mkPlaced (reference comp) (comp_type comp)
                                 ((Z.of_nat k + 1) * H) R 0 [])
                    (build_series_chain set_order source (passives c))
            ++ ground_part c (Z.of_nat (length (passives c)) * H) (R + V)
  | PARALLEL =>
      ∃ source more, sources c = source :: more ∧ passives c ≠ []
        ∧ place_by_topology self set_order c []
          = mkPlaced (reference source) (comp_type source) 0 R 0 []
            :: imap (λ k comp, mkPlaced (reference comp) (comp_type comp)
                                 (2 * H) (R + Z.of_nat k * V) 0 [])
                    (passives c)
            ++ ground_part c (3 * H)
                 (R + ((Z.of_nat (length (passives c)) - 1) * V) `div` 2)
  | GENERIC =>
      place_by_topology self set_order c []
      = imap (λ i comp, mkPlaced (reference comp) (comp_type comp)
                          ((Z.of_nat i `mod` 5) * H) ((Z.of_nat i `div` 5) * V) 0 [])
             (components c)
  end.
Proof using set_order_perm.
  intros HH. unfold place_by_topology.
  destruct (detect_topology c) eqn:E.
  - destruct (detect_nonempty c) as [Hs Hp]; [by rewrite E|].
    destruct (sources c) as [|source more] eqn:Es; [done|].
    exists source, more. split; [done|]. split; [done|].
    by rewrite (place_series_form c source more []).
  - destruct (detect_nonempty c) as [Hs Hp]; [by rewrite E|].
    destruct (sources c) as [|source more] eqn:Es; [done|].
    exists source, more. split; [done|]. split; [done|].
    by rewrite (place_parallel_form c source more []).
  - by apply place_generic_form.
Qed.

End Strategies.

(** X17: a netlist tagged PARALLEL is laid out with its first source at
    [(0, RAIL_HEIGHT)], its passives in netlist order in one column at
    [x = 2 * COMPONENT_SPACING_H], one [COMPONENT_SPACING_V] apart from
    [RAIL_HEIGHT] down, and its first ground, when there is one, at
    [x = 3 * COMPONENT_SPACING_H], half way down the column (rounded
    toward the top). *)
Theorem parallel_anchors (self : Spacing) (set_order : list Component → list Component)
    (c : Circuit) (source : Component) (more : list Component) :
  detect_topology c = PARALLEL →
  sources c = source :: more →
  place_by_topology self set_order c []
  = mkPlaced (reference source) (comp_type source) 0 (RAIL_HEIGHT self) 0 []
    :: imap (λ k comp, mkPlaced (reference comp) (comp_type comp)
                         (2 * COMPONENT_SPACING_H self)
                         (RAIL_HEIGHT self + Z.of_nat k * COMPONENT_SPACING_V self) 0 [])
            (passives c)
    ++ ground_part c (3 * COMPONENT_SPACING_H self)
         (RAIL_HEIGHT self
          + ((Z.of_nat (length (passives c)) - 1) * COMPONENT_SPACING_V self) `div` 2).
Proof.
  intros Hd Hs. unfold place_by_topology. rewrite Hd.
  by rewrite (place_parallel_form self c source more []).
Qed.

Lemma parallel_anchors_witness :
  anchor <$> place_by_topology textbook_spacing (λ l, l) two_loads []
  = [(0, 150); (500, 150); (500, 350); (750, 250)].
Proof.
  rewrite (parallel_anchors textbook_spacing (λ l, l) two_loads
             (mkComponent "V1" "VDC" "VIN" "GND" "5V") []); [|by vm_compute|done].
  reflexivity.
Defined.

(** ** No component is lost *)

Lemma type_classes t :
  (type_in t ["VDC"; "VAC"] = true ∧ type_in t ["VDC"; "VAC"; "GND"] = true ∧ t ≠ "GND")
  ∨ (type_in t ["VDC"; "VAC"] = false ∧ type_in t ["VDC"; "VAC"; "GND"] = false
     ∧ t ≠ "GND")
  ∨ (type_in t ["VDC"; "VAC"] = false ∧ type_in t ["VDC"; "VAC"; "GND"] = true
     ∧ t = "GND").
Proof.
  unfold type_in.
  destruct (decide (t = "VDC")) as [->|H1]; [left; by vm_compute|].
  destruct (decide (t = "VAC")) as [->|H2]; [left; by vm_compute|].
  right. destruct (decide (t = "GND")) as [->|H3]; [right; by vm_compute|].
  left. split_and!; [| |done]; apply bool_decide_eq_false_2;
    rewrite !elem_of_cons, elem_of_nil; tauto.
Qed.

Lemma components_partition c :
  components c ≡ₚ sources c ++ passives c ++ grounds c.
Proof.
  unfold sources, passives, grounds. induction (components c) as [|k l IH]; [done|].
  rewrite !filter_cons.
  destruct (type_classes (comp_type k)) as [(H1 & H2 & H3)|[(H1 & H2 & H3)|(H1 & H2 & H3)]].
  - rewrite decide_True by done. rewrite decide_False by congruence.
    rewrite decide_False by done. simpl. by rewrite <- IH.
  - rewrite decide_False by congruence. rewrite decide_True by done.
    rewrite decide_False by done. rewrite <- app_comm_cons, <- Permutation_middle.
    by rewrite <- IH.
  - rewrite decide_False by congruence. rewrite decide_False by congruence.
    rewrite decide_True by done.
    rewrite (assoc_L (++)), <- Permutation_middle, <- (assoc_L (++)). by rewrite <- IH.
Qed.

Lemma tags_imap (fx fy : nat → Z) (l : list Component) :
  placed_tag <$> imap (λ k comp, mkPlaced (reference comp) (comp_type comp)
                                   (fx k) (fy k) 0 []) l
  = component_tag <$> l.
Proof.
  rewrite fmap_imap. rewrite <- imap_const. by apply imap_ext.
Qed.

Lemma tags_ground_part c x y :
  placed_tag <$> ground_part c x y = component_tag <$> take 1 (grounds c).
Proof. unfold ground_part. by destruct (grounds c). Qed.

Lemma tags_pins library placed :
  placed_tag <$> calculate_all_pin_positions library placed = placed_tag <$> placed
  ∧ anchor <$> calculate_all_pin_positions library placed = anchor <$> placed.
Proof.
  unfold calculate_all_pin_positions. rewrite <- !list_fmap_compose.
  split; apply list_fmap_ext; intros i p _; simpl; unfold calculate_pins;
    by destruct (library !! p_comp_type p).
Qed.

Lemma place_tags self set_order c :
  (∀ l, set_order l ≡ₚ l) → 0 < COMPONENT_SPACING_H self →
  placed_tag <$> place_by_topology self set_order c []
  ≡ₚ component_tag <$> match detect_topology c with
                       | GENERIC => components c
                       | _ => take 1 (sources c) ++ passives c ++ take 1 (grounds c)
                       end.
Proof.
  intros Hset HH.
  pose proof (place_by_topology_form self set_order Hset c HH) as Hform.
  destruct (detect_topology c).
  - destruct Hform as (source & more & Hs & Hp & ->). rewrite Hs.
    rewrite fmap_cons, !fmap_app, tags_imap, tags_ground_part. simpl.
    by rewrite (build_series_chain_perm set_order source (passives c) Hset).
  - destruct Hform as (source & more & Hs & Hp & ->). rewrite Hs.
    by rewrite fmap_cons, !fmap_app, tags_imap, tags_ground_part.
  - rewrite Hform. by rewrite tags_imap.
Qed.

(** X18: what [place_circuit] places on the components of the parser, with
    positive horizontal spacing and pin numbers that are at least 1.  Under
    the GENERIC tag it returns every component, in the order of the netlist.
    Under the PARALLEL tag it returns the first source, the passives in the
    order of the netlist and the first ground; sources and grounds beyond
    the first are dropped, so that every component is placed exactly once
    when there is at most one source and at most one ground.  Under the
    SERIES tag it raises [TypeError] with the first source as the only
    placed component.  Pin resolution changes none of this. *)
Theorem every_component_placed (self : Spacing)
    (library : gmap string (list (Z * Z))) (c : Circuit) :
  0 < COMPONENT_SPACING_H self →
  Forall (λ entry : string * Net, Forall (λ pin : string * Z, 1 ≤ pin.2) (net_pins entry.2))
         (nets c) →
  match detect_topology c with
  | GENERIC =>
      ∃ placed wires,
        PlacerRun.place_circuit self library c = PlacerRun.Returned (placed, wires)
        ∧ placed_tag <$> placed = component_tag <$> components c
  | PARALLEL =>
      ∃ placed wires,
        PlacerRun.place_circuit self library c = PlacerRun.Returned (placed, wires)
        ∧ placed_tag <$> placed
          = component_tag <$> take 1 (sources c) ++ passives c ++ take 1 (grounds c)
        ∧ ((length (sources c) ≤ 1)%nat → (length (grounds c) ≤ 1)%nat →
           placed_tag <$> placed ≡ₚ component_tag <$> components c)
  | SERIES =>
      ∃ placed,
        PlacerRun.place_circuit self library c = PlacerRun.Raised placed
        ∧ placed_tag <$> placed = component_tag <$> take 1 (sources c)
  end.
Proof.
  intros HH Hnets.
  pose proof (place_by_topology_form self (λ l, l) (λ l, reflexivity l) c HH) as Hform.
  destruct (detect_topology c) eqn:Htag.
  - destruct (SeriesRunFacts.series_placement_raises_parts self library c Htag)
      as (source & more & Hs & Hrun).
    eexists. split; [exact Hrun|]. by rewrite Hs.
  - destruct (SeriesRunFacts.run_returns self (λ l, l) library c) as [wires Hrun];
      [congruence|done|].
    eexists _, wires. split; [exact Hrun|].
    unfold place_circuit.
    destruct (tags_pins library (place_by_topology self (λ l, l) c [])) as [-> _].
    destruct Hform as (source & more & Hs & Hp & ->).
    assert (placed_tag
              <$> mkPlaced (reference source) (comp_type source) 0 (RAIL_HEIGHT self) 0 []
                  :: imap (λ k comp, mkPlaced (reference comp) (comp_type comp)
                                       (2 * COMPONENT_SPACING_H self)
                                       (RAIL_HEIGHT self
                                        + Z.of_nat k * COMPONENT_SPACING_V self) 0 [])
                          (passives c)
                  ++ ground_part c (3 * COMPONENT_SPACING_H self)
                       (RAIL_HEIGHT self
                        + ((Z.of_nat (length (passives c)) - 1)
                           * COMPONENT_SPACING_V self) `div` 2)
            = component_tag <$> take 1 (sources c) ++ passives c ++ take 1 (grounds c))
      as Htags.
    { rewrite Hs. by rewrite fmap_cons, !fmap_app, tags_imap, tags_ground_part. }
    split; [exact Htags|].
    intros Hone Hg. rewrite Htags, (components_partition c).
    by rewrite !take_ge by lia.
  - destruct (SeriesRunFacts.run_returns self (λ l, l) library c) as [wires Hrun];
      [congruence|done|].
    eexists _, wires. split; [exact Hrun|].
    unfold place_circuit.
    destruct (tags_pins library (place_by_topology self (λ l, l) c [])) as [-> _].
    rewrite Hform. by rewrite tags_imap.
Qed.

Lemma every_component_placed_witness :
  ∃ placed wires,
    PlacerRun.place_circuit textbook_spacing ∅ two_loads
    = PlacerRun.Returned (placed, wires)
    ∧ placed_tag <$> placed ≡ₚ component_tag <$> components two_loads.
Proof.
  pose proof (every_component_placed textbook_spacing ∅ two_loads
                ltac:(done) ltac:(constructor)) as H.
  change (detect_topology two_loads) with PARALLEL in H.
  destruct H as (placed & wires & Hrun & _ & Hall).
  exists placed, wires. split; [exact Hrun|]. apply Hall; simpl; lia.
Defined.

(** ** No two components on one anchor *)

Lemma anchors_imap (fx fy : nat → Z) (l : list Component) :
  anchor <$> imap (λ k comp, mkPlaced (reference comp) (comp_type comp)
                               (fx k) (fy k) 0 []) l
  = (λ k, (fx k, fy k)) <$> seq 0 (length l).
Proof.
  rewrite fmap_imap. rewrite <- imap_seq_0. by apply imap_ext.
Qed.

Lemma anchors_ground_part c x y p :
  p ∈ anchor <$> ground_part c x y → p = (x, y).
Proof.
  unfold ground_part. destruct (grounds c); simpl.
  - intros H. by apply elem_of_nil in H.
  - by intros ->%list_elem_of_singleton.
Qed.

Lemma NoDup_ground_part c x y : NoDup (anchor <$> ground_part c x y).
Proof.
  unfold ground_part. destruct (grounds c); simpl;
    [apply NoDup_nil_2|apply NoDup_singleton].
Qed.

Lemma NoDup_layout (a : Z * Z) (fx fy : nat → Z) (n : nat) (g : list (Z * Z)) (b : Z * Z) :
  (∀ i j, fx i = fx j → fy i = fy j → i = j) →
  (∀ i, (fx i, fy i) ≠ a) →
  (∀ i, (i < n)%nat → (fx i, fy i) ≠ b) →
  a ≠ b →
  NoDup g → (∀ p, p ∈ g → p = b) →
  NoDup (a :: ((λ k, (fx k, fy k)) <$> seq 0 n) ++ g).
Proof.
  intros Hinj Ha Hb Hab Hg Hgb.
  apply NoDup_cons. split.
  - intros [Hin|Hin]%elem_of_app.
    + apply list_elem_of_fmap in Hin as (i & -> & _). by apply (Ha i).
    + apply Hgb in Hin. done.
  - apply NoDup_app. split_and!; [|  |done].
    + apply NoDup_fmap_2_strong; [|apply NoDup_seq].
      intros i j _ _ [= H1 H2]. by apply Hinj.
    + intros p Hp Hpg. apply Hgb in Hpg as ->.
      apply list_elem_of_fmap in Hp as (i & Hi & Hin%elem_of_seq).
      apply (Hb i); [lia|done].
Qed.

(** X19: with positive spacings no two components are placed on the same
    anchor, whichever of the three strategies lays the netlist out. *)
Theorem anchors_distinct (self : Spacing) (set_order : list Component → list Component)
    (library : gmap string (list (Z * Z))) (c : Circuit) :
  (∀ l, set_order l ≡ₚ l) →
  0 < COMPONENT_SPACING_H self →
  0 < COMPONENT_SPACING_V self →
  NoDup (anchor <$> place_circuit self set_order library c).
Proof.
  intros Hset HH HV. unfold place_circuit.
  destruct (tags_pins library (place_by_topology self set_order c [])) as [_ ->].
  pose proof (place_by_topology_form self set_order Hset c HH) as Hform.
  destruct (detect_topology c).
  - destruct Hform as (source & more & Hs & Hp & ->).
    rewrite fmap_cons, fmap_app, anchors_imap.
    pose proof (Permutation_length
                  (build_series_chain_perm set_order source (passives c) Hset)) as ->.
    apply (NoDup_layout _ _ _ _ _
             (Z.of_nat (length (passives c)) * COMPONENT_SPACING_H self,
              RAIL_HEIGHT self + COMPONENT_SPACING_V self)).
    + intros i j Hx _. nia.
    + intros i [= Hx]. nia.
    + intros i _ [= _ Hy]. lia.
    + intros [= _ Hy]. lia.
    + apply NoDup_ground_part.
    + apply anchors_ground_part.
  - destruct Hform as (source & more & Hs & Hp & ->).
    rewrite fmap_cons, fmap_app, anchors_imap.
    apply (NoDup_layout _ _ _ _ _
             (3 * COMPONENT_SPACING_H self,
              RAIL_HEIGHT self
              + ((Z.of_nat (length (passives c)) - 1) * COMPONENT_SPACING_V self) `div` 2)).
    + intros i j _ Hy. nia.
    + intros i [= Hx]. lia.
    + intros i _ [= Hx _]. lia.
    + intros [= Hx _]. lia.
    + apply NoDup_ground_part.
    + apply anchors_ground_part.
  - rewrite Hform, anchors_imap.
    apply NoDup_fmap_2_strong; [|apply NoDup_seq].
    intros i j _ _ [= Hx Hy].
    assert (Z.of_nat i `mod` 5 = Z.of_nat j `mod` 5) by nia.
    assert (Z.of_nat i `div` 5 = Z.of_nat j `div` 5) by nia.
    pose proof (Z.div_mod (Z.of_nat i) 5 ltac:(lia)).
    pose proof (Z.div_mod (Z.of_nat j) 5 ltac:(lia)). lia.
Qed.

Lemma anchors_distinct_witness :
  NoDup (anchor <$> place_circuit textbook_spacing (λ l, l) ∅ two_loads).
Proof.
  apply (anchors_distinct textbook_spacing (λ l, l) ∅ two_loads);
    [by intros l|done|done].
Defined.

End LayoutFacts.

(** * The grid placer: order, anchors and wires *)

Module BlockedFacts.
Import BlockedPlacer BlockedRouting LayoutSpec.

(** ** [_topological_sort] *)

Lemma sort_turn_rank vs cs gs k :
  sort_turn (vs, cs, gs) k
  = match sort_rank k with
    | 0%nat => (vs ++ [k], cs, gs)
    | 1%nat => (vs, cs ++ [k], gs)
    | _ => (vs, cs, gs ++ [k])
    end.
Proof. unfold sort_turn, sort_rank. by repeat case_bool_decide. Qed.

Lemma sort_rank_cases k : sort_rank k = 0%nat ∨ sort_rank k = 1%nat ∨ sort_rank k = 2%nat.
Proof. unfold sort_rank. repeat case_bool_decide; auto. Qed.

Lemma sort_fold comps : ∀ vs cs gs,
  foldl sort_turn (vs, cs, gs) comps
  = (vs ++ filter (λ k, sort_rank k = 0%nat) comps,
     cs ++ filter (λ k, sort_rank k = 1%nat) comps,
     gs ++ filter (λ k, sort_rank k = 2%nat) comps).
Proof.
  induction comps as [|k comps IH]; intros vs cs gs.
  - by rewrite !filter_nil, !app_nil_r.
  - cbn [foldl]. rewrite !filter_cons, sort_turn_rank.
    destruct (sort_rank_cases k) as [E|[E|E]]; rewrite E, IH; simpl;
      by rewrite <- (assoc_L (++)).
Qed.

Lemma topological_sort_filters (c : Circuit) :
  topological_sort c
  = filter (λ k, sort_rank k = 0%nat) (c_components c)
    ++ filter (λ k, sort_rank k = 1%nat) (c_components c)
    ++ filter (λ k, sort_rank k = 2%nat) (c_components c).
Proof. unfold topological_sort. by rewrite sort_fold. Qed.

Lemma rank_partition (l : list NetlistComponent) :
  filter (λ k, sort_rank k = 0%nat) l
  ++ filter (λ k, sort_rank k = 1%nat) l
  ++ filter (λ k, sort_rank k = 2%nat) l ≡ₚ l.
Proof.
  induction l as [|k l IH]; [done|].
  rewrite !filter_cons.
  destruct (sort_rank_cases k) as [E|[E|E]]; rewrite E; simpl.
  - by rewrite IH.
  - rewrite <- Permutation_middle. by rewrite IH.
  - rewrite (assoc_L (++)), <- Permutation_middle, <- (assoc_L (++)). by rewrite IH.
Qed.

Lemma filter_filter_rank (r s : nat) (l : list NetlistComponent) :
  filter (λ k, sort_rank k = r) (filter (λ k, sort_rank k = s) l)
  = if decide (r = s) then filter (λ k, sort_rank k = s) l else [].
Proof.
  induction l as [|k l IH]; [by case_decide|].
  rewrite filter_cons. destruct (decide (sort_rank k = s)) as [E|E].
  - rewrite filter_cons, IH. destruct (decide (r = s)) as [->|Hne].
    + by rewrite decide_True.
    + rewrite decide_False by congruence. done.
  - done.
Qed.

Lemma sorted_blocks (l0 l1 l2 : list NetlistComponent) :
  Forall (λ k, sort_rank k = 0%nat) l0 →
  Forall (λ k, sort_rank k = 1%nat) l1 →
  Forall (λ k, sort_rank k = 2%nat) l2 →
  StronglySorted (λ a b, (sort_rank a ≤ sort_rank b)%nat) (l0 ++ l1 ++ l2).
Proof.
  intros H0 H1 H2.
  assert (∀ r (l : list NetlistComponent),
            Forall (λ k, sort_rank k = r) l →
            StronglySorted (λ a b, (sort_rank a ≤ sort_rank b)%nat) l) as Hblock.
  { intros r l Hl. induction Hl as [|k l Hk Hl IH]; constructor; [done|].
    eapply Forall_impl; [exact Hl|]. simpl. intros. lia. }
  apply StronglySorted_app_2; [|by eapply Hblock|].
  - intros a b Ha Hb. rewrite Forall_forall in H0. rewrite (H0 a Ha). lia.
  - apply StronglySorted_app_2; [|by eapply Hblock|by eapply Hblock].
    intros a b Ha Hb. rewrite Forall_forall in H1, H2.
    rewrite (H1 a Ha), (H2 b Hb). lia.
Qed.

Lemma filter_rank_other (r : nat) (l : list NetlistComponent) :
  (2 < r)%nat → filter (λ k, sort_rank k = r) l = [].
Proof.
  intros Hr. induction l as [|k l IH]; [done|].
  rewrite filter_cons, IH. rewrite decide_False; [done|].
  destruct (sort_rank_cases k) as [E|[E|E]]; rewrite E; lia.
Qed.

Lemma topological_sort_spec (c : Circuit) :
  topological_sort c ≡ₚ c_components c
  ∧ StronglySorted (λ a b, (sort_rank a ≤ sort_rank b)%nat) (topological_sort c)
  ∧ (∀ r, filter (λ k, sort_rank k = r) (topological_sort c)
          = filter (λ k, sort_rank k = r) (c_components c)).
Proof.
  rewrite topological_sort_filters. split_and!.
  - apply rank_partition.
  - apply sorted_blocks; apply Forall_forall; by intros k [? _]%list_elem_of_filter.
  - intros r. rewrite !filter_app, !filter_filter_rank.
    destruct (decide (r = 0%nat)) as [->|H0]; [by rewrite !app_nil_r|].
    destruct (decide (r = 1%nat)) as [->|H1]; [by rewrite !app_nil_r|].
    destruct (decide (r = 2%nat)) as [->|H2]; [done|].
    simpl. by rewrite filter_rank_other by lia.
Qed.

(** X25: [_topological_sort] is a stable sort of the components by class:
    the result is a permutation of the components in which every source
    (VDC, VAC, IDC) comes before every other component and every ground
    comes last, and the components of one class keep the order they have
    in the netlist.  Sorting a sorted list changes nothing. *)
Theorem topological_sort_stable (c : Circuit) :
  topological_sort c ≡ₚ c_components c
  ∧ StronglySorted (λ a b, (sort_rank a ≤ sort_rank b)%nat) (topological_sort c)
  ∧ (∀ r, filter (λ k, sort_rank k = r) (topological_sort c)
          = filter (λ k, sort_rank k = r) (c_components c))
  ∧ topological_sort (mkCircuit (topological_sort c) (c_nets c)) = topological_sort c.
Proof.
  destruct (topological_sort_spec c) as (H1 & H2 & H3).
  split_and!; [done|done|done|].
  rewrite (topological_sort_filters (mkCircuit _ _)). cbn [c_components].
  rewrite !H3. symmetry. apply topological_sort_filters.
Qed.

(** ** [_place_components_blocked] *)

Lemma grid_cols_pos n : 0 < n → 0 < grid_cols n.
Proof.
  intros Hn. unfold grid_cols. repeat case_bool_decide; try lia.
  destruct (PlacerFacts.ceil_sqrt_3_2_spec n Hn) as [H1 H2].
  destruct (Z.le_gt_cases (ceil_sqrt_3_2 n) 0) as [Hle|?]; [|done].
  assert (ceil_sqrt_3_2 n = 0 ∨ ceil_sqrt_3_2 n < 0) as [E|E] by lia.
  - rewrite E in H1. simpl in H1. lia.
  - unfold ceil_sqrt_3_2 in E. pose proof (Z.sqrt_up_nonneg ((3 * n + 1) `div` 2)). lia.
Qed.

Lemma determine_rotation_spec comp col total_cols :
  determine_rotation comp col total_cols
  = if bool_decide (component_type comp = "GND") then 270 else 0.
Proof.
  unfold determine_rotation.
  destruct (bool_decide (component_type comp ∈ ["VDC"; "VAC"; "IDC"])) eqn:E1.
  - apply bool_decide_eq_true in E1.
    rewrite (bool_decide_eq_false_2 (component_type comp = "GND")).
    + by destruct (bool_decide (col = 0)); simpl; repeat case_bool_decide.
    + intros E. rewrite E in E1.
      repeat (apply elem_of_cons in E1 as [?|E1]; [done|]). by apply elem_of_nil in E1.
  - simpl. by repeat case_bool_decide.
Qed.

Lemma blocked_layout library comps :
  let placed := place_components_blocked library comps in
  p_reference <$> placed = nc_reference <$> comps
  ∧ p_component_type <$> placed = component_type <$> comps
  ∧ NoDup ((λ p, (p_x p, p_y p)) <$> placed)
  ∧ Forall (λ p, p_rotation p
                 = if bool_decide (p_component_type p = "GND") then 270 else 0) placed.
Proof.
  cbv zeta. unfold place_components_blocked.
  set (cols := grid_cols (Z.of_nat (length comps))).
  split_and!.
  - rewrite fmap_imap. cbn [p_reference compose]. unfold compose. cbn [p_reference].
    clear. generalize 0%nat. intros _. induction comps as [|k l IH]; [done|].
    cbn [imap fmap list_fmap]. f_equal. rewrite <- IH. by apply imap_ext.
  - rewrite fmap_imap. unfold compose. cbn [p_component_type].
    clear. induction comps as [|k l IH]; [done|].
    cbn [imap fmap list_fmap]. f_equal. rewrite <- IH. by apply imap_ext.
  - rewrite fmap_imap. unfold compose. cbn [p_x p_y].
    assert (imap (λ idx _, (Z.of_nat idx `mod` cols * COMPONENT_SPACING_X,
                            Z.of_nat idx `div` cols * COMPONENT_SPACING_Y)) comps
            = (λ idx, (Z.of_nat idx `mod` cols * COMPONENT_SPACING_X,
                       Z.of_nat idx `div` cols * COMPONENT_SPACING_Y))
              <$> seq 0 (length comps)) as ->
      by (rewrite <- imap_seq_0; by apply imap_ext).
    destruct comps as [|k0 rest]; [constructor|].
    assert (0 < cols) as Hc by (apply grid_cols_pos; simpl; lia).
    apply NoDup_fmap_2_strong; [|apply NoDup_seq].
    intros i j _ _ [= Hx Hy]. unfold COMPONENT_SPACING_X, COMPONENT_SPACING_Y in *.
    assert (Z.of_nat i `mod` cols = Z.of_nat j `mod` cols) as Hm by lia.
    assert (Z.of_nat i `div` cols = Z.of_nat j `div` cols) as Hd by lia.
    pose proof (Z.div_mod (Z.of_nat i) cols ltac:(lia)).
    pose proof (Z.div_mod (Z.of_nat j) cols ltac:(lia)).
    apply Nat2Z.inj. congruence.
  - apply Forall_forall. intros p (idx & comp & -> & _)%elem_of_lookup_imap.
    cbn [p_rotation p_component_type]. apply determine_rotation_spec.
Qed.

(** X26: [_place_components_blocked] places the components in their order,
    no two of them on the same anchor, and rotates a component by 270
    exactly when it is a ground (every other component has rotation 0). *)
Theorem blocked_anchors_distinct (library : gmap string (list (Z * Z)))
    (comps : list NetlistComponent) :
  let placed := place_components_blocked library comps in
  p_reference <$> placed = nc_reference <$> comps
  ∧ p_component_type <$> placed = component_type <$> comps
  ∧ NoDup ((λ p, (p_x p, p_y p)) <$> placed)
  ∧ Forall (λ p, p_rotation p
                 = if bool_decide (p_component_type p = "GND") then 270 else 0) placed.
Proof. apply blocked_layout. Qed.

(** ** [_route_orthogonal] and [_route_wires] *)

Lemma route_loop_cons first p1 p2 pins :
  route_orthogonal_loop first (p1 :: p2 :: pins)
  = (if first then [p1] else [])
    ++ (if bool_decide (Z.abs (p2.1 - p1.1) > Z.abs (p2.2 - p1.2))
        then [(p2.1, p1.2); p2] else [(p1.1, p2.2); p2])
    ++ route_orthogonal_loop false (p2 :: pins).
Proof. reflexivity. Qed.

Lemma route_loop_spec pins : ∀ p,
  aligned_steps (p :: route_orthogonal_loop false (p :: pins))
  ∧ length (route_orthogonal_loop false (p :: pins)) = (2 * length pins)%nat
  ∧ (∀ i, (p :: route_orthogonal_loop false (p :: pins)) !! (2 * i)%nat
          = (p :: pins) !! i).
Proof.
  induction pins as [|p2 pins IH]; intros p.
  { split_and!; [done|done|]. intros [|i]; [done|]. simpl.
    by rewrite lookup_nil. }
  destruct (IH p2) as (H1 & H2 & H3).
  rewrite route_loop_cons. cbn [app].
  set (rest := route_orthogonal_loop false (p2 :: pins)) in *.
  case_bool_decide; cbn [app].
  - split_and!.
    + split; [by right|]. split; [by left|]. done.
    + cbn [length]. rewrite H2. cbn [length]. lia.
    + intros [|i]; [done|]. replace (2 * S i)%nat with (S (S (2 * i))) by lia.
      cbn [lookup list_lookup]. apply (H3 i).
  - split_and!.
    + split; [by left|]. split; [by right|]. done.
    + cbn [length]. rewrite H2. cbn [length]. lia.
    + intros [|i]; [done|]. replace (2 * S i)%nat with (S (S (2 * i))) by lia.
      cbn [lookup list_lookup]. apply (H3 i).
Qed.

Lemma route_loop_first p1 p2 pins :
  route_orthogonal_loop true (p1 :: p2 :: pins)
  = p1 :: route_orthogonal_loop false (p1 :: p2 :: pins).
Proof. by rewrite !route_loop_cons. Qed.

Lemma blocked_route_orthogonal_spec net_name pins :
  w_net_name (route_orthogonal net_name pins) = net_name
  ∧ ((length pins < 2)%nat → points (route_orthogonal net_name pins) = [])
  ∧ ((2 ≤ length pins)%nat →
     aligned_steps (points (route_orthogonal net_name pins))
     ∧ length (points (route_orthogonal net_name pins)) = (2 * length pins - 1)%nat
     ∧ ∀ i, points (route_orthogonal net_name pins) !! (2 * i)%nat = pins !! i).
Proof.
  unfold route_orthogonal. case_bool_decide as Hlen; cbn [w_net_name points].
  - split_and!; [done|done|lia].
  - split_and!; [done|lia|]. intros _.
    destruct pins as [|p1 [|p2 pins]]; [simpl in Hlen; lia|simpl in Hlen; lia|].
    rewrite route_loop_first.
    destruct (route_loop_spec (p2 :: pins) p1) as (H1 & H2 & H3).
    split_and!; [done| |done].
    cbn [length]. rewrite H2. simpl. lia.
Qed.

(** X27: the wire that [_route_orthogonal] of the grid placer returns
    carries the name of the net; it is empty for fewer than two pins, and
    for [k ≥ 2] pins it has [2 k - 1] points, the pins at the even places
    and one bend between two pins, each step lying on one horizontal or
    vertical line. *)
Theorem blocked_route_orthogonal_through_pins (net_name : string)
    (pins : list (Z * Z)) :
  w_net_name (route_orthogonal net_name pins) = net_name
  ∧ ((length pins < 2)%nat → points (route_orthogonal net_name pins) = [])
  ∧ ((2 ≤ length pins)%nat →
     aligned_steps (points (route_orthogonal net_name pins))
     ∧ length (points (route_orthogonal net_name pins)) = (2 * length pins - 1)%nat
     ∧ ∀ i, points (route_orthogonal net_name pins) !! (2 * i)%nat = pins !! i).
Proof. apply blocked_route_orthogonal_spec. Qed.

Lemma blocked_collect_pins_return placed pins : ∀ pin_positions,
  Forall (λ pin : string * Z, 0 ≤ pin.2) pins →
  ∃ more, foldl (collect_pin placed) (Some pin_positions) pins
          = Some (pin_positions ++ more).
Proof.
  induction pins as [|[ref pin_idx] pins IH]; intros pin_positions Hpins.
  - exists []. by rewrite app_nil_r.
  - apply Forall_cons in Hpins as [Hpin Hpins]. simpl in Hpin.
    cbn [foldl]. unfold collect_pin at 2. cbn [mbind option_bind].
    destruct (find_placed_component placed ref) as [p|].
    + case_bool_decide as Hlt.
      * unfold py_index. rewrite bool_decide_eq_true_2 by lia.
        destruct (lookup_lt_is_Some_2 (BlockedPlacer.pin_positions p) (Z.to_nat pin_idx))
          as [pos Hpos]; [lia|].
        rewrite Hpos. cbn [mbind option_bind].
        destruct (IH (pin_positions ++ [pos]) Hpins) as [more Hmore].
        exists (pos :: more). rewrite Hmore.
        by rewrite <- (assoc_L (++)).
      * apply IH, Hpins.
    + apply IH, Hpins.
Qed.

Lemma route_wires_return placed nets : ∀ wires,
  Forall (λ net, Forall (λ pin : string * Z, 0 ≤ pin.2) (nn_components net)) nets →
  ∃ more,
    route_wires placed nets wires = Some (wires ++ more)
    ∧ Forall (λ w, aligned_steps (points w) ∧ (3 ≤ length (points w))%nat) more
    ∧ w_net_name <$> more `sublist_of` nn_name <$> nets.
Proof.
  unfold route_wires.
  induction nets as [|net nets IH]; intros wires Hnets.
  - exists []. rewrite app_nil_r. split_and!; [done|constructor|done].
  - apply Forall_cons in Hnets as [Hnet Hnets].
    cbn [foldl]. unfold route_wire at 2. cbn [mbind option_bind].
    case_bool_decide as Hfew.
    { destruct (IH wires Hnets) as (more & E & Hax & Hsub).
      exists more. split_and!; [done|done|by apply sublist_cons]. }
    destruct (blocked_collect_pins_return placed (nn_components net) [] Hnet) as [pins E].
    rewrite E. cbn [mbind option_bind app].
    case_bool_decide as Hfew2.
    2: { destruct (IH wires Hnets) as (more & E' & Hax & Hsub).
         exists more. split_and!; [done|done|by apply sublist_cons]. }
    destruct (IH (wires ++ [route_orthogonal (nn_name net) pins]) Hnets)
      as (more & E' & Hax & Hsub).
    exists (route_orthogonal (nn_name net) pins :: more). split_and!.
    + rewrite E'. by rewrite <- (assoc_L (++)).
    + constructor; [|done].
      destruct (blocked_route_orthogonal_spec (nn_name net) pins) as (_ & _ & H).
      destruct (H Hfew2) as (H1 & H2 & _). split; [done|lia].
    + cbn [fmap list_fmap].
      destruct (blocked_route_orthogonal_spec (nn_name net) pins) as (-> & _).
      by apply sublist_skip.
Qed.

(** X28: [place_circuit] of the grid placer raises nothing when no pin
    index of the nets is negative: it returns the components placed in the
    order of [_topological_sort] and at most one wire per net, in the
    order and under the names of the nets, each with at least three points
    and every step on one horizontal or vertical line. *)
Theorem blocked_place_circuit_total (library : gmap string (list (Z * Z)))
    (c : Circuit) :
  Forall (λ net, Forall (λ pin : string * Z, 0 ≤ pin.2) (nn_components net))
         (c_nets c) →
  ∃ placed wires,
    place_circuit library c = Some (placed, wires)
    ∧ p_reference <$> placed = nc_reference <$> topological_sort c
    ∧ Forall (λ w, aligned_steps (points w) ∧ (3 ≤ length (points w))%nat) wires
    ∧ w_net_name <$> wires `sublist_of` nn_name <$> c_nets c.
Proof.
  intros Hnets. unfold place_circuit.
  destruct (route_wires_return
              (place_components_blocked library (topological_sort c))
              (c_nets c) [] Hnets) as (wires & E & Hax & Hsub).
  exists (place_components_blocked library (topological_sort c)), wires.
  rewrite E. cbn [mbind option_bind app].
  split_and!; [done| |done|done].
  apply blocked_layout.
Qed.

Lemma blocked_place_circuit_total_witness :
  ∃ placed wires,
    place_circuit ∅
      (mkCircuit [mkNetlistComponent "R1" "R" ["N1"; "GND"];
                  mkNetlistComponent "V1" "VDC" ["N1"; "GND"]]
                 [mkNetlistNet "N1" [("R1", 0); ("V1", 0)]])
    = Some (placed, wires)
    ∧ p_reference <$> placed = ["V1"; "R1"].
Proof.
  destruct (blocked_place_circuit_total ∅
      (mkCircuit [mkNetlistComponent "R1" "R" ["N1"; "GND"];
                  mkNetlistComponent "V1" "VDC" ["N1"; "GND"]]
                 [mkNetlistNet "N1" [("R1", 0); ("V1", 0)]]))
    as (placed & wires & H1 & H2 & _).
  - repeat constructor; simpl; lia.
  - exists placed, wires. split; [exact H1|exact H2].
Defined.

End BlockedFacts.
